(** * Arcadian GSC Insights: the aggregation core, embedded and verified

    A shallow embedding of the TypeScript sources

    - [lib/csv-parser.ts]       (Row Ingestor, [streamParseCSV])
    - [lib/aggregator.ts]       (Daily Aggregator, [buildDailyAggregates],
                                 [calculateWeightedMetrics])
    - [lib/cache-lock.ts], [lib/data-cache.ts]
                                (Rebuild Coordinator, [getCacheOrBuild])
    - [lib/insights-builder.ts] (Range Summarizer)
    - [lib/security.ts]         (Call Governor, [RateLimiter]; the
                                 sanitizers and [validateClaudeResponse])
    - [app/api/*/route.ts]      ([filterByDateRange])

    JavaScript numbers are IEEE 754 binary64 values and are modelled by
    Rocq's primitive floats, so concrete runs of the embedding compute
    bit for bit what the program computes.  The aggregator is written
    over an interface of number operations ([Number]), of which
    binary64 is the instance. *)

From Stdlib Require Import ZArith String Ascii List Lia Floats Reals Lra.
From stdpp Require Import gmap strings list sorting pretty relations.

Local Open Scope string_scope.

(** ** JavaScript runtime pieces the sources rely on *)

Module Js.

(** What a function call produces: a value, or a thrown [Error] with its
    message. *)
Inductive result (A : Type) : Type :=
| Ok (a : A)
| Throw (msg : string).
Arguments Ok {A} a.
Arguments Throw {A} msg.

(** The operations on [number] that the aggregation code uses.
    [num_lt a b] is [a < b]; the source's [a > b] is [num_lt b a]. *)
Class Number (T : Type) : Type := {
  num_zero : T;
  num_add : T -> T -> T;
  num_sub : T -> T -> T;
  num_mul : T -> T -> T;
  num_div : T -> T -> T;
  num_lt : T -> T -> bool;
  isFinite : T -> bool;
  isNaN : T -> bool
}.

(** IEEE 754 binary64: the numbers the program runs on. *)
#[export] Instance Number_float : Number float := {
  num_zero := 0%float;
  num_add := PrimFloat.add;
  num_sub := PrimFloat.sub;
  num_mul := PrimFloat.mul;
  num_div := PrimFloat.div;
  num_lt := PrimFloat.ltb;
  isFinite := PrimFloat.is_finite;
  isNaN := PrimFloat.is_nan
}.

(** [Math.min] on two arguments: NaN if either is NaN. *)
Definition Math_min (a b : float) : float :=
  if (PrimFloat.is_nan a || PrimFloat.is_nan b)%bool then PrimFloat.nan
  else if PrimFloat.ltb b a then b else a.

(** [Math.pow(x, 2)], the only use of [Math.pow] in the sources. *)
Definition Math_pow2 (x : float) : float := PrimFloat.mul x x.

(** The length of an array as a number. *)
Definition number_of_nat (n : nat) : float :=
  PrimFloat.of_uint63 (Uint63.of_Z (Z.of_nat n)).

(** White space removed by [String.prototype.trim], for the code units
    below 256 that a [string] of this development holds. *)
Definition is_white_space (c : ascii) : bool :=
  let n := nat_of_ascii c in
  ((9 <=? n) && (n <=? 13) || (n =? 32) || (n =? 160))%nat.

Fixpoint trim_start (s : string) : string :=
  match s with
  | EmptyString => EmptyString
  | String c s' => if is_white_space c then trim_start s' else s
  end.

(** Drops trailing white space: a white space character is kept only if
    something else follows it. *)
Fixpoint trim_end (s : string) : string :=
  match s with
  | EmptyString => EmptyString
  | String c s' =>
      match trim_end s' with
      | EmptyString => if is_white_space c then EmptyString else String c EmptyString
      | t => String c t
      end
  end.

Definition trim (s : string) : string := trim_end (trim_start s).

(** Modelled from the spec: [String.prototype.localeCompare] is the
    host's collation and is not part of the sources; the specification
    reads it as ordinary string ordering on the fixed-width date keys. *)
Definition localeCompare (a b : string) : comparison := String.compare a b.

(** [Array.prototype.sort] with a comparator: a stable sort.  An element
    is placed before the first element of the already sorted tail that
    does not compare below it. *)
Fixpoint insert_by {A : Type} (cmp : A -> A -> comparison) (x : A) (l : list A) : list A :=
  match l with
  | [] => [x]
  | y :: l' =>
      match cmp x y with
      | Gt => y :: insert_by cmp x l'
      | _ => x :: l
      end
  end.

Definition sort_by {A : Type} (cmp : A -> A -> comparison) (l : list A) : list A :=
  foldr (insert_by cmp) [] l.

End Js.

Export Js.

(** ** types/index.ts *)

Module Types.

(** One parsed line of the export. *)
Record CSVRow (T : Type) : Type := mkCSVRow {
  analytics_date : string;
  keyword : string;
  page_url : string;
  row_clicks : T;
  row_impressions : T;
  row_ctr : T;
  row_position : T;
  analytics_type : string;
  device : string
}.
Arguments mkCSVRow {T}.
Arguments analytics_date {T}.
Arguments keyword {T}.
Arguments page_url {T}.
Arguments row_clicks {T}.
Arguments row_impressions {T}.
Arguments row_ctr {T}.
Arguments row_position {T}.
Arguments analytics_type {T}.
Arguments device {T}.

(** The per-day record that is cached and summarised. *)
Record DailyAggregate (T : Type) : Type := mkDailyAggregate {
  date : string;
  clicks : T;
  impressions : T;
  ctr : T;
  position : T
}.
Arguments mkDailyAggregate {T}.
Arguments date {T}.
Arguments clicks {T}.
Arguments impressions {T}.
Arguments ctr {T}.
Arguments position {T}.

(** An [AsyncIterable<CSVRow>] run to its end: the rows it yielded, and
    the error it ended with if it threw. *)
Record RowStream (T : Type) : Type := mkRowStream {
  yielded : list (CSVRow T);
  failure : option string
}.
Arguments mkRowStream {T}.
Arguments yielded {T}.
Arguments failure {T}.

End Types.

Export Types.

(** ** lib/csv-parser.ts *)

Module CsvParser.

(** A record as [csv-parse] hands it over with [columns: true]: one
    string per named column, absent when the line was too short. *)
Record ParsedRecord : Type := mkParsedRecord {
  rec_analytics_date : option string;
  rec_keyword : option string;
  rec_page_url : option string;
  rec_clicks : option string;
  rec_impressions : option string;
  rec_ctr : option string;
  rec_position : option string;
  rec_analytics_type : option string;
  rec_device : option string
}.

(** An error that is thrown inside the [try] block of the generator,
    with its [code] and [message]. *)
Record IoError : Type := mkIoError {
  code : string;
  message : string
}.

(** What iterating the parser delivers: records, and then either its
    end or an error with which the iteration is rejected.  An error of
    the file stream is not such an error: [pipe] does not forward it to
    the parser, and the listener registered on the file stream throws
    inside the emitter, outside the generator, which is then never
    resumed.  A run in which the file cannot be read is therefore not a
    [ParserRun]; [io_error] is an error of the parser itself. *)
Record ParserRun : Type := mkParserRun {
  records : list ParsedRecord;
  io_error : option IoError
}.

(** The variables of the loop, and what has been yielded so far. *)
Record LoopState (T : Type) : Type := mkLoopState {
  rowCount : nat;
  errorCount : nat;
  output : list (CSVRow T)
}.
Arguments mkLoopState {T}.
Arguments rowCount {T}.
Arguments errorCount {T}.
Arguments output {T}.

Definition maxErrors : nat := 100.

Section WithNumber.
Context {T : Type} `{Number T}.

(** [parseFloat] is the host's; it is a parameter of the parser. *)
Variable parseFloat : string -> T.

Definition parseNumericField (value : option string) : T :=
  match value with
  | None => num_zero
  | Some v =>
      if (String.eqb v "" || String.eqb (trim v) "")%bool then num_zero
      else
        let parsed := parseFloat v in
        if isNaN parsed then num_zero else parsed
  end.

(** [field || ''] *)
Definition or_empty (field : option string) : string :=
  match field with
  | Some v => v
  | None => ""
  end.

(** [!record.analytics_date || record.analytics_date.trim() === ''] *)
Definition missing_date (field : option string) : bool :=
  match field with
  | None => true
  | Some d => (String.eqb d "" || String.eqb (trim d) "")%bool
  end.

(** One round of the [for await] loop: the next state, or the error that
    leaves the loop.  The "too many invalid rows" error is thrown inside
    the inner [try], so the inner [catch] counts it as one more error
    and throws the error that reaches the caller. *)
Definition process_record (st : LoopState T) (record : ParsedRecord)
  : result (LoopState T) :=
  let rowCount := S (rowCount st) in
  if bool_decide (rec_analytics_date record = Some "analytics_date")
  then Ok (mkLoopState rowCount (errorCount st) (output st))
  else if missing_date (rec_analytics_date record) then
    let errorCount := S (errorCount st) in
    if (maxErrors <? errorCount)%nat then
      let errorCount := S errorCount in
      if (maxErrors <? errorCount)%nat
      then Throw ("Too many parsing errors (" +:+ pretty errorCount
                  +:+ "). CSV file may be corrupted.")
      else Ok (mkLoopState rowCount errorCount (output st))
    else Ok (mkLoopState rowCount errorCount (output st))
  else
    let row :=
      mkCSVRow (or_empty (rec_analytics_date record))
        (or_empty (rec_keyword record))
        (or_empty (rec_page_url record))
        (parseNumericField (rec_clicks record))
        (parseNumericField (rec_impressions record))
        (parseNumericField (rec_ctr record))
        (parseNumericField (rec_position record))
        (or_empty (rec_analytics_type record))
        (or_empty (rec_device record)) in
    Ok (mkLoopState rowCount (errorCount st) (output st ++ [row])).

(** The loop over the records: the state it ends in, and the error that
    ended it early, if any. *)
Fixpoint process_records (st : LoopState T) (rs : list ParsedRecord)
  : LoopState T * option string :=
  match rs with
  | [] => (st, None)
  | record :: rs' =>
      match process_record st record with
      | Ok st' => process_records st' rs'
      | Throw msg => (st, Some msg)
      end
  end.

(** The outer [catch]: an error is reported by its [code]. *)
Definition classify (filePath : string) (e : IoError) : string :=
  if String.eqb (code e) "ENOENT" then "CSV file not found at path: " +:+ filePath
  else if String.eqb (code e) "EACCES" then "Permission denied reading CSV file: " +:+ filePath
  else message e.

(** The generator run to its end on what the parser delivers. *)
Definition streamParseCSV (filePath : string) (run : ParserRun) : RowStream T :=
  let '(st, thrown) := process_records (mkLoopState 0 0 []) (records run) in
  match thrown with
  | Some msg => mkRowStream (output st) (Some msg)
  | None =>
      match io_error run with
      | Some e => mkRowStream (output st) (Some (classify filePath e))
      | None =>
          if (rowCount st =? 0)%nat
          then mkRowStream (output st)
                 (Some "CSV file is empty or contains no valid data rows")
          else mkRowStream (output st) None
      end
  end.

End WithNumber.

End CsvParser.

(** ** lib/aggregator.ts *)

Module Aggregator.

Section WithNumber.
Context {T : Type} `{Number T}.

(** The value type of [dateMap]. *)
Record DateAccumulator : Type := mkAcc {
  acc_clicks : T;
  acc_impressions : T;
  ctrWeightedSum : T;
  positionWeightedSum : T
}.

(** [dateMap] is a JavaScript [Map]: keys are unique and are iterated in
    the order of their first insertion. *)
Definition DateMap : Type := list (string * DateAccumulator).

Fixpoint map_get (k : string) (m : DateMap) : option DateAccumulator :=
  match m with
  | [] => None
  | (k', v) :: m' => if String.eqb k' k then Some v else map_get k m'
  end.

Fixpoint map_set (k : string) (v : DateAccumulator) (m : DateMap) : DateMap :=
  match m with
  | [] => [(k, v)]
  | (k', v') :: m' =>
      if String.eqb k' k then (k', v) :: m' else (k', v') :: map_set k v m'
  end.

(** [!date || date.trim() === ''] *)
Definition invalid_date (d : string) : bool :=
  (String.eqb d "" || String.eqb (trim d) "")%bool.

(** [isFinite(x) ? x : 0] *)
Definition finite_or_zero (x : T) : T := if isFinite x then x else num_zero.

(** The body of the [for await] loop. *)
Definition accumulate (dateMap : DateMap) (row : CSVRow T) : DateMap :=
  let d := analytics_date row in
  if invalid_date d then dateMap
  else
    let existing :=
      match map_get d dateMap with
      | Some e => e
      | None => mkAcc num_zero num_zero num_zero num_zero
      end in
    let clicks := finite_or_zero (row_clicks row) in
    let impressions := finite_or_zero (row_impressions row) in
    let ctr := finite_or_zero (row_ctr row) in
    let position := finite_or_zero (row_position row) in
    map_set d
      (mkAcc (num_add (acc_clicks existing) clicks)
             (num_add (acc_impressions existing) impressions)
             (num_add (ctrWeightedSum existing) (num_mul ctr impressions))
             (num_add (positionWeightedSum existing) (num_mul position impressions)))
      dateMap.

(** One entry of [dateMap] turned into a [DailyAggregate]. *)
Definition finalize (entry : string * DateAccumulator) : DailyAggregate T :=
  let '(d, data) := entry in
  let impressions := acc_impressions data in
  let ctr :=
    if num_lt num_zero impressions then num_div (ctrWeightedSum data) impressions
    else num_zero in
  let position :=
    if num_lt num_zero impressions then num_div (positionWeightedSum data) impressions
    else num_zero in
  mkDailyAggregate d
    (finite_or_zero (acc_clicks data))
    (finite_or_zero impressions)
    (finite_or_zero ctr)
    (finite_or_zero position).

Definition compare_date (a b : DailyAggregate T) : comparison :=
  localeCompare (date a) (date b).

Definition buildDailyAggregates (rows : RowStream T) : result (list (DailyAggregate T)) :=
  let dateMap := fold_left accumulate (yielded rows) [] in
  match failure rows with
  | Some message => Throw ("Failed to build aggregates: " ++ message)
  | None =>
      match dateMap with
      | [] =>
          Throw "No valid data found in CSV file. The file may be empty or contain only invalid rows."
      | _ => Ok (sort_by compare_date (map finalize dateMap))
      end
  end.

End WithNumber.

Arguments DateAccumulator T : clear implicits.
Arguments DateMap T : clear implicits.

End Aggregator.

Export Aggregator.

(** ** lib/insights-builder.ts *)

Module InsightsBuilder.

Local Open Scope float_scope.

Abbreviation Agg := (DailyAggregate float).

Record Totals : Type := mkTotals {
  total_clicks : float;
  total_impressions : float;
  avgCtr : float;
  avgPosition : float
}.

(** [{ date, clicks }], the shape of [peakDay] and [troughDay]. *)
Record DayClicks : Type := mkDayClicks {
  day : string;
  day_clicks : float
}.

(** [{ date, change }], the shape of [biggestSpike] and [biggestDrop]. *)
Record DayChange : Type := mkDayChange {
  change_date : string;
  change : float
}.

Record Trends : Type := mkTrends {
  clicksChange : float;
  impressionsChange : float;
  peakDay : DayClicks;
  troughDay : DayClicks;
  biggestSpike : DayChange;
  biggestDrop : DayChange
}.

Record Anomaly : Type := mkAnomaly {
  anomaly_date : string;
  anomaly_clicks : float;
  zScore : float
}.

Record InsightsPayload : Type := mkInsightsPayload {
  dateRange : string * string;
  totals : Totals;
  trends : Trends;
  anomalies : list Anomaly;
  series : list Agg
}.

(** [array.reduce((sum, val) => sum + val, 0)] *)
Definition sum_numbers (l : list float) : float := fold_left PrimFloat.add l 0.

Definition calculateTotals (series : list Agg) : Totals :=
  match series with
  | [] => mkTotals 0 0 0 0
  | _ =>
      let totalClicks := sum_numbers (map clicks series) in
      let totalImpressions := sum_numbers (map impressions series) in
      let weightedCtrSum := sum_numbers (map (fun agg => ctr agg * impressions agg) series) in
      let weightedPositionSum :=
        sum_numbers (map (fun agg => position agg * impressions agg) series) in
      mkTotals totalClicks totalImpressions
        (if 0 <? totalImpressions then weightedCtrSum / totalImpressions else 0)
        (if 0 <? totalImpressions then weightedPositionSum / totalImpressions else 0)
  end.

(** The scan for the peak and the trough day: a later day replaces the
    current one only when it is strictly above (below) it. *)
Definition scan_extremes (peak_trough : Agg * Agg) (agg : Agg) : Agg * Agg :=
  let '(peakDay, troughDay) := peak_trough in
  (if clicks peakDay <? clicks agg then agg else peakDay,
   if clicks agg <? clicks troughDay then agg else troughDay).

(** The scan over consecutive days [(prev, curr)]. *)
Definition scan_changes (spike_drop : DayChange * DayChange) (days : Agg * Agg)
  : DayChange * DayChange :=
  let '(biggestSpike, biggestDrop) := spike_drop in
  let '(prev, curr) := days in
  let delta := clicks curr - clicks prev in
  (if change biggestSpike <? delta then mkDayChange (date curr) delta else biggestSpike,
   if delta <? change biggestDrop then mkDayChange (date curr) delta else biggestDrop).

(** Consecutive elements [(l[i-1], l[i])] for [i = 1 .. length - 1]. *)
Definition consecutive {A : Type} (l : list A) : list (A * A) := zip l (tail l).

Definition calculateTrends (series : list Agg) : Trends :=
  match series with
  | [] =>
      mkTrends 0 0 (mkDayClicks "" 0) (mkDayClicks "" 0) (mkDayChange "" 0) (mkDayChange "" 0)
  | _ =>
      let sorted := sort_by compare_date series in
      match sorted with
      | [] =>
          mkTrends 0 0 (mkDayClicks "" 0) (mkDayClicks "" 0) (mkDayChange "" 0) (mkDayChange "" 0)
      | [singleDay] =>
          mkTrends 0 0
            (mkDayClicks (date singleDay) (clicks singleDay))
            (mkDayClicks (date singleDay) (clicks singleDay))
            (mkDayChange "" 0) (mkDayChange "" 0)
      | firstDay :: _ =>
          let lastDay := List.last sorted firstDay in
          let clicksChange :=
            if 0 <? clicks firstDay
            then ((clicks lastDay - clicks firstDay) / clicks firstDay) * 100
            else 0 in
          let impressionsChange :=
            if 0 <? impressions firstDay
            then ((impressions lastDay - impressions firstDay) / impressions firstDay) * 100
            else 0 in
          let '(peakDay, troughDay) := fold_left scan_extremes sorted (firstDay, firstDay) in
          let '(biggestSpike, biggestDrop) :=
            fold_left scan_changes (consecutive sorted) (mkDayChange "" 0, mkDayChange "" 0) in
          mkTrends clicksChange impressionsChange
            (mkDayClicks (date peakDay) (clicks peakDay))
            (mkDayClicks (date troughDay) (clicks troughDay))
            biggestSpike biggestDrop
      end
  end.

(** The mean of the clicks of a series, as [detectAnomalies] computes it. *)
Definition clicks_mean (series : list Agg) : float :=
  let clicks := map clicks series in
  sum_numbers clicks / number_of_nat (length clicks).

(** The population standard deviation, as [detectAnomalies] computes it. *)
Definition clicks_stdDev (series : list Agg) : float :=
  let clicks := map clicks series in
  let mean := clicks_mean series in
  let squaredDiffs := map (fun val => Math_pow2 (val - mean)) clicks in
  let variance := sum_numbers squaredDiffs / number_of_nat (length clicks) in
  PrimFloat.sqrt variance.

(** The body of the loop that collects the anomalies. *)
Definition flag_anomaly (mean stdDev : float) (anomalies : list Anomaly) (agg : Agg)
  : list Anomaly :=
  let zScore := (clicks agg - mean) / stdDev in
  if 2 <? PrimFloat.abs zScore
  then anomalies ++ [mkAnomaly (date agg) (clicks agg) zScore]
  else anomalies.

Definition detectAnomalies (series : list Agg) : list Anomaly :=
  if (length series <? 3)%nat then []
  else
    let mean := clicks_mean series in
    let stdDev := clicks_stdDev series in
    if stdDev =? 0 then []
    else fold_left (flag_anomaly mean stdDev) series [].

(** [Set.prototype.add] on a set of indices kept in insertion order. *)
Definition set_add (i : nat) (sampled : list nat) : list nat :=
  if bool_decide (i ∈ sampled) then sampled else sampled ++ [i].

(** [sorted[i].clicks]; the indices used by the source are in range. *)
Definition clicks_at (sorted : list Agg) (i : nat) : float :=
  match sorted !! i with
  | Some agg => clicks agg
  | None => PrimFloat.nan
  end.

(** The body of the loop that looks for the peak and the trough index. *)
Definition scan_indices (sorted : list Agg) (peak_trough : nat * nat) (i : nat) : nat * nat :=
  let '(peakIdx, troughIdx) := peak_trough in
  (if clicks_at sorted peakIdx <? clicks_at sorted i then i else peakIdx,
   if clicks_at sorted i <? clicks_at sorted troughIdx then i else troughIdx).

(** [Math.ceil(n / maxPoints)] on array lengths; [None] is [Infinity],
    the value for [maxPoints = 0] and [n > 0]. *)
Definition sampling_step (n maxPoints : nat) : option nat :=
  match maxPoints with
  | O => None
  | S _ => Some (Nat.div (n + maxPoints - 1) maxPoints)
  end.

(** [for (let i = 0; i < n; i += step) sampled.add(i)], started at [i].
    Every round with a finite non-zero step moves [i] forward, so [n]
    rounds are enough. *)
Fixpoint sample_loop (rounds : nat) (step : option nat) (n i : nat) (sampled : list nat)
  : list nat :=
  match rounds with
  | O => sampled
  | S rounds' =>
      if (i <? n)%nat then
        match step with
        | Some s => sample_loop rounds' step n (i + s) (set_add i sampled)
        | None => set_add i sampled
        end
      else sampled
  end.

(** The indices kept by [downsampleSeries], before they are mapped back
    to records. *)
Definition finalIndices (sorted : list Agg) (maxPoints : nat) : list nat :=
  let n := length sorted in
  let '(peakIdx, troughIdx) := fold_left (scan_indices sorted) (seq 0 n) (0%nat, 0%nat) in
  let step := sampling_step n maxPoints in
  let sampled := sample_loop n step n 0 [] in
  let sampled := set_add 0 sampled in
  let sampled := set_add (n - 1) sampled in
  let sampled := set_add peakIdx sampled in
  let sampled := set_add troughIdx sampled in
  let indices := sort_by Nat.compare sampled in
  if (maxPoints <? length indices)%nat then take maxPoints indices else indices.

Definition downsampleSeries (series : list Agg) (maxPoints : nat) : list Agg :=
  if (length series <=? maxPoints)%nat then series
  else
    let sorted := sort_by compare_date series in
    omap (fun i => sorted !! i) (finalIndices sorted maxPoints).

Definition buildInsightsPayload (series : list Agg) (startDate endDate : string)
  : InsightsPayload :=
  mkInsightsPayload (startDate, endDate)
    (calculateTotals series)
    (calculateTrends series)
    (detectAnomalies series)
    (downsampleSeries series 60).

End InsightsBuilder.

(** ** lib/security.ts: the rate limiter *)

Module Security.

Local Open Scope float_scope.

Record Bucket : Type := mkBucket {
  tokens : float;
  lastRefill : float
}.

Record RateLimiter : Type := mkRateLimiter {
  buckets : gmap string Bucket;
  maxTokens : float;
  refillRate : float
}.

(** [new RateLimiter(maxTokens, refillPerMinute)] *)
Definition new_RateLimiter (maxTokens refillPerMinute : float) : RateLimiter :=
  mkRateLimiter ∅ maxTokens (refillPerMinute / 60000).

(** The bucket of a caller after the lazy refill at time [now]: a new
    caller starts from a full bucket stamped [now]. *)
Definition refilled (now : float) (identifier : string) (rl : RateLimiter) : float :=
  let bucket :=
    match buckets rl !! identifier with
    | Some bucket => bucket
    | None => mkBucket (maxTokens rl) now
    end in
  let timeSinceRefill := now - lastRefill bucket in
  let tokensToAdd := timeSinceRefill * refillRate rl in
  Math_min (maxTokens rl) (tokens bucket + tokensToAdd).

(** [checkLimit(identifier)], with the value of [Date.now()] passed in.
    The bucket object is updated in place, so the map holds the new
    bucket whether or not the call is admitted. *)
Definition checkLimit (now : float) (identifier : string) (rl : RateLimiter)
  : bool * RateLimiter :=
  let available := refilled now identifier rl in
  if 1 <=? available
  then (true,
        mkRateLimiter (<[identifier := mkBucket (available - 1) now]> (buckets rl))
          (maxTokens rl) (refillRate rl))
  else (false,
        mkRateLimiter (<[identifier := mkBucket available now]> (buckets rl))
          (maxTokens rl) (refillRate rl)).

(** [export const insightsRateLimiter = new RateLimiter(10, 10)] *)
Definition insightsRateLimiter : RateLimiter := new_RateLimiter 10 10.

(** A run of consecutive checks by one caller, all at the same instant:
    the answers in order, and the limiter afterwards. *)
Fixpoint checks (count : nat) (now : float) (identifier : string) (rl : RateLimiter)
  : list bool * RateLimiter :=
  match count with
  | O => ([], rl)
  | S count' =>
      let '(allowed, rl') := checkLimit now identifier rl in
      let '(rest, rl'') := checks count' now identifier rl' in
      (allowed :: rest, rl'')
  end.

End Security.

(** ** lib/cache-lock.ts and lib/data-cache.ts: the rebuild coordinator

    [getCacheOrBuild] is an [async] function: between two [await]s a
    call runs without interruption, and at an [await] any other call
    may run.  A call is therefore a small machine whose states are the
    places where it can be suspended, and the program is the
    interleaving of these machines over the shared lock, the cache file
    and a counter of ingestion passes. *)

Module DataCache.

Section Coordinator.

(** The type of the collection, [DailyAggregate[]]. *)
Context {Data : Type}.

(** What one pass [streamParseCSV] then [buildDailyAggregates] over the
    CSV file produces; the file does not change while calls are running. *)
Variable build : result Data.

(** The error of [writeCache], if it fails. *)
Variable write_error : option string.

(** What [readCache] parses from the file that [writeCache] has written
    for a collection: [JSON.parse (JSON.stringify data)]. *)
Variable reparse : Data -> Data.

(** Where a call of [getCacheOrBuild] can be suspended. *)
Inductive Call : Type :=
| ReadCache                                   (* [await readCache()], not yet read *)
| AfterRead (cached : option Data)            (* the read is done, the call resumes *)
| Acquire                                     (* woken up, [return this.acquire()] *)
| Waiting                                     (* [await this.state.promise] *)
| LockedReadCache                             (* lock held, [await readCache()] *)
| LockedAfterRead (cachedAfterLock : option Data)
| Building                                    (* lock held, [await buildDailyAggregates(rows)] *)
| Writing (aggregates : Data)                 (* lock held, [await writeCache(aggregates)] *)
| Returned (r : result Data).

Record State : Type := mkState {
  calls : list Call;
  locked : bool;              (* [cacheLock.state.locked] *)
  cache : option Data;        (* what [readCache] returns: the parsed cache file *)
  ingestions : nat            (* how many times [streamParseCSV] was started *)
}.

Definition set_call (i : nat) (c : Call) (s : State) : State :=
  mkState (<[i := c]> (calls s)) (locked s) (cache s) (ingestions s).

(** [acquire()]: take the lock if it is free, wait for the promise of
    the holder otherwise. *)
Definition acquire (i : nat) (s : State) : State :=
  if locked s then set_call i Waiting s
  else mkState (<[i := LockedReadCache]> (calls s)) true (cache s) (ingestions s).

(** Resolving the promise of the lock resumes every call waiting on it. *)
Definition wake (c : Call) : Call :=
  match c with
  | Waiting => Acquire
  | _ => c
  end.

(** The [finally] of [withCacheLock]: [release()], and the call returns
    or throws [r]. *)
Definition release (i : nat) (r : result Data) (s : State) : State :=
  mkState (<[i := Returned r]> (wake <$> calls s)) false (cache s) (ingestions s).

(** The [catch] around the rebuild. *)
Definition rebuild_error (msg : string) : result Data :=
  Throw ("Failed to build aggregates from CSV: " +:+ msg).

(** Call [i] runs from where it is suspended to its next [await] or to
    its end; [None] when it cannot run. *)
Definition run_call (i : nat) (s : State) : option State :=
  match calls s !! i with
  | Some ReadCache => Some (set_call i (AfterRead (cache s)) s)
  | Some (AfterRead (Some cached)) => Some (set_call i (Returned (Ok cached)) s)
  | Some (AfterRead None) => Some (acquire i s)
  | Some Acquire => Some (acquire i s)
  | Some Waiting => None
  | Some LockedReadCache => Some (set_call i (LockedAfterRead (cache s)) s)
  | Some (LockedAfterRead (Some cachedAfterLock)) => Some (release i (Ok cachedAfterLock) s)
  | Some (LockedAfterRead None) =>
      Some (mkState (<[i := Building]> (calls s)) (locked s) (cache s) (S (ingestions s)))
  | Some Building =>
      match build with
      | Ok aggregates => Some (set_call i (Writing aggregates) s)
      | Throw msg => Some (release i (rebuild_error msg) s)
      end
  | Some (Writing aggregates) =>
      match write_error with
      | None =>
          Some (release i (Ok aggregates)
                  (mkState (calls s) (locked s) (Some (reparse aggregates)) (ingestions s)))
      | Some msg => Some (release i (rebuild_error ("Failed to write cache: " +:+ msg)) s)
      end
  | Some (Returned _) => None
  | None => None
  end.

(** One step of the program: some call runs. *)
Definition step (s s' : State) : Prop := exists i, run_call i s = Some s'.

(** [n] calls have just been made; there is no snapshot. *)
Definition initial (n : nat) : State := mkState (replicate n ReadCache) false None 0.

Definition returned (c : Call) : bool :=
  match c with
  | Returned _ => true
  | _ => false
  end.

(** Every call has returned. *)
Definition finished (s : State) : bool := forallb returned (calls s).

(** Runs the calls in the order given by a schedule, skipping the
    entries that name a call that cannot run. *)
Fixpoint run_schedule (schedule : list nat) (s : State) : State :=
  match schedule with
  | [] => s
  | i :: schedule' =>
      match run_call i s with
      | Some s' => run_schedule schedule' s'
      | None => run_schedule schedule' s
      end
  end.

End Coordinator.

Arguments Call Data : clear implicits.
Arguments State Data : clear implicits.

End DataCache.

(** ** lib/data-cache.ts: what a snapshot holds after it is read back

    [writeCache] writes [JSON.stringify(data, null, 2)] and [readCache]
    returns [JSON.parse] of the file.  A field of a record read from
    the file is a number or [null]. *)

Module SnapshotStore.

(** A collection as a caller of [getCacheOrBuild] receives it: [None]
    is [null]. *)
Definition Snapshot : Type := list (DailyAggregate (option float)).

(** The collection that [buildDailyAggregates] returns, every field
    of which is a number. *)
Definition in_memory (aggregates : list (DailyAggregate float)) : Snapshot :=
  map (fun a => mkDailyAggregate (date a) (Some (clicks a)) (Some (impressions a))
                  (Some (ctr a)) (Some (position a))) aggregates.

(** A number written by [JSON.stringify] and read by [JSON.parse]:
    NaN and the infinities are written as [null] and negative zero is
    written as [0]; every other number is written with digits that
    read back as the same number. *)
Definition reparse_number (x : option float) : option float :=
  match x with
  | Some v =>
      if PrimFloat.is_finite v
      then Some (if PrimFloat.eqb v 0%float then 0%float else v)
      else None
  | None => None
  end.

Definition reparse (data : Snapshot) : Snapshot :=
  map (fun a => mkDailyAggregate (date a) (reparse_number (clicks a))
                  (reparse_number (impressions a)) (reparse_number (ctr a))
                  (reparse_number (position a))) data.

End SnapshotStore.

(** ** lib/aggregator.ts: [calculateWeightedMetrics] *)

Module WeightedMetrics.
Local Open Scope float_scope.

Record Metrics : Type := mkMetrics {
  metrics_ctr : float;
  metrics_position : float
}.

(** The running sums of the loop. *)
Record Sums : Type := mkSums {
  totalImpressions : float;
  ctrWeightedSum : float;
  positionWeightedSum : float
}.

Definition add_to_sums (sums : Sums) (row : CSVRow float) : Sums :=
  mkSums (totalImpressions sums + row_impressions row)
         (ctrWeightedSum sums + row_ctr row * row_impressions row)
         (positionWeightedSum sums + row_position row * row_impressions row).

Definition calculateWeightedMetrics (rows : list (CSVRow float)) : Metrics :=
  let sums := fold_left add_to_sums rows (mkSums 0 0 0) in
  if totalImpressions sums =? 0 then mkMetrics 0 0
  else mkMetrics (ctrWeightedSum sums / totalImpressions sums)
                 (positionWeightedSum sums / totalImpressions sums).

End WeightedMetrics.

(** ** app/api/data/route.ts and app/api/insights/route.ts:
    [filterByDateRange], the same function in both files *)

Module Routes.

(** [agg.date >= start && agg.date <= end]: strings are compared code
    unit by code unit. *)
Definition in_range (start end_ : string) (agg : DailyAggregate float) : bool :=
  (String.leb start (date agg) && String.leb (date agg) end_)%bool.

Definition filterByDateRange (aggregates : list (DailyAggregate float)) (start end_ : string)
  : list (DailyAggregate float) :=
  List.filter (in_range start end_) aggregates.

End Routes.

(** ** lib/security.ts: the sanitizers and the validator of responses

    Strings are sequences of code units below 256, as everywhere in
    this development.  An object read by [JSON.parse] is the list of
    its properties, in which the first binding of a name is the one in
    force. *)

Module Sanitizers.
Local Open Scope string_scope.

(** A character matched by [/[\x00-\x1F\x7F-\x9F]/]. *)
Definition is_control (c : ascii) : bool :=
  let n := nat_of_ascii c in
  ((n <=? 31) || ((127 <=? n) && (n <=? 159)))%nat.

(** [s.replace(/[\x00-\x1F\x7F-\x9F]/g, '')] *)
Fixpoint remove_control (s : string) : string :=
  match s with
  | EmptyString => EmptyString
  | String c s' => if is_control c then remove_control s' else String c (remove_control s')
  end.

(** [s.substring(0, n)] *)
Definition substring_to (n : nat) (s : string) : string := String.substring 0 n s.

Definition sanitizeKeyword (keyword : string) : string :=
  let cleaned := trim (remove_control keyword) in
  if (100 <? String.length cleaned)%nat
  then substring_to 100 cleaned ++ "... [truncated]"
  else cleaned.

Definition sanitizeStringField (value : string) (maxLength : nat) : string :=
  if String.eqb value "" then ""
  else substring_to maxLength (trim (remove_control value)).

(** A value read by [JSON.parse]. *)
#[local] Unset Elimination Schemes.
Inductive Json : Type :=
| JNull
| JBoolean (b : bool)
| JNumber (x : float)
| JString (s : string)
| JArray (items : list Json)
| JObject (fields : list (string * Json)).
#[local] Set Elimination Schemes.

(** [obj.name] on an object read by [JSON.parse]; [None] is [undefined]. *)
Fixpoint get_field (name : string) (fields : list (string * Json)) : option Json :=
  match fields with
  | [] => None
  | (k, v) :: fields' => if String.eqb k name then Some v else get_field name fields'
  end.

(** [value.name] on any value: only objects have named fields. *)
Definition field (name : string) (value : Json) : option Json :=
  match value with
  | JObject fields => get_field name fields
  | _ => None
  end.

(** [typeof x !== 'string' || x.length > limit] *)
Definition not_short_string (limit : nat) (x : option Json) : bool :=
  match x with
  | Some (JString s) => (limit <? String.length s)%nat
  | _ => true
  end.

(** A loop that returns [message] at the first item that fails. *)
Definition reject_if_any (bad : Json -> bool) (message : string) (items : list Json)
  : option string :=
  if existsb bad items then Some message else None.

(** The loop over the anomalies: the first check that fails on the
    first anomaly that fails one. *)
Fixpoint check_anomalies (anomalies : list Json) : option string :=
  match anomalies with
  | [] => None
  | anomaly :: rest =>
      match anomaly with
      | JObject _ | JArray _ =>
          if not_short_string 20 (field "date" anomaly) then Some "Invalid anomaly date"
          else if not_short_string 50 (field "metric" anomaly) then Some "Invalid anomaly metric"
          else if not_short_string 200 (field "change" anomaly) then Some "Invalid anomaly change"
          else if not_short_string 500 (field "explanation" anomaly)
               then Some "Invalid anomaly explanation"
          else check_anomalies rest
      | _ => Some "Invalid anomaly format"
      end
  end.

Definition validateClaudeResponse (response : Json) : option string :=
  match response with
  | JObject _ | JArray _ =>
      match field "insights" response with
      | Some (JArray insights) =>
          match field "anomalies" response with
          | Some (JArray anomalies) =>
              match field "opportunities" response with
              | Some (JArray opportunities) =>
                  match field "questions" response with
                  | Some (JArray questions) =>
                      if (20 <? length insights)%nat then Some "Too many insights (max 20)"
                      else if (50 <? length anomalies)%nat then Some "Too many anomalies (max 50)"
                      else if (20 <? length opportunities)%nat
                           then Some "Too many opportunities (max 20)"
                      else if (20 <? length questions)%nat then Some "Too many questions (max 20)"
                      else
                        match reject_if_any (fun x => not_short_string 500 (Some x))
                                "Invalid insight format or length" insights with
                        | Some e => Some e
                        | None =>
                            match reject_if_any (fun x => not_short_string 500 (Some x))
                                    "Invalid opportunity format or length" opportunities with
                            | Some e => Some e
                            | None =>
                                match reject_if_any (fun x => not_short_string 500 (Some x))
                                        "Invalid question format or length" questions with
                                | Some e => Some e
                                | None => check_anomalies anomalies
                                end
                            end
                        end
                  | _ => Some "Missing or invalid questions array"
                  end
              | _ => Some "Missing or invalid opportunities array"
              end
          | _ => Some "Missing or invalid anomalies array"
          end
      | _ => Some "Missing or invalid insights array"
      end
  | _ => Some "Response is not an object"
  end.

End Sanitizers.

Local Close Scope string_scope.

(** * Properties

    ** Facts about binary64 numbers

    The order of the primitive floats is read through its specification
    on [spec_float]. *)

Module FloatFacts.
Local Open Scope float_scope.

Lemma SFcompare_refl_not_Lt x : SFcompare x x <> Some Lt.
Proof.
  destruct x as [[]|[]| |[] m e]; simpl; try discriminate.
  - rewrite Z.compare_refl, Pos.compare_cont_refl. discriminate.
  - rewrite Z.compare_refl, Pos.compare_cont_refl. discriminate.
Qed.

Lemma ltb_irrefl (x : float) : (x <? x) = false.
Proof.
  rewrite ltb_spec. unfold SFltb.
  pose proof (SFcompare_refl_not_Lt (Prim2SF x)).
  destruct (SFcompare (Prim2SF x) (Prim2SF x)) as [[]|]; congruence.
Qed.

Ltac compare_cases :=
  repeat match goal with
  | H : context [Z.compare ?a ?b] |- _ => destruct (Z.compare_spec a b)
  | |- context [Z.compare ?a ?b] => destruct (Z.compare_spec a b)
  | H : context [Pos.compare ?a ?b] |- _ => destruct (Pos.compare_spec a b)
  | |- context [Pos.compare ?a ?b] => destruct (Pos.compare_spec a b)
  end.

Lemma SFcompare_Lt_trans x y z :
  SFcompare x y = Some Lt -> SFcompare y z = Some Lt -> SFcompare x z = Some Lt.
Proof.
  destruct x as [[]|[]| |[] mx ex], y as [[]|[]| |[] my ey], z as [[]|[]| |[] mz ez];
    simpl; try discriminate; try reflexivity; intros Hxy Hyz;
    injection Hxy as Hxy; injection Hyz as Hyz; f_equal;
    rewrite ?Pos.compare_cont_spec in *; simpl in *;
    compare_cases; simpl in *; try discriminate; try reflexivity; lia.
Qed.

Lemma ltb_trans (x y z : float) : (x <? y) = true -> (y <? z) = true -> (x <? z) = true.
Proof.
  rewrite !ltb_spec. unfold SFltb. intros Hxy Hyz.
  rewrite (SFcompare_Lt_trans (Prim2SF x) (Prim2SF y) (Prim2SF z)); [reflexivity| |].
  - destruct (SFcompare (Prim2SF x) (Prim2SF y)) as [[]|]; congruence.
  - destruct (SFcompare (Prim2SF y) (Prim2SF z)) as [[]|]; congruence.
Qed.

Lemma ltb_asym (x y : float) : (x <? y) = true -> (y <? x) = false.
Proof.
  intros Hxy. destruct (y <? x) eqn:Hyx; [|reflexivity].
  rewrite <- (ltb_irrefl x). symmetry. eapply ltb_trans; eassumption.
Qed.

Lemma finite_cases (x : float) :
  is_finite x = true ->
  (exists s, Prim2SF x = S754_zero s) \/ (exists s m e, Prim2SF x = S754_finite s m e).
Proof.
  unfold is_finite, is_nan, is_infinity.
  rewrite !FloatAxioms.eqb_spec, abs_spec.
  destruct (Prim2SF x) as [s|s| |s m e]; eauto.
  - destruct s; vm_compute; discriminate.
  - vm_compute; discriminate.
Qed.

Lemma sub_diag (x : float) : is_finite x = true -> x - x = 0.
Proof.
  intros Hfin. apply Prim2SF_inj. rewrite sub_spec.
  destruct (finite_cases x Hfin) as [[s ->]|(s & m & e & ->)].
  - destruct s; reflexivity.
  - unfold SF64sub, SFsub. rewrite Z.sub_diag. reflexivity.
Qed.

Lemma ltb_nan_r (x : float) : (x <? nan) = false.
Proof. rewrite ltb_spec. unfold SFltb. destruct (Prim2SF x) as [[]|[]| |[] m e]; reflexivity. Qed.

End FloatFacts.

(** ** Whole numbers in binary64

    Counts and millisecond clocks are whole numbers.  Up to
    [Number.MAX_SAFE_INTEGER] they are binary64 numbers, and adding
    and subtracting them is exact as long as the result stays in that
    range. *)

Module WholeNumbers.
Local Open Scope Z_scope.

Lemma digits_bounds (p : positive) :
  2 ^ (Zpos (digits2_pos p) - 1) <= Zpos p < 2 ^ Zpos (digits2_pos p).
Proof.
  induction p as [p IH|p IH|]; cbn [digits2_pos].
  - rewrite Pos2Z.inj_succ, (Pos2Z.inj_xI p).
    replace (Z.succ (Zpos (digits2_pos p)) - 1) with (Z.succ (Zpos (digits2_pos p) - 1)) by lia.
    rewrite !Z.pow_succ_r by lia.
    generalize dependent (2 ^ (Zpos (digits2_pos p) - 1)).
    generalize dependent (2 ^ Zpos (digits2_pos p)). lia.
  - rewrite Pos2Z.inj_succ, (Pos2Z.inj_xO p).
    replace (Z.succ (Zpos (digits2_pos p)) - 1) with (Z.succ (Zpos (digits2_pos p) - 1)) by lia.
    rewrite !Z.pow_succ_r by lia.
    generalize dependent (2 ^ (Zpos (digits2_pos p) - 1)).
    generalize dependent (2 ^ Zpos (digits2_pos p)). lia.
  - simpl. lia.
Qed.

Lemma digits_unique (x : positive) (d : Z) :
  2 ^ (d - 1) <= Zpos x < 2 ^ d -> Zpos (digits2_pos x) = d.
Proof.
  intros [Hlow Hhigh]. pose proof (digits_bounds x) as [Hl Hh].
  destruct (Z.lt_trichotomy (Zpos (digits2_pos x)) d) as [Hlt|[Heq|Hgt]]; [|done|].
  - assert (2 ^ Zpos (digits2_pos x) <= 2 ^ (d - 1)) by (apply Z.pow_le_mono_r; lia). lia.
  - assert (0 <= d \/ d < 0) as [Hd|Hd] by lia.
    + assert (2 ^ d <= 2 ^ (Zpos (digits2_pos x) - 1)) by (apply Z.pow_le_mono_r; lia). lia.
    + rewrite (Z.pow_neg_r 2 d) in Hhigh by lia. lia.
Qed.

Lemma digits_shift (M v : positive) (k : Z) :
  0 <= k -> Zpos M = Zpos v * 2 ^ k ->
  Zpos (digits2_pos M) = Zpos (digits2_pos v) + k.
Proof.
  intros Hk HM. apply digits_unique. rewrite HM.
  pose proof (digits_bounds v) as [Hl Hh].
  replace (Zpos (digits2_pos v) + k - 1) with ((Zpos (digits2_pos v) - 1) + k) by lia.
  rewrite !Z.pow_add_r by lia.
  assert (0 < 2 ^ k) by (apply Z.pow_pos_nonneg; lia). nia.
Qed.

Lemma iter_xO (M : positive) (d : positive) :
  Zpos (Pos.iter xO M d) = Zpos M * 2 ^ Zpos d.
Proof.
  induction d as [|d IH] using Pos.peano_ind.
  - simpl. lia.
  - rewrite Pos.iter_succ, (Pos2Z.inj_xO (Pos.iter xO M d)), IH, Pos2Z.inj_succ, Z.pow_succ_r by lia. lia.
Qed.

Lemma shl_align_spec (M : positive) (e e' : Z) :
  snd (shl_align M e e') = Z.min e e' /\
  Zpos (fst (shl_align M e e')) = Zpos M * 2 ^ (e - Z.min e e').
Proof.
  unfold shl_align. destruct (e' - e) as [|d|d] eqn:Hd; simpl.
  - replace (Z.min e e') with e by lia. rewrite Z.sub_diag. simpl. lia.
  - replace (Z.min e e') with e by lia. rewrite Z.sub_diag. simpl. lia.
  - replace (Z.min e e') with e' by lia. split; [done|].
    rewrite iter_xO. f_equal. f_equal. lia.
Qed.

(** A mantissa with nothing shifted out of it. *)
Definition unrounded (m : Z) : shr_record := Build_shr_record m false false.

Lemma iter_shr_1 (p : positive) (M N : positive) :
  Zpos M = Zpos N * 2 ^ Zpos p ->
  SpecFloat.iter_pos shr_1 p (unrounded (Zpos M)) = unrounded (Zpos N).
Proof.
  revert M N. induction p as [p IH|p IH|]; intros M N HM; cbn [SpecFloat.iter_pos].
  - rewrite (Pos2Z.inj_xI p) in HM.
    replace (2 * Zpos p + 1) with (Zpos p + Zpos p + 1) in HM by lia.
    rewrite !Z.pow_add_r in HM by lia. change (2 ^ 1) with 2 in HM.
    destruct M as [M|M|]; try lia.
    change (shr_1 (unrounded (Zpos M~0))) with (unrounded (Zpos M)).
    rewrite (IH M (Z.to_pos (Zpos N * 2 ^ Zpos p))), (IH _ N); [done| |].
    + rewrite Z2Pos.id; [done|]. assert (0 < 2 ^ Zpos p) by (apply Z.pow_pos_nonneg; lia). nia.
    + rewrite Z2Pos.id; [lia|]. assert (0 < 2 ^ Zpos p) by (apply Z.pow_pos_nonneg; lia). nia.
  - rewrite (Pos2Z.inj_xO p) in HM.
    replace (2 * Zpos p) with (Zpos p + Zpos p) in HM by lia.
    rewrite !Z.pow_add_r in HM by lia.
    rewrite (IH M (Z.to_pos (Zpos N * 2 ^ Zpos p))), (IH _ N); [done| |].
    + rewrite Z2Pos.id; [done|]. assert (0 < 2 ^ Zpos p) by (apply Z.pow_pos_nonneg; lia). nia.
    + rewrite Z2Pos.id; [lia|]. assert (0 < 2 ^ Zpos p) by (apply Z.pow_pos_nonneg; lia). nia.
  - change (2 ^ 1) with 2 in HM. destruct M as [M|M|]; try lia.
    assert (M = N) as -> by lia. reflexivity.
Qed.

(** The binary64 number that holds the whole number [v] of at most 53
    binary digits. *)
Definition whole (s : bool) (v : positive) : spec_float :=
  let d := Zpos (digits2_pos v) in
  S754_finite s (Z.to_pos (Zpos v * 2 ^ (prec - d))) (d - prec).

Lemma fexp_digits (d : Z) : 0 < d -> fexp prec emax d = d - prec.
Proof. intros Hd. unfold fexp, emin, prec, emax. lia. Qed.

Lemma binary_round_whole (s : bool) (M v : positive) (k : Z) :
  0 <= k -> Zpos M = Zpos v * 2 ^ k -> Zpos (digits2_pos v) <= prec ->
  binary_round prec emax s M (- k) = whole s v.
Proof.
  intros Hk HM Hd. set (d := Zpos (digits2_pos v)) in *.
  assert (Hd0 : 0 < d) by (unfold d; lia).
  assert (HdM : Zpos (digits2_pos M) = d + k) by (by apply digits_shift).
  unfold binary_round. rewrite HdM.
  replace (d + k + - k) with d by lia. rewrite (fexp_digits d Hd0).
  destruct (shl_align_spec M (- k) (d - prec)) as [He2 HM2].
  destruct (shl_align M (- k) (d - prec)) as [M2 e2]. simpl in He2, HM2. subst e2.
  set (e2 := Z.min (- k) (d - prec)) in *.
  assert (HM2v : Zpos M2 = Zpos v * 2 ^ (- e2)).
  { rewrite HM2, HM, <- Z.mul_assoc, <- Z.pow_add_r by lia. f_equal. f_equal. lia. }
  set (R := Z.to_pos (Zpos v * 2 ^ (prec - d))).
  assert (HR : Zpos R = Zpos v * 2 ^ (prec - d)).
  { unfold R. rewrite Z2Pos.id; [done|].
    assert (0 < 2 ^ (prec - d)) by (apply Z.pow_pos_nonneg; lia). nia. }
  assert (HdM2 : Zpos (digits2_pos M2) = d + - e2) by (apply digits_shift; [lia|done]).
  assert (HdR : Zpos (digits2_pos R) = d + (prec - d)) by (apply digits_shift; [lia|done]).
  unfold binary_round_aux, shr_fexp. cbn [Zdigits2 shr_record_of_loc].
  rewrite HdM2. replace (d + - e2 + e2) with d by lia. rewrite (fexp_digits d Hd0).
  assert (Hfirst : shr (unrounded (Zpos M2)) e2 (d - prec - e2) = (unrounded (Zpos R), d - prec)).
  { unfold shr. destruct (d - prec - e2) as [|p|p] eqn:Hp; [| |lia].
    - f_equal; [|lia]. f_equal. rewrite HM2v, HR. f_equal. f_equal. lia.
    - f_equal; [|lia]. apply iter_shr_1. rewrite HM2v, HR, <- Z.mul_assoc, <- Z.pow_add_r by lia.
      f_equal. f_equal. lia. }
  change {| shr_m := Zpos M2; shr_r := false; shr_s := false |} with (unrounded (Zpos M2)).
  rewrite Hfirst. cbn [unrounded shr_m loc_of_shr_record round_nearest_even Zdigits2 shr_record_of_loc].
  rewrite HdR. replace (d + (prec - d) + (d - prec)) with d by lia.
  rewrite (fexp_digits d Hd0), Z.sub_diag. cbn [shr shr_m].
  destruct (Z.leb_spec (d - prec) (emax - prec)) as [_|Hbig]; [done|].
  unfold prec, emax in *. lia.
Qed.


(** [Number.MAX_SAFE_INTEGER] *)
Definition max_safe : Z := 2 ^ 53 - 1.

(** The whole number [n] as a binary64 number. *)
Definition of_count (n : Z) : float := PrimFloat.of_uint63 (Uint63.of_Z n).

Definition sf_of_Z (n : Z) : spec_float := binary_normalize prec emax n 0 false.

Lemma Prim2SF_of_count (n : Z) : 0 <= n <= max_safe -> Prim2SF (of_count n) = sf_of_Z n.
Proof.
  intros Hn. unfold of_count, sf_of_Z. rewrite of_uint63_spec, Uint63.of_Z_spec.
  rewrite Z.mod_small; [done|]. unfold max_safe in Hn. change Uint63.wB with (2 ^ 63). lia.
Qed.

Lemma safe_digits (v : positive) : Zpos v <= max_safe -> Zpos (digits2_pos v) <= prec.
Proof.
  intros Hv. pose proof (digits_bounds v) as [Hl _].
  destruct (Z.le_gt_cases (Zpos (digits2_pos v)) prec) as [|Hbig]; [done|].
  assert (2 ^ prec <= 2 ^ (Zpos (digits2_pos v) - 1)) by (apply Z.pow_le_mono_r; lia).
  unfold max_safe, prec in *. lia.
Qed.

Lemma sf_of_Z_pos (v : positive) : Zpos v <= max_safe -> sf_of_Z (Zpos v) = whole false v.
Proof.
  intros Hv. unfold sf_of_Z, binary_normalize.
  apply (binary_round_whole false v v 0); [lia|lia|by apply safe_digits].
Qed.

(** The two mantissas that [SFadd] and [SFsub] combine. *)
Lemma aligned (va vb : positive) :
  Zpos va <= max_safe -> Zpos vb <= max_safe ->
  let da := Zpos (digits2_pos va) in
  let db := Zpos (digits2_pos vb) in
  let Ra := Z.to_pos (Zpos va * 2 ^ (prec - da)) in
  let Rb := Z.to_pos (Zpos vb * 2 ^ (prec - db)) in
  let ez := Z.min (da - prec) (db - prec) in
  ez <= 0 /\
  Zpos (fst (shl_align Ra (da - prec) ez)) = Zpos va * 2 ^ (- ez) /\
  Zpos (fst (shl_align Rb (db - prec) ez)) = Zpos vb * 2 ^ (- ez).
Proof.
  intros Ha Hb da db Ra Rb ez.
  pose proof (safe_digits va Ha). pose proof (safe_digits vb Hb).
  assert (0 < da /\ 0 < db) as [? ?] by (unfold da, db; lia).
  assert (HRa : Zpos Ra = Zpos va * 2 ^ (prec - da)).
  { unfold Ra. rewrite Z2Pos.id; [done|].
    assert (0 < 2 ^ (prec - da)) by (apply Z.pow_pos_nonneg; lia). nia. }
  assert (HRb : Zpos Rb = Zpos vb * 2 ^ (prec - db)).
  { unfold Rb. rewrite Z2Pos.id; [done|].
    assert (0 < 2 ^ (prec - db)) by (apply Z.pow_pos_nonneg; lia). nia. }
  split; [unfold ez; lia|]. split.
  - destruct (shl_align_spec Ra (da - prec) ez) as [_ ->].
    rewrite HRa, <- Z.mul_assoc, <- Z.pow_add_r by (unfold ez; lia).
    f_equal. f_equal. unfold ez. lia.
  - destruct (shl_align_spec Rb (db - prec) ez) as [_ ->].
    rewrite HRb, <- Z.mul_assoc, <- Z.pow_add_r by (unfold ez; lia).
    f_equal. f_equal. unfold ez. lia.
Qed.

Lemma SFadd_whole (a b : Z) :
  0 <= a -> 0 <= b -> a + b <= max_safe ->
  SF64add (sf_of_Z a) (sf_of_Z b) = sf_of_Z (a + b).
Proof.
  intros Ha Hb Hsum. destruct a as [|va|va]; [|clear Ha|lia].
  { destruct b as [|vb|vb]; [done| |lia].
    rewrite Z.add_0_l, sf_of_Z_pos by lia. reflexivity. }
  destruct b as [|vb|vb]; [|clear Hb|lia].
  { rewrite Z.add_0_r. rewrite sf_of_Z_pos by lia. reflexivity. }
  rewrite (sf_of_Z_pos va), (sf_of_Z_pos vb) by lia.
  destruct (aligned va vb) as (Hez & HA & HB); [lia|lia|].
  unfold whole, SF64add, SFadd. cbn [cond_Zopp]. cbv zeta in HA, HB. rewrite HA, HB.
  set (ez := Z.min _ _) in *.
  assert (Hpow : 0 < 2 ^ (- ez)) by (apply Z.pow_pos_nonneg; lia).
  destruct (Zpos va * 2 ^ (- ez) + Zpos vb * 2 ^ (- ez)) as [|M|M] eqn:HM; [lia| |lia].
  change (Zpos va + Zpos vb) with (Zpos (va + vb)).
  rewrite sf_of_Z_pos by (rewrite Pos2Z.inj_add; lia).
  unfold binary_normalize. replace ez with (- - ez) at 1 by lia.
  apply binary_round_whole; [lia| |apply safe_digits; rewrite Pos2Z.inj_add; lia].
  rewrite Pos2Z.inj_add. lia.
Qed.

Lemma SFsub_whole (a b : Z) :
  0 <= b -> b <= a -> a <= max_safe ->
  SF64sub (sf_of_Z a) (sf_of_Z b) = sf_of_Z (a - b).
Proof.
  intros Hb Hba Ha. destruct b as [|vb|vb]; [|clear Hb|lia].
  { rewrite Z.sub_0_r. destruct a as [|va|va]; [done| |lia].
    rewrite sf_of_Z_pos by lia. reflexivity. }
  destruct a as [|va|va]; [lia| |lia].
  rewrite (sf_of_Z_pos va), (sf_of_Z_pos vb) by lia.
  destruct (aligned va vb) as (Hez & HA & HB); [lia|lia|].
  unfold whole, SF64sub, SFsub. cbn [cond_Zopp]. cbv zeta in HA, HB. rewrite HA, HB.
  set (ez := Z.min _ _) in *.
  assert (Hpow : 0 < 2 ^ (- ez)) by (apply Z.pow_pos_nonneg; lia).
  destruct (Zpos va - Zpos vb) as [|v|v] eqn:Hv; [| |lia].
  - replace (Zpos va * 2 ^ (- ez) - Zpos vb * 2 ^ (- ez)) with 0 by nia. reflexivity.
  - destruct (Zpos va * 2 ^ (- ez) - Zpos vb * 2 ^ (- ez)) as [|M|M] eqn:HM; [nia| |nia].
    rewrite sf_of_Z_pos by lia. unfold binary_normalize.
    replace ez with (- - ez) at 1 by lia.
    apply binary_round_whole; [lia|nia|apply safe_digits; lia].
Qed.

Lemma of_count_add (a b : Z) :
  0 <= a -> 0 <= b -> a + b <= max_safe ->
  (of_count a + of_count b)%float = of_count (a + b).
Proof.
  intros Ha Hb Hsum. apply Prim2SF_inj.
  rewrite add_spec, !Prim2SF_of_count by lia. by apply SFadd_whole.
Qed.

Lemma of_count_sub (a b : Z) :
  0 <= b -> b <= a -> a <= max_safe ->
  (of_count a - of_count b)%float = of_count (a - b).
Proof.
  intros Hb Hba Ha. apply Prim2SF_inj.
  rewrite sub_spec, !Prim2SF_of_count by lia. by apply SFsub_whole.
Qed.

Lemma of_count_finite (n : Z) : 0 <= n <= max_safe -> PrimFloat.is_finite (of_count n) = true.
Proof.
  intros Hn. unfold PrimFloat.is_finite, PrimFloat.is_nan, PrimFloat.is_infinity.
  rewrite !FloatAxioms.eqb_spec, abs_spec, Prim2SF_of_count by done.
  destruct n as [|v|v]; [done| |lia].
  rewrite sf_of_Z_pos by lia. unfold whole. cbn [SFabs].
  change (Prim2SF infinity) with (S754_infinity false).
  unfold SFeqb, SFcompare. rewrite Z.compare_refl, Pos.compare_cont_refl. reflexivity.
Qed.

End WholeNumbers.


(** ** Facts about sorting *)

Module SortFacts.

Section Insertion.
Context {A : Type} (cmp : A -> A -> comparison).

(** [x] is not above [y]. *)
Definition not_above (x y : A) : Prop := cmp x y <> Gt.

Lemma insert_by_Permutation (x : A) (l : list A) : insert_by cmp x l ≡ₚ x :: l.
Proof.
  induction l as [|y l IH]; simpl; [done|].
  destruct (cmp x y); try done.
  rewrite IH. apply Permutation_swap.
Qed.

Lemma sort_by_Permutation (l : list A) : sort_by cmp l ≡ₚ l.
Proof.
  induction l as [|x l IH]; simpl; [done|].
  rewrite insert_by_Permutation. by f_equiv.
Qed.

Lemma sort_by_length (l : list A) : length (sort_by cmp l) = length l.
Proof. apply Permutation_length, sort_by_Permutation. Qed.

Lemma sort_by_elem_of (x : A) (l : list A) : x ∈ sort_by cmp l <-> x ∈ l.
Proof. by rewrite sort_by_Permutation. Qed.

Hypothesis cmp_flip : forall x y, cmp x y = Gt -> cmp y x <> Gt.
Hypothesis cmp_trans : forall x y z, not_above x y -> not_above y z -> not_above x z.

Lemma insert_by_sorted (x : A) (l : list A) :
  StronglySorted not_above l -> StronglySorted not_above (insert_by cmp x l).
Proof.
  induction 1 as [|y l Hl IH Hy]; simpl.
  - repeat constructor.
  - destruct (cmp x y) eqn:Hxy.
    + constructor; [by constructor|].
      assert (not_above x y) by (unfold not_above; congruence).
      constructor; [done|]. eapply Forall_impl; [exact Hy|]. eauto.
    + constructor; [by constructor|].
      assert (not_above x y) by (unfold not_above; congruence).
      constructor; [done|]. eapply Forall_impl; [exact Hy|]. eauto.
    + constructor; [done|].
      rewrite insert_by_Permutation. constructor; [|done].
      by apply cmp_flip.
Qed.

Lemma sort_by_sorted (l : list A) : StronglySorted not_above (sort_by cmp l).
Proof.
  induction l as [|x l IH]; simpl; [constructor|]. by apply insert_by_sorted.
Qed.

End Insertion.

Lemma ascii_compare_Lt_trans (a b c : ascii) :
  Ascii.compare a b = Lt -> Ascii.compare b c = Lt -> Ascii.compare a c = Lt.
Proof. unfold Ascii.compare. rewrite !N.compare_lt_iff. lia. Qed.

Lemma string_compare_Lt_trans (a b c : string) :
  String.compare a b = Lt -> String.compare b c = Lt -> String.compare a c = Lt.
Proof.
  revert b c. induction a as [|x a IH]; intros [|y b] [|z c]; simpl; try done.
  destruct (Ascii.compare x y) eqn:Hxy; try done;
    destruct (Ascii.compare y z) eqn:Hyz; try done; intros Hab Hbc.
  - apply Ascii.compare_eq_iff in Hxy, Hyz. subst.
    assert (Ascii.compare z z = Eq) as -> by (unfold Ascii.compare; apply N.compare_refl).
    eauto.
  - apply Ascii.compare_eq_iff in Hxy. subst. by rewrite Hyz.
  - apply Ascii.compare_eq_iff in Hyz. subst. by rewrite Hxy.
  - by rewrite (ascii_compare_Lt_trans x y z).
Qed.

Lemma localeCompare_flip (a b : string) : localeCompare a b = Gt -> localeCompare b a <> Gt.
Proof.
  unfold localeCompare. rewrite (String.compare_antisym b a). intros ->. done.
Qed.

Lemma localeCompare_trans (a b c : string) :
  localeCompare a b <> Gt -> localeCompare b c <> Gt -> localeCompare a c <> Gt.
Proof.
  unfold localeCompare. intros Hab Hbc.
  destruct (String.compare a b) eqn:Eab; [|clear Hab|done].
  - apply String.compare_eq_iff in Eab. by subst.
  - destruct (String.compare b c) eqn:Ebc; [|clear Hbc|done].
    + apply String.compare_eq_iff in Ebc. subst. by rewrite Eab.
    + by rewrite (string_compare_Lt_trans a b c).
Qed.

Lemma nat_compare_flip (a b : nat) : Nat.compare a b = Gt -> Nat.compare b a <> Gt.
Proof. rewrite !Nat.compare_gt_iff. lia. Qed.

Lemma nat_compare_trans (a b c : nat) :
  Nat.compare a b <> Gt -> Nat.compare b c <> Gt -> Nat.compare a c <> Gt.
Proof. rewrite !Nat.compare_gt_iff. lia. Qed.

End SortFacts.


(** ** The daily aggregator *)

Import SortFacts.

Module AggregatorSpec.

Section WithNumber.
Context {T : Type} `{Number T}.

(** The rows of the input that carry the date key [d]. *)
Definition rows_of (d : string) (rows : list (CSVRow T)) : list (CSVRow T) :=
  filter (fun r => analytics_date r = d) rows.

(** The rows that the aggregator does not skip. *)
Definition valid_rows (rows : list (CSVRow T)) : list (CSVRow T) :=
  filter (fun r => invalid_date (analytics_date r) = false) rows.

(** A sum taken from left to right, starting from zero. *)
Definition sum_left (l : list T) : T := fold_left num_add l num_zero.

Definition impressions_sum (rs : list (CSVRow T)) : T :=
  sum_left (map (fun r => finite_or_zero (row_impressions r)) rs).

Definition clicks_sum (rs : list (CSVRow T)) : T :=
  sum_left (map (fun r => finite_or_zero (row_clicks r)) rs).

(** [Σ metric_i × impressions_i] over the rows, non-finite fields
    counting as zero. *)
Definition weighted_sum (metric : CSVRow T -> T) (rs : list (CSVRow T)) : T :=
  sum_left (map (fun r => num_mul (finite_or_zero (metric r))
                            (finite_or_zero (row_impressions r))) rs).

(** The impression-weighted mean as the specification words it: [value]
    is the weighted sum divided by the sum of impressions, and zero when
    that sum is zero. *)
Definition claimed_mean (metric : CSVRow T -> T) (rs : list (CSVRow T)) (value : T) : Prop :=
  (impressions_sum rs = num_zero -> value = num_zero) /\
  (impressions_sum rs <> num_zero ->
   value = num_div (weighted_sum metric rs) (impressions_sum rs)).

(** The impression-weighted mean as the aggregator computes it. *)
Definition weighted_mean (metric : CSVRow T -> T) (rs : list (CSVRow T)) : T :=
  if num_lt num_zero (impressions_sum rs)
  then finite_or_zero (num_div (weighted_sum metric rs) (impressions_sum rs))
  else num_zero.

(** What one row adds to the accumulator of its date. *)
Definition add_row (acc : DateAccumulator T) (r : CSVRow T) : DateAccumulator T :=
  mkAcc (num_add (acc_clicks acc) (finite_or_zero (row_clicks r)))
        (num_add (acc_impressions acc) (finite_or_zero (row_impressions r)))
        (num_add (ctrWeightedSum acc)
           (num_mul (finite_or_zero (row_ctr r)) (finite_or_zero (row_impressions r))))
        (num_add (positionWeightedSum acc)
           (num_mul (finite_or_zero (row_position r)) (finite_or_zero (row_impressions r)))).

Definition empty_acc : DateAccumulator T := mkAcc num_zero num_zero num_zero num_zero.

Definition get_or_empty (d : string) (m : DateMap T) : DateAccumulator T :=
  match map_get d m with
  | Some e => e
  | None => empty_acc
  end.

Lemma accumulate_eq (m : DateMap T) (r : CSVRow T) :
  accumulate m r =
  if invalid_date (analytics_date r) then m
  else map_set (analytics_date r) (add_row (get_or_empty (analytics_date r) m) r) m.
Proof. reflexivity. Qed.

Lemma map_get_set_eq (d : string) (v : DateAccumulator T) (m : DateMap T) :
  map_get d (map_set d v m) = Some v.
Proof.
  induction m as [|[k w] m IH]; simpl.
  - by rewrite String.eqb_refl.
  - destruct (String.eqb k d) eqn:E; simpl; rewrite E; done.
Qed.

Lemma map_get_set_ne (d d' : string) (v : DateAccumulator T) (m : DateMap T) :
  d <> d' -> map_get d' (map_set d v m) = map_get d' m.
Proof.
  intros Hne. induction m as [|[k w] m IH]; simpl.
  - destruct (String.eqb_spec d d'); done.
  - destruct (String.eqb_spec k d) as [->|Hk]; simpl.
    + destruct (String.eqb_spec d d'); done.
    + by rewrite IH.
Qed.

Lemma map_set_keys (d : string) (v : DateAccumulator T) (m : DateMap T) :
  (map_set d v m).*1 = if bool_decide (d ∈ m.*1) then m.*1 else m.*1 ++ [d].
Proof.
  induction m as [|[k w] m IH]; [done|]. cbn [map_set].
  destruct (String.eqb_spec k d) as [->|Hk]; rewrite !fmap_cons; cbn [fst].
  - rewrite bool_decide_eq_true_2; [done|]. by left.
  - rewrite IH. destruct (decide (d ∈ m.*1)) as [Hin|Hin].
    + rewrite !bool_decide_eq_true_2; [done| |done]. by right.
    + rewrite !bool_decide_eq_false_2; [done| |done].
      rewrite elem_of_cons. intros [?|?]; by auto.
Qed.

Lemma map_set_NoDup (d : string) (v : DateAccumulator T) (m : DateMap T) :
  NoDup m.*1 -> NoDup (map_set d v m).*1.
Proof.
  intros Hnd. rewrite map_set_keys. case_bool_decide; [done|].
  apply NoDup_app. split_and!; [done| |apply NoDup_singleton].
  intros x Hx Hx'. apply list_elem_of_singleton in Hx'. by subst.
Qed.

Lemma accumulate_NoDup (rows : list (CSVRow T)) (m : DateMap T) :
  NoDup m.*1 -> NoDup (fold_left accumulate rows m).*1.
Proof.
  revert m. induction rows as [|r rows IH]; intros m Hnd; simpl; [done|].
  apply IH. rewrite accumulate_eq. destruct (invalid_date _); [done|].
  by apply map_set_NoDup.
Qed.

Lemma map_get_elem_of (d : string) (acc : DateAccumulator T) (m : DateMap T) :
  NoDup m.*1 -> (d, acc) ∈ m -> map_get d m = Some acc.
Proof.
  induction m as [|[k w] m IH]; simpl; intros Hnd Hin.
  - by apply elem_of_nil in Hin.
  - apply NoDup_cons in Hnd as [Hk Hnd].
    apply elem_of_cons in Hin as [[= <- <-]|Hin].
    + by rewrite String.eqb_refl.
    + destruct (String.eqb_spec k d) as [->|_]; [|by apply IH].
      exfalso. apply Hk. apply list_elem_of_fmap. by exists (d, acc).
Qed.

Lemma map_get_valid (d : string) (rows : list (CSVRow T)) (m : DateMap T) :
  (forall k, k ∈ m.*1 -> invalid_date k = false) ->
  forall k, k ∈ (fold_left accumulate rows m).*1 -> invalid_date k = false.
Proof.
  revert m. induction rows as [|r rows IH]; intros m Hm; simpl; [done|].
  apply IH. rewrite accumulate_eq. destruct (invalid_date _) eqn:E; [done|].
  intros k. rewrite map_set_keys. case_bool_decide; [by auto|].
  rewrite elem_of_app, list_elem_of_singleton. intros [?| ->]; auto.
Qed.

(** The accumulator of a date after the fold is the fold of [add_row]
    over the rows of that date, in their order in the stream. *)
Lemma fold_accumulate_get (d : string) (rows : list (CSVRow T)) (m : DateMap T) :
  invalid_date d = false ->
  map_get d (fold_left accumulate rows m) =
  match rows_of d rows with
  | [] => map_get d m
  | rs => Some (fold_left add_row rs (get_or_empty d m))
  end.
Proof.
  intros Hd. revert m. induction rows as [|r rows IH]; intros m; simpl; [done|].
  rewrite IH, accumulate_eq. unfold rows_of. rewrite filter_cons.
  destruct (decide (analytics_date r = d)) as [<-|Hne].
  - rewrite Hd. destruct (filter _ rows); simpl.
    + apply map_get_set_eq.
    + unfold get_or_empty at 1. by rewrite map_get_set_eq.
  - destruct (invalid_date (analytics_date r)); [done|].
    unfold get_or_empty. by rewrite map_get_set_ne.
Qed.

Lemma fold_add_row_impressions (rs : list (CSVRow T)) (acc : DateAccumulator T) :
  acc_impressions (fold_left add_row rs acc) =
  fold_left num_add (map (fun r => finite_or_zero (row_impressions r)) rs) (acc_impressions acc).
Proof. revert acc. induction rs as [|r rs IH]; intros acc; simpl; [done|]. by rewrite IH. Qed.

Lemma fold_add_row_clicks (rs : list (CSVRow T)) (acc : DateAccumulator T) :
  acc_clicks (fold_left add_row rs acc) =
  fold_left num_add (map (fun r => finite_or_zero (row_clicks r)) rs) (acc_clicks acc).
Proof. revert acc. induction rs as [|r rs IH]; intros acc; simpl; [done|]. by rewrite IH. Qed.

Lemma fold_add_row_ctr (rs : list (CSVRow T)) (acc : DateAccumulator T) :
  ctrWeightedSum (fold_left add_row rs acc) =
  fold_left num_add
    (map (fun r => num_mul (finite_or_zero (row_ctr r)) (finite_or_zero (row_impressions r))) rs)
    (ctrWeightedSum acc).
Proof. revert acc. induction rs as [|r rs IH]; intros acc; simpl; [done|]. by rewrite IH. Qed.

Lemma fold_add_row_position (rs : list (CSVRow T)) (acc : DateAccumulator T) :
  positionWeightedSum (fold_left add_row rs acc) =
  fold_left num_add
    (map (fun r => num_mul (finite_or_zero (row_position r)) (finite_or_zero (row_impressions r))) rs)
    (positionWeightedSum acc).
Proof. revert acc. induction rs as [|r rs IH]; intros acc; simpl; [done|]. by rewrite IH. Qed.

(** Every record of the result is the finalized accumulator of the rows
    of its date. *)
Lemma aggregate_of_rows (rows : list (CSVRow T)) (aggs : list (DailyAggregate T))
    (a : DailyAggregate T) :
  buildDailyAggregates (mkRowStream rows None) = Ok aggs ->
  a ∈ aggs ->
  rows_of (date a) rows <> [] /\
  invalid_date (date a) = false /\
  a = finalize (date a, fold_left add_row (rows_of (date a) rows) empty_acc).
Proof.
  intros Hbuild Hin.
  assert (Haggs : aggs = sort_by compare_date (map finalize (fold_left accumulate rows []))).
  { unfold buildDailyAggregates in Hbuild. simpl in Hbuild.
    destruct (fold_left accumulate rows []); [done|]. by injection Hbuild. }
  subst aggs.
  apply sort_by_elem_of, list_elem_of_fmap in Hin as ([d acc] & -> & Hin).
  assert (Hvalid : invalid_date d = false).
  { apply (map_get_valid d rows []); [by intros k Hk; apply elem_of_nil in Hk|].
    apply list_elem_of_fmap. by exists (d, acc). }
  apply map_get_elem_of in Hin; [|apply accumulate_NoDup; constructor].
  rewrite fold_accumulate_get in Hin by done. simpl in *.
  destruct (rows_of d rows) as [|r rs] eqn:Hrs; [done|].
  injection Hin as <-. done.
Qed.

Lemma finite_or_zero_idem (x : T) : finite_or_zero (finite_or_zero x) = finite_or_zero x.
Proof.
  unfold finite_or_zero. destruct (isFinite x) eqn:E; [by rewrite E|].
  by destruct (isFinite num_zero).
Qed.

Lemma finite_or_zero_zero : finite_or_zero num_zero = num_zero.
Proof. unfold finite_or_zero. by destruct (isFinite num_zero). Qed.

Lemma finite_or_zero_finite (x : T) :
  isFinite num_zero = true -> isFinite (finite_or_zero x) = true.
Proof. intros Hz. unfold finite_or_zero. by destruct (isFinite x) eqn:E. Qed.

Lemma finalize_ctr (d : string) (rs : list (CSVRow T)) :
  ctr (finalize (d, fold_left add_row rs empty_acc)) = weighted_mean row_ctr rs.
Proof.
  unfold finalize, weighted_mean, impressions_sum, weighted_sum, sum_left. cbn [ctr].
  rewrite fold_add_row_impressions, fold_add_row_ctr. cbn [empty_acc acc_impressions ctrWeightedSum].
  destruct (num_lt _ _); [done|apply finite_or_zero_zero].
Qed.

Lemma finalize_position (d : string) (rs : list (CSVRow T)) :
  position (finalize (d, fold_left add_row rs empty_acc)) = weighted_mean row_position rs.
Proof.
  unfold finalize, weighted_mean, impressions_sum, weighted_sum, sum_left. cbn [position].
  rewrite fold_add_row_impressions, fold_add_row_position.
  cbn [empty_acc acc_impressions positionWeightedSum].
  destruct (num_lt _ _); [done|apply finite_or_zero_zero].
Qed.

Lemma weighted_mean_finite (metric : CSVRow T -> T) (rs : list (CSVRow T)) :
  isFinite num_zero = true -> isFinite (weighted_mean metric rs) = true.
Proof.
  intros Hz. unfold weighted_mean. destruct (num_lt _ _); [|done].
  by apply finite_or_zero_finite.
Qed.

(** C1, as amended: in every record of the result, [ctr] and
    [position] are the impression-weighted means of the rows of that
    date (non-finite fields counting as zero) whenever the sum of the
    impressions is above zero and the quotient is finite; they are
    exactly zero whenever the sum of impressions is not above zero, in
    particular when it is zero; and they are always finite. *)
Theorem weighted_metrics_of_aggregates
    (rows : list (CSVRow T)) (aggs : list (DailyAggregate T)) (a : DailyAggregate T) :
  isFinite num_zero = true ->
  num_lt num_zero num_zero = false ->
  buildDailyAggregates (mkRowStream rows None) = Ok aggs ->
  a ∈ aggs ->
  let rs := rows_of (date a) rows in
  let total := impressions_sum rs in
  rs <> [] /\
  ctr a = weighted_mean row_ctr rs /\
  position a = weighted_mean row_position rs /\
  (num_lt num_zero total = true ->
   (isFinite (num_div (weighted_sum row_ctr rs) total) = true ->
    ctr a = num_div (weighted_sum row_ctr rs) total) /\
   (isFinite (num_div (weighted_sum row_position rs) total) = true ->
    position a = num_div (weighted_sum row_position rs) total)) /\
  (num_lt num_zero total = false -> ctr a = num_zero /\ position a = num_zero) /\
  (total = num_zero -> ctr a = num_zero /\ position a = num_zero) /\
  isFinite (ctr a) = true /\ isFinite (position a) = true.
Proof.
  intros Hzero Hirrefl Hbuild Hin rs total.
  destruct (aggregate_of_rows rows aggs a Hbuild Hin) as (Hrs & _ & Ha).
  assert (Hctr : ctr a = weighted_mean row_ctr rs)
    by (rewrite Ha at 1; apply finalize_ctr).
  assert (Hpos : position a = weighted_mean row_position rs)
    by (rewrite Ha at 1; apply finalize_position).
  assert (Hle : num_lt num_zero total = false -> ctr a = num_zero /\ position a = num_zero).
  { intros Hlt. rewrite Hctr, Hpos. unfold weighted_mean. fold total. by rewrite Hlt. }
  split_and!; try done.
  - intros Hlt. rewrite Hctr, Hpos. unfold weighted_mean, finite_or_zero. fold total.
    rewrite Hlt. split; by intros ->.
  - intros Htotal. apply Hle. by rewrite Htotal.
  - rewrite Hctr. by apply weighted_mean_finite.
  - rewrite Hpos. by apply weighted_mean_finite.
Qed.

End WithNumber.

(** *** Conservation of clicks *)

Import WholeNumbers.
Local Open Scope Z_scope.

(** The exact sum of whole numbers. *)
Definition total_count (ns : list Z) : Z := foldr Z.add 0 ns.

(** The binary64 number [x] is the whole number [n], which is not
    negative. *)
Definition holds (x : float) (n : Z) : Prop := 0 <= n /\ x = of_count n.

Lemma total_count_nonneg (xs : list float) (ns : list Z) :
  Forall2 holds xs ns -> 0 <= total_count ns.
Proof. induction 1 as [|x n xs ns [Hn _] _ IH]; simpl; lia. Qed.

Lemma total_count_Permutation (ns ns' : list Z) : ns ≡ₚ ns' -> total_count ns = total_count ns'.
Proof. induction 1; simpl; lia. Qed.

Lemma holds_finite (x : float) (n : Z) :
  holds x n -> n <= max_safe -> finite_or_zero x = x.
Proof.
  intros [Hn ->] Hmax. unfold finite_or_zero.
  change (isFinite (of_count n)) with (PrimFloat.is_finite (of_count n)).
  by rewrite of_count_finite.
Qed.

(** Adding whole numbers from left to right is exact as long as the
    total is a safe integer. *)
Lemma fold_add_counts (xs : list float) (ns : list Z) (a : Z) :
  Forall2 holds xs ns -> 0 <= a -> a + total_count ns <= max_safe ->
  fold_left PrimFloat.add xs (of_count a) = of_count (a + total_count ns).
Proof.
  intros Hxs. revert a. induction Hxs as [|x n xs ns [Hn ->] Hrest IH]; intros a Ha Hsum; simpl.
  - by rewrite Z.add_0_r.
  - pose proof (total_count_nonneg _ _ Hrest). simpl in Hsum.
    rewrite of_count_add by lia. rewrite IH by lia. f_equal. lia.
Qed.

Lemma sum_left_counts (xs : list float) (ns : list Z) :
  Forall2 holds xs ns -> total_count ns <= max_safe ->
  sum_left xs = of_count (total_count ns).
Proof.
  intros Hxs Hsum. unfold sum_left.
  change (num_zero : float) with (of_count 0).
  change (@num_add float _) with PrimFloat.add.
  by rewrite (fold_add_counts xs ns 0).
Qed.

Lemma holds_Permutation (xs xs' : list float) (ns : list Z) :
  xs ≡ₚ xs' -> Forall2 holds xs ns ->
  exists ns', ns ≡ₚ ns' /\ Forall2 holds xs' ns'.
Proof.
  intros Hperm. revert ns.
  induction Hperm as [|x xs xs' _ IH|x y xs|xs xs' xs'' _ IH _ IH']; intros ns Hns.
  - exists ns. by split.
  - apply Forall2_cons_inv_l in Hns as (n & ns0 & Hn & Hns0 & ->).
    destruct (IH ns0 Hns0) as (ns' & Hperm' & Hns').
    exists (n :: ns'). split; [by constructor|constructor; assumption].
  - apply Forall2_cons_inv_l in Hns as (n & ns0 & Hn & Hns0 & ->).
    apply Forall2_cons_inv_l in Hns0 as (n' & ns1 & Hn' & Hns1 & ->).
    exists (n' :: n :: ns1). split; [apply Permutation_swap|].
    constructor; [assumption|]. constructor; assumption.
  - destruct (IH ns Hns) as (ns' & Hperm' & Hns').
    destruct (IH' ns' Hns') as (ns'' & Hperm'' & Hns'').
    exists ns''. split; [by etrans|done].
Qed.

(** The whole numbers of clicks that the accumulators of a [dateMap]
    hold. *)
Definition tallies (m : DateMap float) (held : list Z) : Prop :=
  Forall2 (fun e n => holds (acc_clicks e.2) n) m held.

Lemma tallies_total_nonneg (m : DateMap float) (held : list Z) :
  tallies m held -> 0 <= total_count held.
Proof. induction 1 as [|e n m held [Hn _] _ IH]; simpl; lia. Qed.

Lemma tallies_set (d : string) (r : CSVRow float) (n : Z) (m : DateMap float) (held : list Z) :
  tallies m held ->
  holds (finite_or_zero (row_clicks r)) n ->
  total_count held + n <= max_safe ->
  exists held',
    tallies (map_set d (add_row (get_or_empty d m) r) m) held' /\
    total_count held' = total_count held + n.
Proof.
  intros Hm [Hn Hr]. unfold get_or_empty.
  induction Hm as [|[k w] h m held [Hh Hw] Hrest IH]; intros Hsum.
  - exists [n]. split; [|simpl; lia]. constructor; [|constructor]. split; [lia|].
    cbn [add_row acc_clicks empty_acc snd map_get]. rewrite Hr.
    change (PrimFloat.add (of_count 0) (of_count n) = of_count n).
    by rewrite of_count_add by (simpl in Hsum; lia).
  - pose proof (tallies_total_nonneg _ _ Hrest). simpl in Hsum, Hw.
    cbn [map_set map_get]. destruct (String.eqb k d) eqn:E.
    + exists (h + n :: held). split; [|simpl; lia].
      constructor; [|done]. split; [lia|].
      cbn [add_row acc_clicks snd]. rewrite Hr, Hw.
      change (@num_add float _) with PrimFloat.add. by rewrite of_count_add by lia.
    + destruct IH as (held' & Hheld' & Htotal); [lia|].
      exists (h :: held'). split; [|simpl; lia]. by constructor.
Qed.

Lemma tallies_fold (rows : list (CSVRow float)) (counts : list Z)
    (m : DateMap float) (held : list Z) :
  tallies m held ->
  Forall2 (fun r n => holds (finite_or_zero (row_clicks r)) n) (valid_rows rows) counts ->
  total_count held + total_count counts <= max_safe ->
  exists held',
    tallies (fold_left accumulate rows m) held' /\
    total_count held' = total_count held + total_count counts.
Proof.
  revert counts m held. induction rows as [|r rows IH]; intros counts m held Hm Hrows Hsum.
  - apply Forall2_nil_inv_l in Hrows as ->. exists held. split; [done|simpl; lia].
  - cbn [fold_left]. rewrite accumulate_eq. unfold valid_rows in Hrows.
    rewrite filter_cons in Hrows. destruct (invalid_date (analytics_date r)) eqn:E.
    + rewrite decide_False in Hrows by done. by apply IH.
    + rewrite decide_True in Hrows by done.
      apply Forall2_cons_inv_l in Hrows as (n & counts' & Hr & Hrows & ->). simpl in Hsum.
      assert (0 <= total_count counts').
      { clear -Hrows. induction Hrows as [|? ? ? ? [? _] _ ?]; simpl; lia. }
      destruct (tallies_set (analytics_date r) r n m held Hm Hr) as (held1 & Hheld1 & Htotal1);
        [lia|].
      assert (Hnext : total_count held1 + total_count counts' <= max_safe) by lia.
      destruct (IH counts' _ held1 Hheld1 Hrows Hnext) as (held' & Hheld' & Htotal').
      exists held'. split; [done|simpl; lia].
Qed.

Lemma tallies_finalized (m : DateMap float) (held : list Z) :
  tallies m held -> total_count held <= max_safe ->
  Forall2 holds (map clicks (map finalize m)) held.
Proof.
  intros Hm. pose proof (tallies_total_nonneg m held Hm) as Hnonneg. revert Hnonneg.
  induction Hm as [|[k w] h m held Hw Hrest IH]; intros Hnonneg Hsum; [constructor|].
  pose proof (tallies_total_nonneg _ _ Hrest). destruct Hw as [Hh Hw]. simpl in *.
  constructor; [|apply IH; lia].
  split; [done|]. rewrite (holds_finite (acc_clicks w) h); [done|by split|lia].
Qed.

(** C5, as amended: when the clicks of the rows with a valid date key
    are whole numbers that are not negative (a clicks field that is
    not finite counting as zero) and their total is a safe integer,
    the clicks of the daily aggregates add up to exactly that total,
    and so do the clicks of these rows: no click is counted twice and
    none is lost. *)
Theorem clicks_conserved (rows : list (CSVRow float)) (aggs : list (DailyAggregate float))
    (counts : list Z) :
  buildDailyAggregates (mkRowStream rows None) = Ok aggs ->
  Forall2 (fun r n => 0 <= n /\ finite_or_zero (row_clicks r) = of_count n)
    (valid_rows rows) counts ->
  total_count counts <= max_safe ->
  sum_left (map clicks aggs) = clicks_sum (valid_rows rows) /\
  clicks_sum (valid_rows rows) = of_count (total_count counts).
Proof.
  intros Hbuild Hrows Hsum.
  assert (Hrecords : clicks_sum (valid_rows rows) = of_count (total_count counts)).
  { unfold clicks_sum. apply sum_left_counts; [|done].
    clear -Hrows. induction Hrows; constructor; done. }
  split; [|done]. rewrite Hrecords.
  assert (Haggs : aggs = sort_by compare_date (map finalize (fold_left accumulate rows []))).
  { unfold buildDailyAggregates in Hbuild. simpl in Hbuild.
    destruct (fold_left accumulate rows []); [done|]. by injection Hbuild. }
  destruct (tallies_fold rows counts [] []) as (held & Hheld & Htotal);
    [constructor|done|simpl; lia|]. simpl in Htotal.
  assert (Hfinal : Forall2 holds (map clicks (map finalize (fold_left accumulate rows []))) held)
    by (apply tallies_finalized; [done|lia]).
  assert (Hsorted : map clicks (map finalize (fold_left accumulate rows [])) ≡ₚ map clicks aggs).
  { subst aggs. apply Permutation_map. symmetry. apply sort_by_Permutation. }
  destruct (holds_Permutation _ _ held Hsorted Hfinal) as (held' & Hperm & Hheld').
  rewrite (sum_left_counts _ held' Hheld').
  - f_equal. rewrite <- (total_count_Permutation _ _ Hperm). lia.
  - rewrite <- (total_count_Permutation _ _ Hperm). lia.
Qed.

Local Close Scope Z_scope.

Local Open Scope float_scope.

(** A day whose only row has a negative impression count. *)
Definition negative_day : list (CSVRow float) :=
  [mkCSVRow "2024-01-01" "kw" "/" 0 (-1) 1 1 "web" "desktop"].

(** C1, as stated, fails: on [negative_day] the sum of impressions is
    [-1], not zero, and the quotient of the sums is [1], but the
    aggregator reports [ctr = 0]. *)
Lemma claimed_mean_counterexample :
  ~ (forall (rows : list (CSVRow float)) aggs a,
       buildDailyAggregates (mkRowStream rows None) = Ok aggs ->
       a ∈ aggs ->
       claimed_mean row_ctr (rows_of (date a) rows) (ctr a)).
Proof.
  intros Hclaim.
  destruct (Hclaim negative_day [mkDailyAggregate "2024-01-01" 0 (-1) 0 0]
              (mkDailyAggregate "2024-01-01" 0 (-1) 0 0)) as [_ Hquot].
  - reflexivity.
  - apply list_elem_of_singleton. reflexivity.
  - assert (Hne : impressions_sum (rows_of "2024-01-01" negative_day) <> 0).
    { intros Heq. apply (f_equal (fun x => x =? 0)) in Heq. vm_compute in Heq. discriminate. }
    specialize (Hquot Hne).
    apply (f_equal (fun x => x =? 0)) in Hquot. vm_compute in Hquot. discriminate.
Qed.

(** Two rows of one day, a row of another day and a row without a date. *)
Definition sample_rows : list (CSVRow float) :=
  [ mkCSVRow "2024-03-01" "boots" "/boots" 20 1000 0.5 2 "web" "desktop";
    mkCSVRow "2024-03-02" "boots" "/boots" 7 500 0.25 4 "web" "mobile";
    mkCSVRow "   " "boots" "/boots" 9 100 0.5 1 "web" "mobile";
    mkCSVRow "2024-03-01" "shoes" "/shoes" 30 3000 0.25 6 "web" "mobile" ].

Definition sample_aggregates : list (DailyAggregate float) :=
  [ mkDailyAggregate "2024-03-01" 50 4000 0.3125 5;
    mkDailyAggregate "2024-03-02" 7 500 0.25 4 ].

(** The amended statement on the first day of [sample_rows]. *)
Lemma weighted_metrics_of_aggregates_witness :
  let a := mkDailyAggregate "2024-03-01" 50 4000 0.3125 5 in
  let rs := rows_of "2024-03-01" sample_rows in
  ctr a = num_div (weighted_sum row_ctr rs) (impressions_sum rs) /\
  isFinite (ctr a) = true.
Proof.
  intros a rs.
  destruct (weighted_metrics_of_aggregates sample_rows sample_aggregates a)
    as (_ & _ & _ & Hquot & _ & _ & Hfin & _).
  - reflexivity.
  - reflexivity.
  - reflexivity.
  - apply list_elem_of_here.
  - split; [|exact Hfin]. apply Hquot; reflexivity.
Defined.


(** One day with 2^53 clicks and a day with two rows of one click. *)
Definition beyond_safe : list (CSVRow float) :=
  [ mkCSVRow "2024-03-01" "boots" "/boots" 9007199254740992 1000 0.5 2 "web" "desktop";
    mkCSVRow "2024-03-02" "boots" "/boots" 1 500 0.25 4 "web" "mobile";
    mkCSVRow "2024-03-02" "shoes" "/shoes" 1 500 0.25 4 "web" "mobile" ].

(** C5, as stated, fails in binary64: on [beyond_safe] the aggregates
    hold 2^53 and 2 clicks, which add up to 2^53 + 2, while adding the
    clicks of the three rows gives 2^53, each single click being
    rounded away. *)
Lemma clicks_not_conserved :
  ~ (forall (rows : list (CSVRow float)) (aggs : list (DailyAggregate float)),
       buildDailyAggregates (mkRowStream rows None) = Ok aggs ->
       sum_left (map clicks aggs) = clicks_sum (valid_rows rows)).
Proof.
  intros Hclaim.
  specialize (Hclaim beyond_safe
                [ mkDailyAggregate "2024-03-01" 9007199254740992 1000 0.5 2;
                  mkDailyAggregate "2024-03-02" 2 1000 0.25 4 ] eq_refl).
  apply (f_equal (fun x => x =? 9007199254740992)) in Hclaim.
  vm_compute in Hclaim. discriminate.
Qed.

(** [clicks_conserved] on [sample_rows]: 20 + 30 and 7 clicks, the 9
    clicks of the row without a date being left out. *)
Lemma clicks_conserved_witness :
  sum_left (map clicks sample_aggregates) = of_count 57.
Proof.
  destruct (clicks_conserved sample_rows sample_aggregates [20; 7; 30]%Z) as [Haggs Hrows].
  - reflexivity.
  - change (valid_rows sample_rows) with
      [ mkCSVRow "2024-03-01" "boots" "/boots" 20 1000 0.5 2 "web" "desktop";
        mkCSVRow "2024-03-02" "boots" "/boots" 7 500 0.25 4 "web" "mobile";
        mkCSVRow "2024-03-01" "shoes" "/shoes" 30 3000 0.25 6 "web" "mobile" ].
    repeat (constructor; [split; [lia|reflexivity]|]). constructor.
  - vm_compute. discriminate.
  - by rewrite Haggs, Hrows.
Defined.


End AggregatorSpec.


(** ** The statistics of the anomaly detector, as the description words them *)

Module Statistics.

(** The arithmetic in which the statistics are read. *)
Class Arithmetic (T : Type) : Type := {
  zero : T;
  plus : T -> T -> T;
  minus : T -> T -> T;
  times : T -> T -> T;
  quotient : T -> T -> T;
  root : T -> T;
  count : nat -> T
}.

Section Scores.
Context {T : Type} `{Arithmetic T}.

Definition total (xs : list T) : T := fold_left plus xs zero.

Definition mean (xs : list T) : T := quotient (total xs) (count (length xs)).

Definition squared_difference (m x : T) : T := times (minus x m) (minus x m).

(** The population standard deviation: the root of the mean of the
    squared differences from the mean. *)
Definition population_stddev (xs : list T) : T :=
  root (quotient (total (map (squared_difference (mean xs)) xs)) (count (length xs))).

(** [z = (x - mean) / stddev] *)
Definition standard_score (xs : list T) (x : T) : T :=
  quotient (minus x (mean xs)) (population_stddev xs).

End Scores.

(** Exact arithmetic on real numbers. *)
#[export] Instance exact_arithmetic : Arithmetic R := {
  zero := 0%R;
  plus := Rplus;
  minus := Rminus;
  times := Rmult;
  quotient := Rdiv;
  root := R_sqrt.sqrt;
  count := INR
}.

(** Binary64 arithmetic, round to nearest. *)
#[export] Instance binary64_arithmetic : Arithmetic float := {
  zero := 0%float;
  plus := PrimFloat.add;
  minus := PrimFloat.sub;
  times := PrimFloat.mul;
  quotient := PrimFloat.div;
  root := PrimFloat.sqrt;
  count := number_of_nat
}.

End Statistics.

(** ** The range summarizer *)

Import SortFacts FloatFacts.

Module InsightsSpec.
Import InsightsBuilder.
Local Open Scope float_scope.

(** *** Lists of indices *)

Lemma Forall_sublist {A : Type} (P : A -> Prop) (l k : list A) :
  l `sublist_of` k -> Forall P k -> Forall P l.
Proof.
  intros Hsub. rewrite !Forall_forall. intros Hk x Hx.
  apply Hk. eapply elem_of_sublist; eauto.
Qed.

Lemma StronglySorted_sublist {A : Type} (R : relation A) (l k : list A) :
  l `sublist_of` k -> StronglySorted R k -> StronglySorted R l.
Proof.
  induction 1 as [|x l k Hsub IH|x l k Hsub IH]; intros Hk.
  - constructor.
  - apply StronglySorted_inv in Hk as [Hk Hx]. constructor; [by apply IH|].
    eapply Forall_sublist; eauto.
  - apply StronglySorted_inv in Hk as [Hk _]. by apply IH.
Qed.

Lemma ascending_of_NoDup (l : list nat) :
  StronglySorted (not_above Nat.compare) l -> NoDup l -> StronglySorted lt l.
Proof.
  induction 1 as [|x l Hl IH Hx]; intros Hnd; [constructor|].
  apply NoDup_cons in Hnd as [Hnotin Hnd]. constructor; [by apply IH|].
  apply Forall_forall. intros y Hy.
  rewrite Forall_forall in Hx. specialize (Hx y Hy).
  unfold not_above in Hx. rewrite Nat.compare_gt_iff in Hx.
  assert (x <> y) by (intros ->; done). lia.
Qed.

Lemma set_add_elem_of (i j : nat) (s : list nat) : j ∈ set_add i s <-> j = i \/ j ∈ s.
Proof.
  unfold set_add. case_bool_decide.
  - split; [by right|]. by intros [->|].
  - rewrite elem_of_app, list_elem_of_singleton. tauto.
Qed.

Lemma set_add_NoDup (i : nat) (s : list nat) : NoDup s -> NoDup (set_add i s).
Proof.
  intros Hs. unfold set_add. case_bool_decide; [done|].
  apply NoDup_app. split_and!; [done| |apply NoDup_singleton].
  intros x Hx Hx'. apply list_elem_of_singleton in Hx'. by subst.
Qed.


Lemma set_add_below (n i : nat) (s : list nat) :
  (i < n)%nat -> Forall (fun j => (j < n)%nat) s -> Forall (fun j => (j < n)%nat) (set_add i s).
Proof.
  intros Hi Hs. apply Forall_forall. intros j Hj.
  apply set_add_elem_of in Hj as [->|Hj]; [done|].
  rewrite Forall_forall in Hs. auto.
Qed.

Lemma sample_loop_NoDup (rounds : nat) (step : option nat) (n i : nat) (s : list nat) :
  NoDup s -> NoDup (sample_loop rounds step n i s).
Proof.
  revert i s. induction rounds as [|rounds IH]; intros i s Hs; simpl; [done|].
  destruct (i <? n)%nat; [|done].
  destruct step; [apply IH|]; by apply set_add_NoDup.
Qed.

Lemma sample_loop_below (rounds : nat) (step : option nat) (n i : nat) (s : list nat) :
  Forall (fun j => (j < n)%nat) s -> Forall (fun j => (j < n)%nat) (sample_loop rounds step n i s).
Proof.
  revert i s. induction rounds as [|rounds IH]; intros i s Hs; simpl; [done|].
  destruct (Nat.ltb_spec i n); [|done].
  destruct step; [apply IH|]; by apply set_add_below.
Qed.

(** *** The scan for the peak and the trough *)

(** No record of [sorted] has more clicks than the record at [p]. *)
Definition is_peak (sorted : list Agg) (p : nat) : Prop :=
  forall j, (j < length sorted)%nat -> (clicks_at sorted p <? clicks_at sorted j) = false.

(** No record of [sorted] has fewer clicks than the record at [t]. *)
Definition is_trough (sorted : list Agg) (t : nat) : Prop :=
  forall j, (j < length sorted)%nat -> (clicks_at sorted j <? clicks_at sorted t) = false.

Lemma scan_indices_prefix (sorted : list Agg) (k : nat) :
  let '(p, t) := fold_left (scan_indices sorted) (seq 0 k) (0%nat, 0%nat) in
  (p < Nat.max 1 k)%nat /\ (t < Nat.max 1 k)%nat /\
  (forall j, (j < k)%nat -> (clicks_at sorted p <? clicks_at sorted j) = false) /\
  (forall j, (j < k)%nat -> (clicks_at sorted j <? clicks_at sorted t) = false).
Proof.
  induction k as [|k IH].
  - simpl. split_and!; try lia; intros j Hj; lia.
  - rewrite seq_S, fold_left_app. simpl.
    destruct (fold_left (scan_indices sorted) (seq 0 k) (0%nat, 0%nat)) as [p t].
    destruct IH as (Hp & Ht & Hpeak & Htrough). simpl.
    split_and!.
    + destruct (_ <? _); lia.
    + destruct (_ <? _); lia.
    + intros j Hj. destruct (clicks_at sorted p <? clicks_at sorted k) eqn:Hpk.
      * destruct (decide (j = k)) as [->|Hne]; [apply ltb_irrefl|].
        destruct (clicks_at sorted k <? clicks_at sorted j) eqn:Hkj; [|done].
        rewrite <- (Hpeak j) by lia. symmetry. eapply ltb_trans; eassumption.
      * destruct (decide (j = k)) as [->|Hne]; [done|]. apply Hpeak. lia.
    + intros j Hj. destruct (clicks_at sorted k <? clicks_at sorted t) eqn:Hkt.
      * destruct (decide (j = k)) as [->|Hne]; [apply ltb_irrefl|].
        destruct (clicks_at sorted j <? clicks_at sorted k) eqn:Hjk; [|done].
        rewrite <- (Htrough j) by lia. symmetry. eapply ltb_trans; eassumption.
      * destruct (decide (j = k)) as [->|Hne]; [done|]. apply Htrough. lia.
Qed.

Lemma scan_indices_spec (sorted : list Agg) (p t : nat) :
  sorted <> [] ->
  fold_left (scan_indices sorted) (seq 0 (length sorted)) (0%nat, 0%nat) = (p, t) ->
  (p < length sorted)%nat /\ (t < length sorted)%nat /\ is_peak sorted p /\ is_trough sorted t.
Proof.
  intros Hne Hscan. pose proof (scan_indices_prefix sorted (length sorted)) as Hspec.
  rewrite Hscan in Hspec. destruct sorted; [done|]. simpl length in *.
  destruct Hspec as (Hp & Ht & Hpeak & Htrough). split_and!; try lia; done.
Qed.

(** *** The indices that are kept *)

(** The set of indices before it is sorted and cut. *)
Definition sampled_indices (sorted : list Agg) (maxPoints : nat) : list nat :=
  let n := length sorted in
  let pt := fold_left (scan_indices sorted) (seq 0 n) (0%nat, 0%nat) in
  set_add pt.2 (set_add pt.1 (set_add (n - 1)
    (set_add 0 (sample_loop n (sampling_step n maxPoints) n 0 [])))).

Lemma finalIndices_eq (sorted : list Agg) (maxPoints : nat) :
  finalIndices sorted maxPoints =
  let indices := sort_by Nat.compare (sampled_indices sorted maxPoints) in
  if (maxPoints <? length indices)%nat then take maxPoints indices else indices.
Proof.
  unfold finalIndices, sampled_indices.
  by destruct (fold_left (scan_indices sorted) (seq 0 (length sorted)) (0%nat, 0%nat)).
Qed.

Lemma sampled_indices_NoDup (sorted : list Agg) (maxPoints : nat) :
  NoDup (sampled_indices sorted maxPoints).
Proof.
  unfold sampled_indices. repeat apply set_add_NoDup. apply sample_loop_NoDup. constructor.
Qed.

Lemma sampled_indices_below (sorted : list Agg) (maxPoints : nat) :
  sorted <> [] ->
  Forall (fun i => (i < length sorted)%nat) (sampled_indices sorted maxPoints).
Proof.
  intros Hne. unfold sampled_indices.
  destruct (fold_left (scan_indices sorted) (seq 0 (length sorted)) (0%nat, 0%nat))
    as [p t] eqn:Hscan.
  destruct (scan_indices_spec sorted p t Hne Hscan) as (Hp & Ht & _).
  assert (0 < length sorted)%nat by (destruct sorted; [done|simpl; lia]).
  repeat apply set_add_below; try done; try lia.
  apply sample_loop_below. constructor.
Qed.

Lemma finalIndices_sublist (sorted : list Agg) (maxPoints : nat) :
  finalIndices sorted maxPoints `sublist_of` sort_by Nat.compare (sampled_indices sorted maxPoints).
Proof.
  rewrite finalIndices_eq. simpl. destruct (_ <? _)%nat; [apply sublist_take|done].
Qed.

Lemma finalIndices_ascending (sorted : list Agg) (maxPoints : nat) :
  StronglySorted lt (finalIndices sorted maxPoints).
Proof.
  eapply StronglySorted_sublist; [apply finalIndices_sublist|].
  apply ascending_of_NoDup.
  - apply sort_by_sorted; [apply nat_compare_flip|apply nat_compare_trans].
  - rewrite sort_by_Permutation. apply sampled_indices_NoDup.
Qed.

Lemma finalIndices_below (sorted : list Agg) (maxPoints : nat) :
  sorted <> [] ->
  Forall (fun i => (i < length sorted)%nat) (finalIndices sorted maxPoints).
Proof.
  intros Hne. eapply Forall_sublist; [apply finalIndices_sublist|].
  rewrite sort_by_Permutation. by apply sampled_indices_below.
Qed.

Lemma finalIndices_length (sorted : list Agg) (maxPoints : nat) :
  (maxPoints < length sorted)%nat -> (length (finalIndices sorted maxPoints) <= maxPoints)%nat.
Proof.
  intros _. rewrite finalIndices_eq. simpl.
  destruct (Nat.ltb_spec maxPoints (length (sort_by Nat.compare (sampled_indices sorted maxPoints)))).
  - rewrite length_take. lia.
  - done.
Qed.

(** *** Records picked by index *)

Lemma omap_lookup_length {A : Type} (l : list A) (idx : list nat) :
  (length (omap (fun i => l !! i) idx) <= length idx)%nat.
Proof.
  induction idx as [|i idx IH]; csimpl; [done|]. destruct (l !! i); csimpl; lia.
Qed.

Lemma omap_lookup_Forall2 {A : Type} (l : list A) (idx : list nat) :
  Forall (fun i => (i < length l)%nat) idx ->
  Forall2 (fun i a => l !! i = Some a) idx (omap (fun i => l !! i) idx).
Proof.
  induction 1 as [|i idx Hi _ IH]; csimpl; [constructor|].
  destruct (lookup_lt_is_Some_2 l i Hi) as [a Ha]. rewrite Ha. by constructor.
Qed.

Lemma omap_lookup_shift {A : Type} (x : A) (l : list A) (idx : list nat) :
  Forall (fun i => (0 < i)%nat) idx ->
  omap (fun i => (x :: l) !! i) idx = omap (fun i => l !! i) (Nat.pred <$> idx).
Proof.
  induction 1 as [|i idx Hi _ IH]; csimpl; [done|].
  destruct i as [|i]; [lia|]. csimpl. by rewrite IH.
Qed.

Lemma ascending_pred (idx : list nat) :
  Forall (fun i => (0 < i)%nat) idx -> StronglySorted lt idx -> StronglySorted lt (Nat.pred <$> idx).
Proof.
  intros Hpos Hsorted. induction Hsorted as [|i idx Hidx IH Hi]; csimpl; [constructor|].
  apply Forall_cons in Hpos as [Hi0 Hpos]. constructor; [by apply IH|].
  apply Forall_fmap. rewrite Forall_forall in *. intros j Hj. csimpl.
  specialize (Hi j Hj). specialize (Hpos j Hj). simpl in Hpos. lia.
Qed.

(** Picking the records at ascending indices gives a sublist. *)
Lemma omap_lookup_sublist {A : Type} (l : list A) (idx : list nat) :
  StronglySorted lt idx -> omap (fun i => l !! i) idx `sublist_of` l.
Proof.
  revert idx. induction l as [|x l IH]; intros idx Hidx.
  - assert (omap (fun i => ([] : list A) !! i) idx = []) as ->; [|done].
    clear Hidx. induction idx as [|i idx IHidx]; [done|]. done.
  - destruct idx as [|i idx]; [apply sublist_nil_l|].
    apply StronglySorted_inv in Hidx as [Hidx Hi].
    assert (Hpos : Forall (fun j => (0 < j)%nat) idx).
    { eapply Forall_impl; [exact Hi|]. csimpl. lia. }
    destruct i as [|i].
    + csimpl. rewrite omap_lookup_shift by done.
      apply sublist_skip, IH. by apply ascending_pred.
    + rewrite (omap_lookup_shift x l (S i :: idx)).
      * apply sublist_cons, IH. apply (ascending_pred (S i :: idx)).
        -- constructor; [lia|done].
        -- by constructor.
      * constructor; [lia|done].
Qed.

(** *** What [downsampleSeries] returns *)

Lemma compare_date_flip (a b : Agg) : compare_date a b = Gt -> compare_date b a <> Gt.
Proof. apply localeCompare_flip. Qed.

Lemma compare_date_trans (a b c : Agg) :
  not_above compare_date a b -> not_above compare_date b c -> not_above compare_date a c.
Proof. apply localeCompare_trans. Qed.

Lemma sorted_by_date (series : list Agg) :
  StronglySorted (not_above compare_date) (sort_by compare_date series).
Proof. apply sort_by_sorted; [apply compare_date_flip|apply compare_date_trans]. Qed.

Lemma downsampleSeries_eq (series : list Agg) (maxPoints : nat) :
  (maxPoints < length series)%nat ->
  downsampleSeries series maxPoints =
  omap (fun i => sort_by compare_date series !! i)
    (finalIndices (sort_by compare_date series) maxPoints).
Proof.
  intros Hlt. unfold downsampleSeries.
  destruct (Nat.leb_spec (length series) maxPoints); [lia|done].
Qed.

Lemma sorted_nonempty (series : list Agg) (maxPoints : nat) :
  (maxPoints < length series)%nat -> sort_by compare_date series <> [].
Proof.
  intros Hlt Hnil. apply (f_equal length) in Hnil.
  rewrite sort_by_length in Hnil. simpl in Hnil. lia.
Qed.

(** The indices [0], [n - 1] and the two found by the scan are in the
    set that is sampled. *)
Lemma sampled_indices_critical (sorted : list Agg) (maxPoints p t : nat) :
  fold_left (scan_indices sorted) (seq 0 (length sorted)) (0%nat, 0%nat) = (p, t) ->
  0%nat ∈ sampled_indices sorted maxPoints /\
  (length sorted - 1)%nat ∈ sampled_indices sorted maxPoints /\
  p ∈ sampled_indices sorted maxPoints /\
  t ∈ sampled_indices sorted maxPoints.
Proof.
  intros Hscan. unfold sampled_indices. rewrite Hscan. simpl.
  rewrite !set_add_elem_of. tauto.
Qed.

Lemma ascending_head (l : list nat) :
  StronglySorted lt l -> 0%nat ∈ l -> head l = Some 0%nat.
Proof.
  intros Hl Hin. destruct l as [|x l]; [by apply elem_of_nil in Hin|].
  apply StronglySorted_inv in Hl as [_ Hx]. simpl. f_equal.
  apply elem_of_cons in Hin as [->|Hin]; [done|].
  rewrite Forall_forall in Hx. specialize (Hx _ Hin). lia.
Qed.

Lemma finalIndices_head (sorted : list Agg) (maxPoints : nat) :
  (1 <= maxPoints)%nat -> head (finalIndices sorted maxPoints) = Some 0%nat.
Proof.
  intros Hm.
  destruct (fold_left (scan_indices sorted) (seq 0 (length sorted)) (0%nat, 0%nat))
    as [p t] eqn:Hscan.
  destruct (sampled_indices_critical sorted maxPoints p t Hscan) as (H0 & _).
  assert (Hhead : head (sort_by Nat.compare (sampled_indices sorted maxPoints)) = Some 0%nat).
  { apply ascending_head.
    - apply ascending_of_NoDup.
      + apply sort_by_sorted; [apply nat_compare_flip|apply nat_compare_trans].
      + rewrite sort_by_Permutation. apply sampled_indices_NoDup.
    - by rewrite sort_by_elem_of. }
  rewrite finalIndices_eq. simpl. destruct (_ <? _)%nat; [|done].
  destruct (sort_by Nat.compare (sampled_indices sorted maxPoints)); [done|].
  destruct maxPoints; [lia|done].
Qed.

(** The order of two records by their date keys. *)
Definition date_not_after (a b : Agg) : Prop := localeCompare (date a) (date b) <> Gt.

Definition date_before (a b : Agg) : Prop := localeCompare (date a) (date b) = Lt.

Lemma distinct_dates_ascend (l : list Agg) :
  StronglySorted date_not_after l -> NoDup (date <$> l) -> StronglySorted date_before l.
Proof.
  induction 1 as [|a l _ IH Ha]; intros Hnd; [constructor|].
  rewrite fmap_cons in Hnd. apply NoDup_cons in Hnd as [Hnotin Hnd].
  constructor; [by apply IH|].
  rewrite Forall_forall in *. intros b Hb. specialize (Ha b Hb).
  unfold date_not_after, date_before, localeCompare in *.
  destruct (String.compare (date a) (date b)) eqn:E; [|done|done].
  apply String.compare_eq_iff in E. exfalso. apply Hnotin.
  rewrite E. apply list_elem_of_fmap. by exists b.
Qed.

(** C10: when a series has more than [maxPoints >= 1] entries, the
    result of [downsampleSeries] is a selection from the series sorted
    by date key.  The sorted series holds the records of the series,
    each as often as the series does, in ascending order of their date
    keys; the result picks records of it at strictly ascending
    positions, so no position is picked twice; it starts with the
    first record, is a sublist of the sorted series and is itself in
    ascending order of the date keys; and if the series repeats no
    date, the dates of the result ascend strictly and none is
    repeated. *)
Theorem downsample_is_ascending_selection (series : list Agg) (maxPoints : nat) :
  (1 <= maxPoints)%nat ->
  (maxPoints < length series)%nat ->
  let sorted := sort_by compare_date series in
  let out := downsampleSeries series maxPoints in
  sorted ≡ₚ series /\
  StronglySorted date_not_after sorted /\
  exists indices : list nat,
    StronglySorted lt indices /\
    Forall2 (fun i a => sorted !! i = Some a) indices out /\
    head out = head sorted /\
    out `sublist_of` sorted /\
    StronglySorted date_not_after out /\
    (NoDup (date <$> series) ->
     StronglySorted date_before out /\ NoDup (date <$> out)).
Proof.
  intros Hm Hlt sorted out.
  assert (Hout : out = omap (fun i => sorted !! i) (finalIndices sorted maxPoints))
    by (by apply downsampleSeries_eq).
  assert (Hne : sorted <> []) by (by eapply sorted_nonempty).
  assert (Hsub : out `sublist_of` sorted).
  { rewrite Hout. apply omap_lookup_sublist, finalIndices_ascending. }
  assert (Hsorted : StronglySorted date_not_after sorted) by apply sorted_by_date.
  assert (Hascending : StronglySorted date_not_after out)
    by (eapply StronglySorted_sublist; [exact Hsub|exact Hsorted]).
  split; [apply sort_by_Permutation|]. split; [done|].
  exists (finalIndices sorted maxPoints). split_and!.
  - apply finalIndices_ascending.
  - rewrite Hout. by apply omap_lookup_Forall2, finalIndices_below.
  - rewrite Hout. pose proof (finalIndices_head sorted maxPoints Hm) as Hhead.
    destruct (finalIndices sorted maxPoints) as [|i idx]; [done|].
    injection Hhead as ->. csimpl. destruct sorted; done.
  - done.
  - done.
  - intros Hnd.
    assert (Hdates : NoDup (date <$> out)).
    { eapply sublist_NoDup; [|by apply fmap_sublist].
      unfold sorted. by rewrite sort_by_Permutation. }
    split; [by apply distinct_dates_ascend|done].
Qed.

(** The general bound on the size of the result. *)
Lemma downsample_at_most (series : list Agg) (maxPoints : nat) :
  (maxPoints < length series)%nat ->
  (length (downsampleSeries series maxPoints) <= maxPoints)%nat.
Proof.
  intros Hlt. rewrite downsampleSeries_eq by done.
  etrans; [apply omap_lookup_length|].
  apply finalIndices_length. by rewrite sort_by_length.
Qed.

(** No record of the series has more clicks than [peak]. *)
Definition has_most_clicks (series : list Agg) (peak : Agg) : Prop :=
  forall a, a ∈ series -> (clicks peak <? clicks a) = false.

(** No record of the series has fewer clicks than [trough]. *)
Definition has_fewest_clicks (series : list Agg) (trough : Agg) : Prop :=
  forall a, a ∈ series -> (clicks a <? clicks trough) = false.








(** *** A series that is cut

    120 days with rising clicks, downsampled to the 60 points that
    [buildInsightsPayload] asks for. *)

Definition day_key (i : nat) : string :=
  "2024-" +:+ String (ascii_of_nat (48 + i / 100))
               (String (ascii_of_nat (48 + (i / 10) mod 10))
                  (String (ascii_of_nat (48 + i mod 10)) EmptyString)).

Definition rising_day (i : nat) : Agg :=
  mkDailyAggregate (day_key (S i)) (number_of_nat (100 + i)) 1000 0 0.

Definition rising_days : list Agg := rising_day <$> seq 0 120.

(** C2, on the code: for [rising_days] and [maxPoints = 60] the step is
    2, the sampled indices [0, 2, ..., 118] already fill the 60 places,
    and cutting the sorted indices to the first 60 removes index 119:
    the last day, which is also the day with the most clicks, is not in
    the result. *)
Theorem downsample_drops_last_day :
  let sorted := sort_by compare_date rising_days in
  let out := downsampleSeries rising_days 60 in
  last sorted = Some (rising_day 119) /\
  has_most_clicks rising_days (rising_day 119) /\
  length out = 60%nat /\
  date <$> out = (fun k => day_key (S (2 * k))) <$> seq 0 60 /\
  date (rising_day 119) ∉ date <$> out.
Proof.
  intros sorted out.
  assert (Hdates : date <$> out = (fun k => day_key (S (2 * k))) <$> seq 0 60)
    by (vm_compute; reflexivity).
  split_and!.
  - vm_compute. reflexivity.
  - intros a Ha. unfold rising_days in Ha.
    apply list_elem_of_fmap in Ha as (i & -> & Hi). apply elem_of_seq in Hi.
    assert (Hall : forallb (fun i => negb (clicks (rising_day 119) <? clicks (rising_day i)))
                     (seq 0 120) = true) by (vm_compute; reflexivity).
    rewrite forallb_forall in Hall. specialize (Hall i).
    rewrite negb_true_iff in Hall. apply Hall. apply in_seq. lia.
  - vm_compute. reflexivity.
  - exact Hdates.
  - rewrite Hdates. apply (bool_decide_unpack _). vm_compute. reflexivity.
Qed.

Lemma downsample_is_ascending_selection_witness :
  let sorted := sort_by compare_date rising_days in
  let out := downsampleSeries rising_days 60 in
  sorted ≡ₚ rising_days /\
  StronglySorted date_not_after sorted /\
  exists indices : list nat,
    StronglySorted lt indices /\
    Forall2 (fun i a => sorted !! i = Some a) indices out /\
    head out = head sorted /\
    out `sublist_of` sorted /\
    StronglySorted date_not_after out /\
    (NoDup (date <$> rising_days) ->
     StronglySorted date_before out /\ NoDup (date <$> out)).
Proof.
  apply (downsample_is_ascending_selection rising_days 60).
  - lia.
  - vm_compute. lia.
Defined.



(** *** Anomalies *)

(** The z-score of a record within a series. *)
Definition z_score (series : list Agg) (agg : Agg) : float :=
  (clicks agg - clicks_mean series) / clicks_stdDev series.

(** The record lies more than two standard deviations from the mean. *)
Definition beyond_two (series : list Agg) (agg : Agg) : bool :=
  2 <? PrimFloat.abs (z_score series agg).

Definition anomaly_of (series : list Agg) (agg : Agg) : Anomaly :=
  mkAnomaly (date agg) (clicks agg) (z_score series agg).

Lemma fold_flag_anomaly (series l : list Agg) (found : list Anomaly) :
  fold_left (flag_anomaly (clicks_mean series) (clicks_stdDev series)) l found =
  found ++ (anomaly_of series <$> filter (fun agg => beyond_two series agg) l).
Proof.
  revert found. induction l as [|agg l IH]; intros found; simpl.
  - by rewrite app_nil_r.
  - rewrite IH, filter_cons. unfold flag_anomaly.
    change ((clicks agg - clicks_mean series) / clicks_stdDev series) with (z_score series agg).
    change (2 <? PrimFloat.abs (z_score series agg)) with (beyond_two series agg).
    destruct (beyond_two series agg) eqn:E.
    + rewrite decide_True by done. by rewrite <- app_assoc.
    + rewrite decide_False by (by intros []). done.
Qed.

Module Anomalies.
Import Statistics WholeNumbers.

Lemma clicks_mean_eq (series : list Agg) : clicks_mean series = mean (map clicks series).
Proof. reflexivity. Qed.

Lemma clicks_stdDev_eq (series : list Agg) :
  clicks_stdDev series = population_stddev (map clicks series).
Proof. reflexivity. Qed.

(** The anomaly that is reported for a record. *)
Definition scored (series : list Agg) (agg : Agg) : Anomaly :=
  mkAnomaly (date agg) (clicks agg) (standard_score (map clicks series) (clicks agg)).

(** The standard score of the record is above 2 in absolute value. *)
Definition beyond (series : list Agg) (agg : Agg) : bool :=
  2 <? PrimFloat.abs (standard_score (map clicks series) (clicks agg)).

(** C7, as amended: the statistics are computed in binary64.  No
    anomaly is reported for a series of fewer than three records, nor
    for one whose population standard deviation of clicks comes out as
    zero; for every other series the anomalies are, in the order of
    the series, exactly the records whose standard score is above 2 in
    absolute value, each with its date, its clicks and its score. *)
Theorem detectAnomalies_spec (series : list Agg) :
  let xs := map clicks series in
  ((length series < 3)%nat -> detectAnomalies series = []) /\
  ((population_stddev xs =? 0) = true -> detectAnomalies series = []) /\
  ((3 <= length series)%nat -> (population_stddev xs =? 0) = false ->
   detectAnomalies series =
   scored series <$> filter (fun agg => beyond series agg) series).
Proof.
  intros xs. unfold detectAnomalies. split_and!.
  - intros Hlen. by destruct (Nat.ltb_spec (length series) 3); [|lia].
  - unfold xs. rewrite <- clicks_stdDev_eq. intros ->. by destruct (_ <? _)%nat.
  - unfold xs. rewrite <- clicks_stdDev_eq. intros Hlen ->.
    destruct (Nat.ltb_spec (length series) 3); [lia|].
    apply fold_flag_anomaly.
Qed.

Definition day (d : string) (c : float) : Agg := mkDailyAggregate d c 1000 0 0.

(** Nine days of 100 clicks and a day of 1000: mean 190, standard
    deviation 270, and the last day scores 3. *)
Definition ten_days : list Agg :=
  [ day "2024-01-01" 100; day "2024-01-02" 100; day "2024-01-03" 100; day "2024-01-04" 100;
    day "2024-01-05" 100; day "2024-01-06" 100; day "2024-01-07" 100; day "2024-01-08" 100;
    day "2024-01-09" 100; day "2024-01-10" 1000 ].

Lemma detectAnomalies_spec_witness :
  detectAnomalies ten_days = [mkAnomaly "2024-01-10" 1000 3].
Proof.
  destruct (detectAnomalies_spec ten_days) as (_ & _ & Hflagged).
  rewrite Hflagged.
  - reflexivity.
  - vm_compute. lia.
  - reflexivity.
Defined.

(** Four days without clicks and a day of 109. *)
Definition one_spike : list Agg :=
  [ day "2024-01-01" 0; day "2024-01-02" 0; day "2024-01-03" 0; day "2024-01-04" 0;
    day "2024-01-05" 109 ].

Lemma one_spike_exact :
  (population_stddev (IZR <$> [0; 0; 0; 0; 109]%Z) = 218 / 5 /\
   standard_score (IZR <$> [0; 0; 0; 0; 109]%Z) (IZR 109) = 2)%R.
Proof.
  assert (Hmean : (mean (IZR <$> [0; 0; 0; 0; 109]%Z) = 109 / 5)%R).
  { unfold mean, total. simpl. lra. }
  assert (Hdev : (population_stddev (IZR <$> [0; 0; 0; 0; 109]%Z) = 218 / 5)%R).
  { unfold population_stddev. rewrite Hmean. unfold total, squared_difference. simpl.
    replace (_ / _)%R with ((218 / 5) * (218 / 5))%R by lra.
    apply sqrt_square. lra. }
  split; [done|]. unfold standard_score. rewrite Hmean, Hdev. simpl. lra.
Qed.

(** C7, as stated, fails when the standard score is read in exact
    arithmetic: in [one_spike] the score of the last day is exactly 2,
    which is not above 2, but in binary64 it comes out just above 2
    and the day is reported. *)
Lemma exact_score_not_flagged :
  ~ (forall (series : list Agg) (cs : list Z),
       map clicks series = map of_count cs ->
       (3 <= length series)%nat ->
       population_stddev (IZR <$> cs) <> 0%R ->
       forall (i : nat) (agg : Agg) (c : Z),
         series !! i = Some agg -> cs !! i = Some c ->
         (exists z, mkAnomaly (date agg) (clicks agg) z ∈ detectAnomalies series) <->
         (2 < Rabs (standard_score (IZR <$> cs) (IZR c)))%R).
Proof.
  intros Hclaim. destruct one_spike_exact as [Hdev Hscore].
  specialize (Hclaim one_spike [0; 0; 0; 0; 109]%Z eq_refl ltac:(simpl; lia)).
  rewrite Hdev in Hclaim.
  specialize (Hclaim ltac:(lra) 4%nat (day "2024-01-05" 109) 109%Z eq_refl eq_refl).
  rewrite Hscore in Hclaim. destruct Hclaim as [Hflag _].
  assert (Hlt : (2 < Rabs 2)%R).
  { apply Hflag. exists 0x1.0000000000001p+1.
    change (detectAnomalies one_spike) with [mkAnomaly "2024-01-05" 109 0x1.0000000000001p+1].
    apply list_elem_of_here. }
  rewrite Rabs_right in Hlt by lra. lra.
Qed.

End Anomalies.

(** *** The five-day scenario *)

Lemma insert_by_first {A : Type} (cmp : A -> A -> comparison) (x : A) (l : list A) :
  Forall (not_above cmp x) l -> insert_by cmp x l = x :: l.
Proof.
  destruct 1 as [|y l Hy _]; simpl; [done|].
  unfold not_above in Hy. by destruct (cmp x y).
Qed.

(** Sorting a list that is in order already returns it. *)
Lemma sort_by_sorted_id {A : Type} (cmp : A -> A -> comparison) (l : list A) :
  StronglySorted (not_above cmp) l -> sort_by cmp l = l.
Proof.
  induction 1 as [|x l _ IH Hx]; simpl; [done|].
  rewrite IH. by apply insert_by_first.
Qed.

Definition five_days : list Agg :=
  [ mkDailyAggregate "2024-01-01" 100 1000 0 0;
    mkDailyAggregate "2024-01-02" 120 1000 0 0;
    mkDailyAggregate "2024-01-03" 90 1000 0 0;
    mkDailyAggregate "2024-01-04" 400 1000 0 0;
    mkDailyAggregate "2024-01-05" 110 1000 0 0 ].

(** C4, as stated, fails in its last part: on [five_days] no anomaly is
    reported for day 4. *)
Lemma day_four_not_flagged :
  ~ (exists anomaly, anomaly ∈ detectAnomalies five_days /\ anomaly_date anomaly = "2024-01-04").
Proof.
  intros (anomaly & Hin & _).
  assert (Hnone : detectAnomalies five_days = []) by (vm_compute; reflexivity).
  rewrite Hnone in Hin. by apply elem_of_nil in Hin.
Qed.

(** C4, as amended: for five days in date order with clicks
    [100, 120, 90, 400, 110], the peak is day 4 with 400 clicks, the
    trough day 3 with 90, the biggest rise +310 ending on day 4 and the
    biggest fall -290 ending on day 5; the mean is 164, the population
    standard deviation is the square root of 14024 (about 118.4), the
    z-score of day 4 is below 2, and no day is reported as an anomaly. *)
Theorem five_day_summary (series : list Agg) (day3 day4 day5 : Agg) :
  clicks <$> series = [100; 120; 90; 400; 110] ->
  StronglySorted (not_above compare_date) series ->
  series !! 2%nat = Some day3 ->
  series !! 3%nat = Some day4 ->
  series !! 4%nat = Some day5 ->
  let found := calculateTrends series in
  peakDay found = mkDayClicks (date day4) 400 /\
  troughDay found = mkDayClicks (date day3) 90 /\
  biggestSpike found = mkDayChange (date day4) 310 /\
  biggestDrop found = mkDayChange (date day5) (-290) /\
  clicks_mean series = 164 /\
  clicks_stdDev series = PrimFloat.sqrt 14024 /\
  (PrimFloat.abs (z_score series day4) <? 2) = true /\
  detectAnomalies series = [].
Proof.
  intros Hclicks Hsorted H3 H4 H5 found.
  destruct series as [|[d1 c1 i1 r1 p1] [|[d2 c2 i2 r2 p2] [|[d3 c3 i3 r3 p3]
    [|[d4 c4 i4 r4 p4] [|[d5 c5 i5 r5 p5] [|]]]]]]; try discriminate Hclicks.
  injection Hclicks as -> -> -> -> ->.
  injection H3 as <-. injection H4 as <-. injection H5 as <-.
  unfold found, calculateTrends. rewrite (sort_by_sorted_id _ _ Hsorted).
  split_and!; vm_compute; reflexivity.
Qed.

Lemma five_day_summary_witness :
  peakDay (calculateTrends five_days) = mkDayClicks "2024-01-04" 400 /\
  detectAnomalies five_days = [].
Proof.
  destruct (five_day_summary five_days
              (mkDailyAggregate "2024-01-03" 90 1000 0 0)
              (mkDailyAggregate "2024-01-04" 400 1000 0 0)
              (mkDailyAggregate "2024-01-05" 110 1000 0 0))
    as (Hpeak & _ & _ & _ & _ & _ & _ & Hnone).
  - reflexivity.
  - repeat constructor; vm_compute; discriminate.
  - reflexivity.
  - reflexivity.
  - reflexivity.
  - split; [exact Hpeak|exact Hnone].
Defined.

End InsightsSpec.


(** ** The rate limiter *)

Import FloatFacts.

Module SecuritySpec.
Import Security.
Local Open Scope float_scope.

Lemma leb_of_ltb (x y : float) : (x <? y) = true -> (y <=? x) = false.
Proof.
  rewrite ltb_spec, leb_spec. unfold SFltb, SFleb.
  destruct (Prim2SF x) as [[]|[]| |[] mx ex], (Prim2SF y) as [[]|[]| |[] my ey];
    simpl; try discriminate; try reflexivity;
    rewrite ?Pos.compare_cont_spec; simpl;
    compare_cases; simpl; try discriminate; try reflexivity; lia.
Qed.

Lemma Math_min_capped (a b : float) : (a <? Math_min a b) = false.
Proof.
  unfold Math_min. destruct (PrimFloat.is_nan a || PrimFloat.is_nan b)%bool.
  - apply ltb_nan_r.
  - destruct (b <? a) eqn:Hba; [by apply ltb_asym|apply ltb_irrefl].
Qed.

(** The limiter is set up as [insightsRateLimiter] is: ten tokens, ten
    per minute. *)
Definition configured (rl : RateLimiter) : Prop :=
  maxTokens rl = 10 /\ refillRate rl = 10 / 60000.

(** The bucket of a caller after a check that found [available] tokens. *)
Definition bucket_after (available now : float) : Bucket :=
  if 1 <=? available then mkBucket (available - 1) now else mkBucket available now.

Lemma checkLimit_eq (now : float) (identifier : string) (rl : RateLimiter) :
  checkLimit now identifier rl =
  (1 <=? refilled now identifier rl,
   mkRateLimiter
     (<[identifier := bucket_after (refilled now identifier rl) now]> (buckets rl))
     (maxTokens rl) (refillRate rl)).
Proof. unfold checkLimit, bucket_after. by destruct (1 <=? _). Qed.

Lemma checkLimit_configured (now : float) (identifier : string) (rl : RateLimiter) :
  configured rl -> configured (checkLimit now identifier rl).2.
Proof. rewrite checkLimit_eq. by intros []. Qed.

(** What a caller whose bucket holds [k] tokens gets from one more check
    at the instant of its last one. *)
Definition same_instant (k : float) : bool * float :=
  let available := Math_min 10 (k + 0 * (10 / 60000)) in
  (1 <=? available, if 1 <=? available then available - 1 else available).

Fixpoint same_instant_run (count : nat) (k : float) : list bool :=
  match count with
  | O => []
  | S count' => (same_instant k).1 :: same_instant_run count' (same_instant k).2
  end.

Lemma refilled_same_instant (now k : float) (identifier : string) (rl : RateLimiter) :
  is_finite now = true -> configured rl ->
  buckets rl !! identifier = Some (mkBucket k now) ->
  refilled now identifier rl = Math_min 10 (k + 0 * (10 / 60000)).
Proof.
  intros Hnow [Hmax Hrate] Hbucket. unfold refilled.
  rewrite Hbucket, Hmax, Hrate. simpl. by rewrite sub_diag.
Qed.

Lemma refilled_fresh (now : float) (identifier : string) (rl : RateLimiter) :
  is_finite now = true -> configured rl ->
  buckets rl !! identifier = None ->
  refilled now identifier rl = 10.
Proof.
  intros Hnow [Hmax Hrate] Hbucket. unfold refilled.
  rewrite Hbucket, Hmax, Hrate. simpl. by rewrite sub_diag.
Qed.

Lemma checks_S (count : nat) (now : float) (identifier : string) (rl : RateLimiter) :
  (checks (S count) now identifier rl).1 =
  (checkLimit now identifier rl).1 ::
  (checks count now identifier (checkLimit now identifier rl).2).1.
Proof.
  cbn [checks]. destruct (checkLimit now identifier rl) as [allowed rl']. cbn [fst snd].
  by destruct (checks count now identifier rl').
Qed.

Lemma checks_same_instant (count : nat) (now k : float) (identifier : string)
    (rl : RateLimiter) :
  is_finite now = true -> configured rl ->
  buckets rl !! identifier = Some (mkBucket k now) ->
  (checks count now identifier rl).1 = same_instant_run count k.
Proof.
  intros Hnow. revert k rl. induction count as [|count IH]; intros k rl Hrl Hbucket; [done|].
  rewrite checks_S, checkLimit_eq. cbn [fst snd same_instant_run].
  rewrite (refilled_same_instant now k identifier rl) by done.
  f_equal. apply IH.
  - by destruct Hrl.
  - simpl. rewrite lookup_insert_eq. unfold bucket_after, same_instant. simpl.
    by destruct (1 <=? _).
Qed.

Import WholeNumbers.

(** *** The refill over time *)

(** What a caller whose bucket is empty gets from a check that comes
    [elapsed] milliseconds after its last one: the tokens found, and
    whether the check is admitted. *)
Definition after_empty (elapsed : Z) : float * bool :=
  let available := Math_min 10 (0 + of_count elapsed * (10 / 60000)) in
  (available, 1 <=? available).

(** One token is there again after 6000 ms and not before, and the
    bucket is full after 60000 ms. *)
Definition on_schedule (elapsed : Z) : bool :=
  (Bool.eqb (after_empty elapsed).2 (6000 <=? elapsed)%Z &&
   ((elapsed <? 60000)%Z || ((after_empty elapsed).1 =? 10)))%bool.

(** [test] holds of the [n] whole numbers from [e] on. *)
Fixpoint all_from (test : Z -> bool) (e : Z) (n : nat) : bool :=
  match n with
  | O => true
  | S n' => test e && all_from test (e + 1)%Z n'
  end.

Lemma all_from_spec (test : Z -> bool) (n : nat) (lo e : Z) :
  all_from test lo n = true -> (lo <= e < lo + Z.of_nat n)%Z -> test e = true.
Proof.
  revert lo. induction n as [|n IH]; intros lo Hall He; [lia|].
  simpl in Hall. apply andb_true_iff in Hall as [Hlo Hall].
  destruct (decide (e = lo)) as [->|Hne]; [done|]. apply (IH (lo + 1)%Z); [done|lia].
Qed.

Lemma first_minute_on_schedule : all_from on_schedule 0 (Z.to_nat 60001) = true.
Proof. vm_compute. reflexivity. Qed.

Lemma refill_schedule (elapsed : Z) :
  (0 <= elapsed <= 60000)%Z ->
  (after_empty elapsed).2 = (6000 <=? elapsed)%Z /\
  (elapsed = 60000%Z -> (after_empty elapsed).1 = 10).
Proof.
  intros He.
  assert (Hok : on_schedule elapsed = true).
  { apply (all_from_spec on_schedule (Z.to_nat 60001) 0); [apply first_minute_on_schedule|].
    rewrite Z2Nat.id by lia. lia. }
  unfold on_schedule in Hok. apply andb_true_iff in Hok as [Hadmit Hfull].
  apply Bool.eqb_prop in Hadmit. split; [done|]. intros ->. reflexivity.
Qed.

Lemma is_finite_not_nan (x : float) : is_finite x = true -> PrimFloat.is_nan x = false.
Proof. unfold is_finite. by destruct (PrimFloat.is_nan x). Qed.

(** C9: the bucket of a caller holds at most ten tokens.  On each
    check it is first refilled with the tokens due for the time since
    the caller's last check, ten per minute (one per 6000 ms), up to
    ten in all; a new caller starts with ten.  The check is admitted
    exactly when at least one token is there after the refill, in
    which case it takes exactly one token, and it is rejected when
    fewer than one is there, in which case it takes none; either way
    the bucket is stamped with the time of the check, and the buckets
    of other callers are not touched.  The first check of a new caller
    is admitted, and of eleven checks that a new caller makes at one
    instant the first ten are admitted and the eleventh is rejected.
    On a clock of whole milliseconds, a caller whose bucket is empty
    is rejected at a check that comes less than 6000 ms after its last
    one and admitted at a check that comes 6000 ms to 60000 ms after
    it, and after 60000 ms it finds its bucket full. *)
Theorem checkLimit_token_bucket (now : float) (identifier : string) (rl : RateLimiter) :
  is_finite now = true ->
  configured rl ->
  let bucket := default (mkBucket 10 now) (buckets rl !! identifier) in
  let elapsed := now - lastRefill bucket in
  let available := Math_min 10 (tokens bucket + elapsed * (10 / 60000)) in
  let '(allowed, rl') := checkLimit now identifier rl in
  (10 <? available) = false /\
  allowed = (1 <=? available) /\
  ((available <? 1) = true -> allowed = false) /\
  buckets rl' !! identifier =
    Some (mkBucket (if allowed then available - 1 else available) now) /\
  (forall other, other <> identifier -> buckets rl' !! other = buckets rl !! other) /\
  configured rl' /\
  (buckets rl !! identifier = None ->
   allowed = true /\ available = 10 /\
   (checks 11 now identifier rl).1 = replicate 10 true ++ [false]) /\
  (forall last passed : Z,
     (0 <= last)%Z -> (0 <= passed <= 60000)%Z -> (last + passed <= max_safe)%Z ->
     now = of_count (last + passed) ->
     buckets rl !! identifier = Some (mkBucket 0 (of_count last)) ->
     elapsed = of_count passed /\
     (allowed = true <-> (6000 <= passed)%Z) /\
     (passed = 60000%Z -> available = 10)).
Proof.
  intros Hnow Hrl bucket elapsed available.
  assert (Havailable : refilled now identifier rl = available).
  { destruct Hrl as [Hmax Hrate]. unfold refilled, available, elapsed, bucket.
    rewrite Hmax, Hrate. by destruct (buckets rl !! identifier). }
  rewrite checkLimit_eq, Havailable. split_and!.
  - apply Math_min_capped.
  - done.
  - apply leb_of_ltb.
  - simpl. rewrite lookup_insert_eq. unfold bucket_after. by destruct (1 <=? available).
  - intros other Hother. simpl. by rewrite lookup_insert_ne.
  - by destruct Hrl.
  - intros Hfresh.
    assert (Hten : available = 10) by (rewrite <- Havailable; by apply refilled_fresh).
    rewrite Hten. split_and!; [done|done|].
    rewrite checks_S, checkLimit_eq, Havailable, Hten. cbn [fst snd].
    rewrite (checks_same_instant 10 now 9 identifier).
    + vm_compute. reflexivity.
    + done.
    + by destruct Hrl.
    + simpl. by rewrite lookup_insert_eq.
  - intros last passed Hlast Hpassed Hsafe Hclock Hbucket.
    assert (Helapsed : elapsed = of_count passed).
    { unfold elapsed, bucket. rewrite Hbucket, Hclock. simpl.
      rewrite of_count_sub by lia. f_equal. lia. }
    assert (Hfound : available = (after_empty passed).1).
    { unfold available. fold elapsed. rewrite Helapsed. unfold bucket. by rewrite Hbucket. }
    destruct (refill_schedule passed Hpassed) as [Hadmit Hfull].
    split_and!; [done| |by rewrite Hfound].
    rewrite Hfound. change (1 <=? (after_empty passed).1) with (after_empty passed).2.
    rewrite Hadmit. apply Z.leb_le.
Qed.

(** A new caller makes eleven checks at one instant: ten are admitted
    and the bucket is empty.  A check 5999 ms later is rejected, a
    check 6000 ms later is admitted. *)
Definition after_burst : RateLimiter :=
  (checks 10 1700000000000 "203.0.113.7" insightsRateLimiter).2.

Lemma checkLimit_token_bucket_witness :
  (checks 11 1700000000000 "203.0.113.7" insightsRateLimiter).1 = replicate 10 true ++ [false] /\
  (checkLimit 1700000005999 "203.0.113.7" after_burst).1 = false /\
  (checkLimit 1700000006000 "203.0.113.7" after_burst).1 = true.
Proof.
  split_and!.
  - pose proof (checkLimit_token_bucket 1700000000000 "203.0.113.7" insightsRateLimiter)
      as Hcheck.
    destruct (checkLimit 1700000000000 "203.0.113.7" insightsRateLimiter) as [allowed rl'].
    destruct Hcheck as (_ & _ & _ & _ & _ & _ & Hfresh & _).
    + vm_compute. reflexivity.
    + split; reflexivity.
    + apply Hfresh. reflexivity.
  - pose proof (checkLimit_token_bucket 1700000005999 "203.0.113.7" after_burst) as Hcheck.
    destruct (checkLimit 1700000005999 "203.0.113.7" after_burst) as [allowed rl'].
    destruct Hcheck as (_ & _ & _ & _ & _ & _ & _ & Hlater).
    + vm_compute. reflexivity.
    + split; reflexivity.
    + destruct (Hlater 1700000000000%Z 5999%Z) as (_ & Hadmit & _);
        [lia|lia|vm_compute; discriminate|reflexivity|reflexivity|].
      simpl. destruct allowed; [|done]. destruct Hadmit as [Hadmit _]. specialize (Hadmit eq_refl).
      lia.
  - pose proof (checkLimit_token_bucket 1700000006000 "203.0.113.7" after_burst) as Hcheck.
    destruct (checkLimit 1700000006000 "203.0.113.7" after_burst) as [allowed rl'].
    destruct Hcheck as (_ & _ & _ & _ & _ & _ & _ & Hlater).
    + vm_compute. reflexivity.
    + split; reflexivity.
    + destruct (Hlater 1700000000000%Z 6000%Z) as (_ & Hadmit & _);
        [lia|lia|vm_compute; discriminate|reflexivity|reflexivity|].
      simpl. apply Hadmit. lia.
Defined.

End SecuritySpec.


(** ** The row ingestor *)

Module CsvParserSpec.
Import CsvParser.

(** The record repeats the header line. *)
Definition duplicate_header (record : ParsedRecord) : bool :=
  bool_decide (rec_analytics_date record = Some "analytics_date").

(** The record is counted as an error: it has no date key. *)
Definition date_error (record : ParsedRecord) : bool :=
  negb (duplicate_header record) && missing_date (rec_analytics_date record).

(** The record is not yielded. *)
Definition skipped (record : ParsedRecord) : bool :=
  duplicate_header record || date_error record.

Definition date_errors (rs : list ParsedRecord) : nat :=
  length (List.filter date_error rs).

Section WithNumber.
Context {T : Type} `{Number T} (parseFloat : string -> T).

Lemma process_skipped (st : LoopState T) (rs : list ParsedRecord) :
  Forall (fun record => skipped record = true) rs ->
  (errorCount st + date_errors rs <= maxErrors)%nat ->
  process_records parseFloat st rs =
  (mkLoopState (rowCount st + length rs) (errorCount st + date_errors rs) (output st), None).
Proof.
  intros Hrs. revert st. induction Hrs as [|record rs Hskip _ IH]; intros st Hbudget.
  - unfold date_errors. simpl. rewrite !Nat.add_0_r. by destruct st.
  - unfold date_errors in *. cbn [process_records List.filter length] in *.
    unfold process_record, skipped, date_error, duplicate_header in *.
    destruct (bool_decide (rec_analytics_date record = Some "analytics_date")); simpl in *.
    + rewrite IH by (simpl; lia). simpl. f_equal. f_equal; lia.
    + rewrite Hskip in *. simpl in *.
      destruct (Nat.ltb_spec maxErrors (S (errorCount st))); [lia|].
      rewrite IH by (simpl; lia). simpl. f_equal. f_equal; lia.
Qed.

(** C6, on the code: a stream that delivers at least one record, all of
    them repeated headers or records without a date key, the latter
    within the error budget, ends normally and yields nothing: the
    check before the end of the generator looks at the number of
    records read, not at the number yielded. *)
Theorem all_skipped_ends_normally (filePath : string) (rs : list ParsedRecord) :
  rs <> [] ->
  Forall (fun record => skipped record = true) rs ->
  (date_errors rs <= maxErrors)%nat ->
  streamParseCSV parseFloat filePath (mkParserRun rs None) = mkRowStream [] None.
Proof.
  intros Hne Hrs Hbudget. unfold streamParseCSV. cbn [records io_error].
  rewrite process_skipped by done. cbn [rowCount errorCount output].
  destruct rs; [done|]. done.
Qed.

End WithNumber.

Definition header_again : ParsedRecord :=
  mkParsedRecord (Some "analytics_date") (Some "keyword") (Some "page_url") (Some "clicks")
    (Some "impressions") (Some "ctr") (Some "position") (Some "analytics_type") (Some "device").

Definition no_date : ParsedRecord :=
  mkParsedRecord (Some "") (Some "shoes") (Some "/shoes") (Some "3")
    (Some "40") (Some "0.075") (Some "4.2") (Some "web") (Some "mobile").

Lemma all_skipped_ends_normally_witness :
  streamParseCSV (T := float) (fun _ => PrimFloat.nan) "data.csv"
    (mkParserRun [header_again; no_date] None) = mkRowStream [] None.
Proof.
  apply all_skipped_ends_normally.
  - discriminate.
  - repeat constructor.
  - vm_compute. lia.
Defined.

End CsvParserSpec.


(** ** The rebuild coordinator *)

Module DataCacheSpec.
Import DataCache.

(** *** Sums over the calls *)

Section Totals.
Context {A : Type} (f : A -> nat).

Definition total (l : list A) : nat := sum_list (f <$> l).

Lemma total_insert (l : list A) (i : nat) (x y : A) :
  l !! i = Some x -> total (<[i := y]> l) + f x = total l + f y.
Proof.
  unfold total. revert i. induction l as [|z l IH]; intros [|i] Hi; simplify_eq/=; [lia|].
  specialize (IH i Hi). lia.
Qed.

Lemma total_zero (l : list A) : total l = 0 -> Forall (fun x => f x = 0) l.
Proof.
  unfold total. induction l as [|z l IH]; csimpl; intros Hsum; constructor; [lia|].
  apply IH. lia.
Qed.

Lemma total_pos (l : list A) : 0 < total l -> exists i x, l !! i = Some x /\ 0 < f x.
Proof.
  unfold total. induction l as [|z l IH]; csimpl; intros Hsum; [lia|].
  destruct (decide (0 < f z)) as [Hz|Hz].
  - by exists 0, z.
  - destruct IH as (i & x & Hi & Hx); [lia|]. by exists (S i), x.
Qed.

Lemma total_lookup (l : list A) (i : nat) (x : A) : l !! i = Some x -> f x <= total l.
Proof.
  unfold total. revert i. induction l as [|z l IH]; intros [|i] Hi; simplify_eq/=; [lia|].
  specialize (IH i Hi). lia.
Qed.

Lemma total_bound (l : list A) (b : nat) : (forall x, f x <= b) -> total l <= b * length l.
Proof.
  intros Hb. unfold total. induction l as [|z l IH]; csimpl; [lia|].
  specialize (Hb z). lia.
Qed.

End Totals.

Lemma total_fmap {A : Type} (f : A -> nat) (g : A -> A) (l : list A) :
  (forall x, f (g x) = f x) -> total f (g <$> l) = total f l.
Proof.
  intros Hfg. unfold total. induction l as [|z l IH]; csimpl; [done|]. by rewrite Hfg, IH.
Qed.

Lemma total_le {A : Type} (f g : A -> nat) (l : list A) :
  (forall x, f x <= g x) -> total f l <= total g l.
Proof.
  intros Hfg. unfold total. induction l as [|z l IH]; csimpl; [done|].
  specialize (Hfg z). lia.
Qed.

Section Rebuild.
Context {Data : Type} (reparse : Data -> Data) (aggs : Data).

(** The program when the rebuild succeeds with [aggs] and the cache
    file can be written. *)
Definition run (i : nat) (s : State Data) : option (State Data) :=
  run_call (Ok aggs) None reparse i s.

Definition steps (s s' : State Data) : Prop := step (Ok aggs) None reparse s s'.

(** *** What is counted *)

(** The call is inside [withCacheLock]. *)
Definition holds_lock (c : Call Data) : nat :=
  match c with
  | LockedReadCache | LockedAfterRead _ | Building | Writing _ => 1
  | _ => 0
  end.

(** The call has started an ingestion pass and has not written its
    result yet. *)
Definition rebuilding (c : Call Data) : nat :=
  match c with
  | Building | Writing _ => 1
  | _ => 0
  end.

Definition pending (c : Call Data) : nat :=
  match c with
  | Returned _ => 0
  | _ => 1
  end.

(** How far a call is from its end, at most. *)
Definition distance (c : Call Data) : nat :=
  match c with
  | ReadCache => 8
  | AfterRead _ => 7
  | Acquire => 6
  | Waiting => 5
  | LockedReadCache => 4
  | LockedAfterRead _ => 3
  | Building => 2
  | Writing _ => 1
  | Returned _ => 0
  end.

(** A measure that every step lowers: the calls still running come
    first, the distances of the calls second. *)
Definition measure (s : State Data) : nat :=
  total pending (calls s) * (9 * length (calls s) + 1) + total distance (calls s).

(** *** The invariant *)

(** What is known of a call, given the lock and the cache. *)
Definition call_ok (lock : bool) (file : option Data) (c : Call Data) : Prop :=
  match c with
  | Waiting => lock = true
  | AfterRead (Some cached) => cached = reparse aggs /\ file = Some (reparse aggs)
  | LockedAfterRead cachedAfterLock => cachedAfterLock = file
  | Building => file = None
  | Writing aggregates => aggregates = aggs /\ file = None
  | Returned r => file = Some (reparse aggs)
  | _ => True
  end.

(** Call [b] has returned the collection that it built, and every
    other call that has returned has returned what it read from the
    file. *)
Definition built_by (b : nat) (l : list (Call Data)) : Prop :=
  l !! b = Some (Returned (Ok aggs)) /\
  forall j r, j <> b -> l !! j = Some (Returned r) -> r = Ok (reparse aggs).

Record invariant (s : State Data) : Prop := mkInvariant {
  inv_lock : total holds_lock (calls s) = if locked s then 1 else 0;
  inv_calls : Forall (call_ok (locked s) (cache s)) (calls s);
  inv_cache : cache s = None \/ cache s = Some (reparse aggs);
  inv_ingestions :
    ingestions s = match cache s with Some _ => 1 | None => total rebuilding (calls s) end;
  inv_builder : cache s <> None -> exists b, built_by b (calls s)
}.

Lemma rebuilding_holds (l : list (Call Data)) : total rebuilding l <= total holds_lock l.
Proof. apply total_le. intros []; simpl; lia. Qed.

Lemma total_replicate {A : Type} (f : A -> nat) (n : nat) (x : A) :
  total f (replicate n x) = n * f x.
Proof. unfold total. by rewrite fmap_replicate, sum_list_replicate. Qed.

Lemma invariant_initial (n : nat) : invariant (initial n).
Proof.
  split; simpl.
  - rewrite total_replicate. simpl. lia.
  - by apply Forall_replicate.
  - by left.
  - rewrite total_replicate. simpl. lia.
  - done.
Qed.

(** The other calls do not hold the lock. *)
Lemma others_do_not_hold (l : list (Call Data)) (i : nat) (c c' : Call Data) :
  total holds_lock l <= 1 -> l !! i = Some c -> holds_lock c = 1 -> holds_lock c' = 0 ->
  Forall (fun x => holds_lock x = 0) (<[i := c']> l).
Proof.
  intros Hone Hi Hc Hc'. apply total_zero.
  pose proof (total_insert holds_lock l i c c' Hi). lia.
Qed.

Lemma wake_holds (c : Call Data) : holds_lock (wake c) = holds_lock c.
Proof. by destruct c. Qed.

Lemma wake_rebuilding (c : Call Data) : rebuilding (wake c) = rebuilding c.
Proof. by destruct c. Qed.

Lemma wake_pending (c : Call Data) : pending (wake c) = pending c.
Proof. by destruct c. Qed.

Lemma release_calls (l : list (Call Data)) (i : nat) (r : result Data) :
  <[i := Returned r]> (wake <$> l) = wake <$> <[i := Returned r]> l.
Proof. by rewrite list_fmap_insert. Qed.

(** The state of the calls after a release. *)
Lemma release_ok (l : list (Call Data)) (i : nat) (c : Call Data) (r : result Data)
    (lock : bool) (file file' : option Data) :
  total holds_lock l <= 1 -> l !! i = Some c -> holds_lock c = 1 ->
  Forall (call_ok lock file) l ->
  file' = Some (reparse aggs) ->
  file = file' \/ file = None ->
  Forall (call_ok false file') (<[i := Returned r]> (wake <$> l)).
Proof.
  intros Hone Hi Hc Hl Hfile' Hfile. rewrite release_calls. apply Forall_fmap.
  pose proof (others_do_not_hold l i c (Returned r) Hone Hi Hc eq_refl) as Hfree.
  assert (Hold : Forall (fun x => x = Returned r \/ call_ok lock file x)
                   (<[i := Returned r]> l)).
  { apply Forall_insert; [|by left]. eapply Forall_impl; [exact Hl|]. by right. }
  rewrite Forall_forall in *. intros x Hx. specialize (Hfree x Hx). specialize (Hold x Hx).
  simpl. destruct Hold as [->|Hok]; [done|].
  destruct x as [|[cached|]| | | |cachedAfterLock| |aggregates|r']; simpl in *; try done.
  destruct Hok as [-> ->]. destruct Hfile as [<-|?]; done.
Qed.

(** A call that has returned is not touched by a step of another. *)
Lemma lookup_returned_insert (l : list (Call Data)) (i j : nat) (c : Call Data)
    (r : result Data) :
  (forall r', c <> Returned r') ->
  <[i := c]> l !! j = Some (Returned r) -> l !! j = Some (Returned r).
Proof.
  intros Hc Hj. destruct (decide (i = j)) as [->|Hne].
  - destruct (decide (j < length l)) as [Hlt|Hge].
    + rewrite list_lookup_insert_eq in Hj by done. injection Hj as ->. by destruct (Hc r).
    + by rewrite list_insert_ge in Hj by lia.
  - by rewrite list_lookup_insert_ne in Hj.
Qed.

Lemma lookup_returned_wake (l : list (Call Data)) (j : nat) (r : result Data) :
  (wake <$> l) !! j = Some (Returned r) <-> l !! j = Some (Returned r).
Proof.
  rewrite list_lookup_fmap. destruct (l !! j) as [[| | | | | | | |]|]; simpl; split; congruence.
Qed.

(** A call that moves on without returning leaves the builder where it is. *)
Lemma built_by_move (b i : nat) (l : list (Call Data)) (c c' : Call Data) :
  l !! i = Some c -> pending c = 1 -> (forall r, c' <> Returned r) ->
  built_by b l -> built_by b (<[i := c']> l).
Proof.
  intros Hi Hc Hc' [Hb Hothers]. split.
  - rewrite list_lookup_insert_ne; [done|]. intros ->. rewrite Hb in Hi.
    injection Hi as <-. done.
  - intros j r Hj Hr. apply (Hothers j r Hj). by eapply lookup_returned_insert.
Qed.

(** A call that returns what it has read leaves the builder where it is. *)
Lemma built_by_read (b i : nat) (l : list (Call Data)) (c : Call Data) :
  l !! i = Some c -> pending c = 1 ->
  built_by b l -> built_by b (<[i := Returned (Ok (reparse aggs))]> l).
Proof.
  intros Hi Hc [Hb Hothers]. split.
  - rewrite list_lookup_insert_ne; [done|]. intros ->. rewrite Hb in Hi.
    injection Hi as <-. done.
  - intros j r Hj Hr. destruct (decide (i = j)) as [->|Hne].
    + rewrite list_lookup_insert_eq in Hr by (by eapply lookup_lt_Some). by injection Hr as <-.
    + rewrite list_lookup_insert_ne in Hr by done. by apply (Hothers j r Hj).
Qed.

Lemma built_by_wake (b : nat) (l : list (Call Data)) :
  built_by b l -> built_by b (wake <$> l).
Proof.
  intros [Hb Hothers]. split.
  - by apply lookup_returned_wake.
  - intros j r Hj Hr. apply (Hothers j r Hj). by apply lookup_returned_wake.
Qed.

(** No call has returned as long as there is no cache file. *)
Lemma none_returned (l : list (Call Data)) (lock : bool) (j : nat) (r : result Data) :
  Forall (call_ok lock None) l -> l !! j = Some (Returned r) -> False.
Proof. intros Hl Hj. by pose proof (proj1 (Forall_lookup _ _) Hl j _ Hj). Qed.

Lemma invariant_run (i : nat) (s s' : State Data) :
  invariant s -> run i s = Some s' -> invariant s'.
Proof.
  intros [Hlock Hcalls Hcache Hing Hbuilder] Hrun. unfold run, run_call in Hrun.
  destruct (calls s !! i) as [c|] eqn:Hi; [|done].
  pose proof (proj1 (Forall_lookup _ _) Hcalls i c Hi) as Hc.
  assert (Hone : total holds_lock (calls s) <= 1) by (rewrite Hlock; destruct (locked s); lia).
  assert (Hmove : forall c', pending c = 1 -> (forall r, c' <> Returned r) ->
            cache s <> None -> exists b, built_by b (<[i := c']> (calls s))).
  { intros c' Hpending Hc' Hsome. destruct (Hbuilder Hsome) as [b Hb].
    exists b. by eapply built_by_move. }
  destruct c as [|[cached|]| | | |[cachedAfterLock|]| |aggregates|r];
    simplify_eq/=.
  - (* the first read of the cache *)
    split; simpl.
    + pose proof (total_insert holds_lock _ i _ (AfterRead (cache s)) Hi). simpl in *. lia.
    + apply Forall_insert; [done|]. destruct (cache s) eqn:E; [|done]. simpl.
      destruct Hcache as [?|?]; by simplify_eq.
    + done.
    + pose proof (total_insert rebuilding _ i _ (AfterRead (cache s)) Hi). simpl in *.
      destruct (cache s); [done|lia].
    + by apply Hmove.
  - (* the cache was there *)
    destruct Hc as [-> Hfile]. split; simpl.
    + pose proof (total_insert holds_lock _ i _ (Returned (Ok (reparse aggs))) Hi).
      simpl in *. lia.
    + by apply Forall_insert.
    + done.
    + rewrite Hfile in *. done.
    + intros Hsome. destruct (Hbuilder Hsome) as [b Hb]. exists b. by eapply built_by_read.
  - (* the cache was not there: take the lock or wait *)
    unfold acquire, set_call. destruct (locked s) eqn:Hlocked; split; simpl; rewrite ?Hlocked.
    + pose proof (total_insert holds_lock _ i _ Waiting Hi). simpl in *. lia.
    + by apply Forall_insert.
    + done.
    + pose proof (total_insert rebuilding _ i _ Waiting Hi). simpl in *.
      destruct (cache s); [done|lia].
    + by apply Hmove.
    + pose proof (total_insert holds_lock _ i _ LockedReadCache Hi). simpl in *. lia.
    + apply Forall_insert; [|done]. eapply Forall_impl; [exact Hcalls|].
      by intros [|[?|]| | | |?| |?|?].
    + done.
    + pose proof (total_insert rebuilding _ i _ LockedReadCache Hi). simpl in *.
      destruct (cache s); [done|lia].
    + by apply Hmove.
  - (* woken up: take the lock or wait again *)
    unfold acquire, set_call. destruct (locked s) eqn:Hlocked; split; simpl; rewrite ?Hlocked.
    + pose proof (total_insert holds_lock _ i _ Waiting Hi). simpl in *. lia.
    + by apply Forall_insert.
    + done.
    + pose proof (total_insert rebuilding _ i _ Waiting Hi). simpl in *.
      destruct (cache s); [done|lia].
    + by apply Hmove.
    + pose proof (total_insert holds_lock _ i _ LockedReadCache Hi). simpl in *. lia.
    + apply Forall_insert; [|done]. eapply Forall_impl; [exact Hcalls|].
      by intros [|[?|]| | | |?| |?|?].
    + done.
    + pose proof (total_insert rebuilding _ i _ LockedReadCache Hi). simpl in *.
      destruct (cache s); [done|lia].
    + by apply Hmove.
  - (* the read under the lock *)
    split; simpl.
    + pose proof (total_insert holds_lock _ i _ (LockedAfterRead (cache s)) Hi). simpl in *. lia.
    + by apply Forall_insert.
    + done.
    + pose proof (total_insert rebuilding _ i _ (LockedAfterRead (cache s)) Hi). simpl in *.
      destruct (cache s); [done|lia].
    + by apply Hmove.
  - (* another call has rebuilt the cache: release *)
    assert (cachedAfterLock = reparse aggs) as ->
      by (destruct Hcache as [?|?]; congruence).
    split; simpl.
    + rewrite release_calls, total_fmap by apply wake_holds.
      pose proof (total_insert holds_lock _ i _ (Returned (Ok (reparse aggs))) Hi). simpl in *.
      destruct (locked s); lia.
    + eapply release_ok; eauto.
    + done.
    + by rewrite <- Hc in *.
    + intros Hsome. destruct (Hbuilder Hsome) as [b Hb]. exists b.
      rewrite release_calls. apply built_by_wake. by eapply built_by_read.
  - (* no cache under the lock: the ingestion pass starts *)
    split; simpl.
    + pose proof (total_insert holds_lock _ i _ Building Hi). simpl in *. lia.
    + by apply Forall_insert.
    + done.
    + pose proof (total_insert rebuilding _ i _ Building Hi). simpl in *.
      rewrite <- Hc in *. lia.
    + by apply Hmove.
  - (* the aggregates are built *)
    split; simpl.
    + pose proof (total_insert holds_lock _ i _ (Writing aggs) Hi). simpl in *. lia.
    + by apply Forall_insert.
    + done.
    + pose proof (total_insert rebuilding _ i _ (Writing aggs) Hi). simpl in *.
      rewrite Hc in *. lia.
    + by apply Hmove.
  - (* the cache is written: release *)
    destruct Hc as [-> Hfile]. split; simpl.
    + rewrite release_calls, total_fmap by apply wake_holds.
      pose proof (total_insert holds_lock _ i _ (Returned (Ok aggs)) Hi). simpl in *.
      destruct (locked s); lia.
    + eapply release_ok; eauto.
    + by right.
    + rewrite Hfile in Hing. pose proof (rebuilding_holds (calls s)).
      pose proof (total_lookup rebuilding _ i _ Hi). simpl in *. lia.
    + intros _. exists i. rewrite release_calls. apply built_by_wake. split.
      * apply list_lookup_insert_eq. by eapply lookup_lt_Some.
      * intros j r Hj Hr. rewrite list_lookup_insert_ne in Hr by done.
        rewrite Hfile in Hcalls. by destruct (none_returned _ _ _ _ Hcalls Hr).
Qed.

Lemma invariant_steps (s s' : State Data) : invariant s -> steps s s' -> invariant s'.
Proof. intros Hs [i Hrun]. by eapply invariant_run. Qed.

Lemma invariant_reachable (n : nat) (s : State Data) :
  rtc steps (initial n) s -> invariant s.
Proof.
  intros Hreach.
  eapply (rtc_ind_r (R := steps) (fun s => invariant s)); [|by eauto using invariant_steps|done].
  apply invariant_initial.
Qed.

(** *** Progress and termination *)

Lemma returned_pending (c : Call Data) : returned c = false <-> pending c = 1.
Proof. by destruct c. Qed.

Lemma finished_total (s : State Data) : finished s = true <-> total pending (calls s) = 0.
Proof.
  unfold finished, total. induction (calls s) as [|c l IH]; csimpl; [done|].
  rewrite andb_true_iff, IH. destruct c; simpl; split; try lia; intros [? ?]; try done; lia.
Qed.

(** A call that is neither waiting nor returned can run. *)
Lemma run_enabled (i : nat) (s : State Data) (c : Call Data) :
  calls s !! i = Some c -> c <> Waiting -> pending c = 1 -> is_Some (run i s).
Proof.
  intros Hi Hwait Hpending. unfold run, run_call. rewrite Hi.
  destruct c as [|[cached|]| | | |[cachedAfterLock|]| |aggregates|r]; simpl in *; try done; eauto.
Qed.

Lemma progress (s : State Data) :
  invariant s -> finished s = false -> exists s', steps s s'.
Proof.
  intros [Hlock Hcalls _ _ _] Hrunning.
  assert (Hpending : 0 < total pending (calls s)).
  { destruct (total pending (calls s)) eqn:E; [|lia].
    apply finished_total in E. congruence. }
  apply total_pos in Hpending as (i & c & Hi & Hc).
  assert (Hc1 : pending c = 1) by (destruct c; simpl in *; lia).
  assert (Hcases : c = Waiting \/ c <> Waiting) by (destruct c; (by left) || (by right)).
  destruct Hcases as [->|Hnot].
  - pose proof (proj1 (Forall_lookup _ _) Hcalls i _ Hi) as Hlocked. simpl in Hlocked.
    rewrite Hlocked in Hlock.
    destruct (total_pos holds_lock (calls s)) as (j & h & Hj & Hh); [lia|].
    destruct (run_enabled j s h Hj) as [s' Hs'].
    + intros ->. simpl in Hh. lia.
    + destruct h; simpl in *; lia.
    + exists s', j. exact Hs'.
  - destruct (run_enabled i s c Hi Hnot Hc1) as [s' Hs']. exists s', i. exact Hs'.
Qed.

Lemma run_length (i : nat) (s s' : State Data) :
  run i s = Some s' -> length (calls s') = length (calls s).
Proof.
  unfold run, run_call, acquire, release, set_call. intros Hrun.
  destruct (calls s !! i) as [[|[?|]| | | |[?|]| |?|?]|]; simplify_eq/=;
    try destruct (locked s); simpl; by rewrite ?length_insert, ?length_fmap.
Qed.

(** A step that does not release the lock moves one call forward. *)
Lemma measure_move (l : list (Call Data)) (i : nat) (c c' : Call Data) :
  l !! i = Some c -> distance c' < distance c -> pending c' <= pending c ->
  total pending (<[i := c']> l) * (9 * length (<[i := c']> l) + 1)
    + total distance (<[i := c']> l)
  < total pending l * (9 * length l + 1) + total distance l.
Proof.
  intros Hi Hd Hp. rewrite length_insert.
  pose proof (total_insert pending l i c c' Hi).
  pose proof (total_insert distance l i c c' Hi).
  assert (total pending (<[i := c']> l) <= total pending l) by lia.
  assert (total distance (<[i := c']> l) < total distance l) by lia. nia.
Qed.

(** A release ends one call; the calls it wakes up are further from
    their end than they were, but fewer calls are left. *)
Lemma measure_release (l : list (Call Data)) (i : nat) (c : Call Data) (r : result Data) :
  l !! i = Some c -> pending c = 1 ->
  total pending (<[i := Returned r]> (wake <$> l))
    * (9 * length (<[i := Returned r]> (wake <$> l)) + 1)
    + total distance (<[i := Returned r]> (wake <$> l))
  < total pending l * (9 * length l + 1) + total distance l.
Proof.
  intros Hi Hp. rewrite release_calls, length_fmap, length_insert.
  rewrite (total_fmap pending) by apply wake_pending.
  pose proof (total_insert pending l i c (Returned r) Hi). simpl in *.
  pose proof (total_bound distance (wake <$> <[i := Returned r]> l) 8) as Hbound.
  rewrite length_fmap, length_insert in Hbound.
  assert (total distance (wake <$> <[i := Returned r]> l) <= 8 * length l).
  { apply Hbound. intros []; simpl; lia. }
  assert (total pending (<[i := Returned r]> l) = total pending l - 1) by lia.
  assert (1 <= total pending l) by lia. nia.
Qed.

Lemma measure_run (i : nat) (s s' : State Data) :
  run i s = Some s' -> measure s' < measure s.
Proof.
  unfold run, run_call, acquire, set_call, release, measure. intros Hrun.
  destruct (calls s !! i) as [c|] eqn:Hi; [|done].
  destruct c as [|[cached|]| | | |[cachedAfterLock|]| |aggregates|r]; simplify_eq/=;
    try destruct (locked s); simpl;
    first [ by eapply measure_release
          | eapply measure_move; [exact Hi|simpl; lia|simpl; lia] ].
Qed.

(** *** Schedules *)

Lemma run_schedule_reachable (schedule : list nat) (s : State Data) :
  rtc steps s (run_schedule (Ok aggs) None reparse schedule s).
Proof.
  revert s. induction schedule as [|i schedule IH]; intros s; simpl; [done|].
  destruct (run_call (Ok aggs) None reparse i s) as [s'|] eqn:Hrun; [|done].
  eapply rtc_l; [by exists i|done].
Qed.

(** C3, as amended: any number of calls of [getCacheOrBuild] are made
    when there is no snapshot; the rebuild succeeds and the cache can
    be written.  Then, however the calls interleave: at most one
    ingestion pass is ever started; a call that has returned has
    returned the collection that was built or that collection as it
    is read back from the file, and of any two calls at least one has
    returned the latter, so all have returned the same collection if
    it is read back as it was written; as long as a call is running
    some call can run and every step brings the program closer to its
    end, so all calls do return; and when all have returned exactly
    one ingestion pass has run, the call that ran it has returned the
    collection that was built and every other call the collection
    read back from the file. *)
Theorem single_rebuild (n : nat) (s : State Data) :
  0 < n ->
  rtc steps (initial n) s ->
  length (calls s) = n /\
  ingestions s <= 1 /\
  (forall i r, calls s !! i = Some (Returned r) -> r = Ok aggs \/ r = Ok (reparse aggs)) /\
  (forall i j ri rj, i <> j ->
     calls s !! i = Some (Returned ri) -> calls s !! j = Some (Returned rj) ->
     ri = Ok (reparse aggs) \/ rj = Ok (reparse aggs)) /\
  (reparse aggs = aggs -> forall i r, calls s !! i = Some (Returned r) -> r = Ok aggs) /\
  (finished s = false -> exists s', steps s s') /\
  (forall s', steps s s' -> measure s' < measure s) /\
  (finished s = true ->
   ingestions s = 1 /\ cache s = Some (reparse aggs) /\
   exists b, calls s !! b = Some (Returned (Ok aggs)) /\
     forall j, j < n -> j <> b -> calls s !! j = Some (Returned (Ok (reparse aggs)))).
Proof.
  intros Hn Hreach. pose proof (invariant_reachable n s Hreach) as Hinv.
  assert (Hlen : length (calls s) = n).
  { clear Hinv.
    eapply (rtc_ind_r (R := steps) (fun s => length (calls s) = n)); [| |done].
    - apply length_replicate.
    - intros s1 s2 _ [i Hrun] Hs1. apply run_length in Hrun. congruence. }
  destruct Hinv as [Hlock Hcalls Hcache Hing Hbuilder].
  assert (Hfile : forall i r, calls s !! i = Some (Returned r) -> cache s = Some (reparse aggs)).
  { intros i r Hi. apply (proj1 (Forall_lookup _ _) Hcalls i _ Hi). }
  assert (Hvalues : forall i r, calls s !! i = Some (Returned r) ->
            r = Ok aggs \/ r = Ok (reparse aggs)).
  { intros i r Hi. destruct Hbuilder as (b & Hb & Hothers); [by rewrite (Hfile i r Hi)|].
    destruct (decide (i = b)) as [->|Hne]; [left; congruence|right; by eapply Hothers]. }
  split_and!.
  - done.
  - rewrite Hing. destruct (cache s); [done|].
    pose proof (rebuilding_holds (calls s)). rewrite Hlock in *. destruct (locked s); lia.
  - done.
  - intros i j ri rj Hij Hi Hj.
    destruct Hbuilder as (b & Hb & Hothers); [by rewrite (Hfile i ri Hi)|].
    destruct (decide (i = b)) as [->|Hne]; [right|left]; by eapply Hothers.
  - intros Hsame i r Hi. destruct (Hvalues i r Hi) as [->| ->]; [done|by rewrite Hsame].
  - by apply progress.
  - intros s' [i Hrun]. by eapply measure_run.
  - intros Hdone.
    assert (Hall : forall j, j < n -> exists r, calls s !! j = Some (Returned r)).
    { intros j Hj. rewrite <- Hlen in Hj. destruct (lookup_lt_is_Some_2 _ _ Hj) as [c Hc].
      apply finished_total in Hdone. pose proof (total_lookup pending _ j c Hc) as Hp.
      destruct c; simpl in *; try lia. by eexists. }
    destruct (Hall 0 Hn) as [r0 Hr0]. pose proof (Hfile 0 r0 Hr0) as Hcached.
    rewrite Hcached in Hing. split; [done|]. split; [done|].
    destruct Hbuilder as (b & Hb & Hothers); [by rewrite Hcached|].
    exists b. split; [done|]. intros j Hj Hne.
    destruct (Hall j Hj) as [r Hr]. by rewrite Hr, (Hothers j r Hne Hr).
Qed.

End Rebuild.

(** *** What is read back as it was written *)

(** A number that [JSON.stringify] and [JSON.parse] give back as it
    is: it is finite and it is not negative zero. *)
Definition survives (x : float) : Prop :=
  PrimFloat.is_finite x = true /\ (PrimFloat.eqb x 0%float = true -> x = 0%float).

Lemma reparse_number_survives (x : float) :
  survives x -> SnapshotStore.reparse_number (Some x) = Some x.
Proof.
  intros [Hfinite Hzero]. unfold SnapshotStore.reparse_number. rewrite Hfinite.
  destruct (PrimFloat.eqb x 0%float) eqn:E; [|done]. by rewrite Hzero.
Qed.

Lemma reparse_unchanged (aggregates : list (DailyAggregate float)) :
  Forall (fun a => survives (clicks a) /\ survives (impressions a) /\
                   survives (ctr a) /\ survives (position a)) aggregates ->
  SnapshotStore.reparse (SnapshotStore.in_memory aggregates) =
  SnapshotStore.in_memory aggregates.
Proof.
  induction 1 as [|a l (Hc & Hi & Hr & Hp) _ IH]; [done|].
  unfold SnapshotStore.reparse, SnapshotStore.in_memory in *. cbn [map].
  rewrite IH. cbn [date clicks impressions ctr position].
  by rewrite !reparse_number_survives.
Qed.

(** *** The claim as it is stated *)

(** Exactly one ingestion pass executes and all [n] calls return the
    identical rebuilt collection. *)
Definition claimed_single_rebuild {Data : Type} (build : result Data)
    (write_error : option string) (reparse : Data -> Data) (n : nat) : Prop :=
  forall s : State Data,
    rtc (step build write_error reparse) (initial n) s ->
    finished s = true ->
    ingestions s = 1 /\
    exists d, forall i, i < n -> calls s !! i = Some (Returned (Ok d)).

Lemma run_schedule_steps {Data : Type} (build : result Data) (write_error : option string)
    (reparse : Data -> Data) (schedule : list nat) (s : State Data) :
  rtc (step build write_error reparse) s (run_schedule build write_error reparse schedule s).
Proof.
  revert s. induction schedule as [|i schedule IH]; intros s; simpl; [done|].
  destruct (run_call build write_error reparse i s) as [s'|] eqn:Hrun; [|done].
  eapply rtc_l; [by exists i|done].
Qed.

Local Open Scope float_scope.

(** Two rows of one day whose weighted click-through rate is negative
    and too small for binary64: the quotient is rounded to negative
    zero. *)
Definition underflow_rows : list (CSVRow float) :=
  [ mkCSVRow "2024-03-01" "boots" "/boots" 20 1 (-0x1p-1074) 2 "web" "desktop";
    mkCSVRow "2024-03-01" "shoes" "/shoes" 30 3 0 6 "web" "mobile" ].

Definition underflow_aggregates : list (DailyAggregate float) :=
  [ mkDailyAggregate "2024-03-01" 50 4 (-0) 5 ].

Lemma underflow_rows_built :
  buildDailyAggregates (mkRowStream underflow_rows None) = Ok underflow_aggregates.
Proof. reflexivity. Qed.

Local Close Scope float_scope.

(** Two calls, the first of which rebuilds while the second waits. *)
Definition rebuild_and_wait : list nat := [0; 1; 0; 1; 0; 0; 0; 0; 1; 1; 1; 1].

(** The first call returns the collection in which the rate is
    negative zero, the second the collection read back from the file,
    in which it is zero. *)
Definition two_calls_underflow : State SnapshotStore.Snapshot :=
  run_schedule (Ok (SnapshotStore.in_memory underflow_aggregates)) None SnapshotStore.reparse
    rebuild_and_wait (initial 2).

(** The sign and kind of the click-through rate of the first record
    that a call has returned. *)
Definition rate_sign (c : option (Call SnapshotStore.Snapshot)) : option float_class :=
  match c with
  | Some (Returned (Ok (a :: _))) => PrimFloat.classify <$> ctr a
  | _ => None
  end.

(** Two calls when the rebuild fails: each runs an ingestion pass. *)
Definition two_calls_failing : State SnapshotStore.Snapshot :=
  run_schedule
    (Throw "Failed to build aggregates: Too many parsing errors (102). CSV file may be corrupted.")
    None SnapshotStore.reparse [0; 1; 0; 1; 0; 0; 0; 1; 1; 1; 1] (initial 2).

(** C3, as stated, fails in two ways.  When the rebuild fails, the call
    that waited runs a second ingestion pass.  When it succeeds, the
    call that waited returns the collection as it is read from the
    file, which is not the collection that the first call returns if
    that holds a negative zero. *)
Lemma rebuild_claim_fails :
  ~ claimed_single_rebuild
      (Throw "Failed to build aggregates: Too many parsing errors (102). CSV file may be corrupted.")
      None SnapshotStore.reparse 2 /\
  ~ claimed_single_rebuild (Ok (SnapshotStore.in_memory underflow_aggregates)) None
      SnapshotStore.reparse 2.
Proof.
  split; intros Hclaim.
  - destruct (Hclaim two_calls_failing) as [Hone _];
      [apply run_schedule_steps|reflexivity|]. vm_compute in Hone. discriminate.
  - destruct (Hclaim two_calls_underflow) as [_ [d Hd]];
      [apply run_schedule_steps|reflexivity|].
    pose proof (Hd 0 ltac:(lia)) as H0. pose proof (Hd 1 ltac:(lia)) as H1.
    assert (Hsame : calls two_calls_underflow !! 0 = calls two_calls_underflow !! 1)
      by congruence.
    apply (f_equal rate_sign) in Hsame. vm_compute in Hsame. discriminate.
Qed.

(** Three calls: the first takes the lock and rebuilds while the other
    two find no cache and wait; both are woken by the release and find
    the cache under the lock.  The collection of [sample_aggregates]
    is read back as it was written, so all three return it. *)
Definition three_calls : State SnapshotStore.Snapshot :=
  run_schedule (Ok (SnapshotStore.in_memory AggregatorSpec.sample_aggregates)) None
    SnapshotStore.reparse
    [0; 1; 2; 0; 1; 2; 0; 0; 0; 0; 1; 2; 1; 1; 2; 2; 2] (initial 3).

Lemma single_rebuild_witness :
  finished three_calls = true /\ ingestions three_calls = 1 /\
  calls three_calls =
    replicate 3 (Returned (Ok (SnapshotStore.in_memory AggregatorSpec.sample_aggregates))).
Proof.
  destruct (single_rebuild SnapshotStore.reparse
              (SnapshotStore.in_memory AggregatorSpec.sample_aggregates) 3 three_calls)
    as (_ & _ & _ & _ & _ & _ & _ & Hone).
  - lia.
  - apply run_schedule_reachable.
  - split_and!; [reflexivity|apply Hone; reflexivity|reflexivity].
Defined.

End DataCacheSpec.


(** * Further properties

    ** The aggregator: order, keys and failures *)

Module AggregatorMore.
Import AggregatorSpec.

Section WithNumber.
Context {T : Type} `{Number T}.

Lemma finalize_date (e : string * DateAccumulator T) : date (finalize e) = e.1.
Proof. by destruct e. Qed.

Lemma built_aggregates (rows : list (CSVRow T)) (aggs : list (DailyAggregate T)) :
  buildDailyAggregates (mkRowStream rows None) = Ok aggs ->
  aggs = sort_by compare_date (map finalize (fold_left accumulate rows [])).
Proof.
  unfold buildDailyAggregates. simpl.
  destruct (fold_left accumulate rows []); [done|]. by intros [= <-].
Qed.

Lemma built_dates (rows : list (CSVRow T)) (aggs : list (DailyAggregate T)) :
  buildDailyAggregates (mkRowStream rows None) = Ok aggs ->
  date <$> aggs ≡ₚ (fold_left accumulate rows []).*1.
Proof.
  intros ->%built_aggregates. rewrite sort_by_Permutation.
  induction (fold_left accumulate rows []) as [|e m IH]; [done|].
  simpl. rewrite finalize_date. by f_equiv.
Qed.

Lemma strictly_sorted {A : Type} (cmp : A -> A -> comparison) (l : list A) :
  (forall x y, cmp x y = Eq -> x = y) ->
  StronglySorted (not_above cmp) l -> NoDup l ->
  StronglySorted (fun x y => cmp x y = Lt) l.
Proof.
  intros Heq. induction 1 as [|x l _ IH Hx]; intros Hnd; [constructor|].
  apply NoDup_cons in Hnd as [Hnotin Hnd]. constructor; [by apply IH|].
  rewrite Forall_forall in *. intros y Hy. specialize (Hx y Hy). unfold not_above in Hx.
  destruct (cmp x y) eqn:E; [|done|done].
  apply Heq in E. by subst.
Qed.

(** X1: the aggregates come out in strictly ascending order of their
    date keys; in particular no date key occurs twice. *)
Theorem aggregates_strictly_ascending (rows : list (CSVRow T)) (aggs : list (DailyAggregate T)) :
  buildDailyAggregates (mkRowStream rows None) = Ok aggs ->
  StronglySorted (fun a b => localeCompare (date a) (date b) = Lt) aggs /\
  NoDup (date <$> aggs).
Proof.
  intros Hbuild.
  assert (Hnd : NoDup (date <$> aggs)).
  { rewrite (built_dates rows aggs Hbuild). apply accumulate_NoDup. constructor. }
  split; [|done].
  assert (Hsorted : StronglySorted (not_above localeCompare) (date <$> aggs)).
  { rewrite (built_aggregates rows aggs Hbuild).
    eapply StronglySorted_fmap; [|apply sort_by_sorted].
    - by intros a b Hab.
    - intros a b. apply localeCompare_flip.
    - intros a b c. apply localeCompare_trans. }
  pose proof (strictly_sorted localeCompare (date <$> aggs) String.compare_eq_iff Hsorted Hnd)
    as Hstrict.
  clear Hbuild Hnd Hsorted. induction aggs as [|a aggs IH]; [constructor|].
  rewrite fmap_cons in Hstrict. apply StronglySorted_inv in Hstrict as [Hrest Ha].
  constructor; [by apply IH|]. by apply Forall_fmap in Ha.
Qed.

Lemma map_get_None (d : string) (m : DateMap T) : map_get d m = None <-> d ∉ m.*1.
Proof.
  induction m as [|[k w] m IH]; simpl.
  - split; [intros _ Hin; by apply elem_of_nil in Hin|done].
  - rewrite not_elem_of_cons. destruct (String.eqb_spec k d) as [->|Hne]; simpl.
    + split; [done|]. by intros [? _].
    + rewrite IH. split; [by split|by intros [_ ?]].
Qed.

(** X2: the date keys of the aggregates are exactly the date keys of
    the input rows that are not blank. *)
Theorem aggregate_dates (rows : list (CSVRow T)) (aggs : list (DailyAggregate T)) (d : string) :
  buildDailyAggregates (mkRowStream rows None) = Ok aggs ->
  d ∈ date <$> aggs <->
  invalid_date d = false /\ exists r, r ∈ rows /\ analytics_date r = d.
Proof.
  intros Hbuild. rewrite (built_dates rows aggs Hbuild). split.
  - intros Hd.
    assert (Hvalid : invalid_date d = false).
    { apply (map_get_valid d rows []); [|done]. intros k Hk. by apply elem_of_nil in Hk. }
    split; [done|].
    destruct (map_get d (fold_left accumulate rows [])) as [acc|] eqn:Hget;
      [|by apply map_get_None in Hget].
    rewrite fold_accumulate_get in Hget by done.
    destruct (rows_of d rows) as [|r rs] eqn:Hrs; [done|].
    exists r.
    assert (Hr : r ∈ rows_of d rows) by (rewrite Hrs; by left).
    apply list_elem_of_filter in Hr as [? ?]. by split.
  - intros (Hvalid & r & Hr & Hdate).
    destruct (decide (d ∈ (fold_left accumulate rows []).*1)) as [|Hnot]; [done|].
    apply map_get_None in Hnot. rewrite fold_accumulate_get in Hnot by done.
    assert (Hin : r ∈ rows_of d rows) by (by apply list_elem_of_filter).
    destruct (rows_of d rows); [by apply elem_of_nil in Hin|done].
Qed.

Lemma accumulate_nil_iff (rows : list (CSVRow T)) :
  fold_left accumulate rows [] = [] <-> valid_rows rows = [].
Proof.
  split.
  - intros Hnil. unfold valid_rows.
    destruct (filter _ rows) as [|r rs] eqn:Hrs; [done|]. exfalso.
    assert (Hr : r ∈ filter (fun r => invalid_date (analytics_date r) = false) rows)
      by (rewrite Hrs; by left).
    apply list_elem_of_filter in Hr as [Hvalid Hr].
    pose proof (fold_accumulate_get (analytics_date r) rows [] Hvalid) as Hget.
    rewrite Hnil in Hget. simpl in Hget.
    assert (Hin : r ∈ rows_of (analytics_date r) rows) by (by apply list_elem_of_filter).
    destruct (rows_of (analytics_date r) rows); [by apply elem_of_nil in Hin|done].
  - intros Hnone. assert (Hskip : Forall (fun r => invalid_date (analytics_date r) = true) rows).
    { apply Forall_forall. intros r Hr.
      destruct (invalid_date (analytics_date r)) eqn:E; [done|].
      assert (Hin : r ∈ valid_rows rows) by (by apply list_elem_of_filter).
      rewrite Hnone in Hin. by apply elem_of_nil in Hin. }
    clear Hnone. induction Hskip as [|r rows Hr _ IH]; [done|].
    simpl. rewrite accumulate_eq, Hr. exact IH.
Qed.

(** X3: how [buildDailyAggregates] fails.  An error of the stream is
    reported whatever rows came before it; a stream that ends normally
    gives aggregates exactly when some row has a date key that is not
    blank, and the "no valid data" error otherwise. *)
Theorem buildDailyAggregates_outcome (rows : list (CSVRow T)) :
  (forall message,
     buildDailyAggregates (mkRowStream rows (Some message)) =
     Throw ("Failed to build aggregates: " +:+ message)) /\
  (valid_rows rows = [] ->
   buildDailyAggregates (mkRowStream rows None) =
   Throw "No valid data found in CSV file. The file may be empty or contain only invalid rows.") /\
  (valid_rows rows <> [] ->
   exists aggs, buildDailyAggregates (mkRowStream rows None) = Ok aggs /\ aggs <> []).
Proof.
  split_and!.
  - done.
  - intros Hnone%accumulate_nil_iff. unfold buildDailyAggregates. simpl. by rewrite Hnone.
  - intros Hsome. unfold buildDailyAggregates. simpl.
    destruct (fold_left accumulate rows []) as [|e m] eqn:Hfold.
    + by apply accumulate_nil_iff in Hfold.
    + eexists. split; [done|]. intros Hnil. apply (f_equal length) in Hnil.
      rewrite sort_by_length in Hnil. done.
Qed.

End WithNumber.

Lemma aggregates_strictly_ascending_witness : NoDup (date <$> sample_aggregates).
Proof.
  destruct (aggregates_strictly_ascending sample_rows sample_aggregates) as [_ Hnd].
  - reflexivity.
  - exact Hnd.
Defined.

(** The second day of [sample_rows] has an aggregate; the blank date
    key has none. *)
Lemma aggregate_dates_witness :
  "2024-03-02"%string ∈ date <$> sample_aggregates /\
  "   "%string ∉ date <$> sample_aggregates.
Proof.
  pose proof (aggregate_dates sample_rows sample_aggregates) as Hdates. split.
  - apply Hdates; [reflexivity|]. split; [reflexivity|].
    exists (mkCSVRow "2024-03-02" "boots" "/boots" 7 500 0.25 4 "web" "mobile")%float.
    split; [|reflexivity]. apply list_elem_of_further, list_elem_of_here.
  - intros Hblank. apply Hdates in Hblank as [Hvalid _]; [|reflexivity].
    vm_compute in Hvalid. discriminate.
Defined.

End AggregatorMore.

(** ** [calculateWeightedMetrics] against the aggregator *)

Module WeightedMetricsSpec.
Import AggregatorSpec WeightedMetrics.
Local Open Scope float_scope.

Lemma eqb_of_ltb (x y : float) : (x <? y) = true -> (y =? x) = false.
Proof.
  rewrite ltb_spec, FloatAxioms.eqb_spec. unfold SFltb, SFeqb.
  destruct (Prim2SF x) as [[]|[]| |[] mx ex], (Prim2SF y) as [[]|[]| |[] my ey];
    simpl; try discriminate; try reflexivity;
    rewrite ?Pos.compare_cont_spec; simpl;
    compare_cases; simpl; try discriminate; try reflexivity; lia.
Qed.

(** Every numeric field that the weighted means use is finite. *)
Definition finite_row (r : CSVRow float) : Prop :=
  is_finite (row_impressions r) = true /\
  is_finite (row_ctr r) = true /\
  is_finite (row_position r) = true.

Lemma sums_of_finite_rows (rows : list (CSVRow float)) (sums : Sums) :
  Forall finite_row rows ->
  fold_left add_to_sums rows sums =
  mkSums
    (fold_left num_add (map (fun r => finite_or_zero (row_impressions r)) rows)
       (totalImpressions sums))
    (fold_left num_add
       (map (fun r => num_mul (finite_or_zero (row_ctr r)) (finite_or_zero (row_impressions r)))
          rows) (WeightedMetrics.ctrWeightedSum sums))
    (fold_left num_add
       (map (fun r => num_mul (finite_or_zero (row_position r))
                        (finite_or_zero (row_impressions r))) rows)
       (WeightedMetrics.positionWeightedSum sums)).
Proof.
  intros Hrows. revert sums. induction Hrows as [|r rows (Hi & Hc & Hp) _ IH]; intros sums.
  - by destruct sums.
  - simpl. rewrite IH. unfold add_to_sums, finite_or_zero. simpl.
    by rewrite Hi, Hc, Hp.
Qed.

Lemma calculateWeightedMetrics_finite_rows (rows : list (CSVRow float)) :
  Forall finite_row rows ->
  (0 <? impressions_sum rows) = true ->
  calculateWeightedMetrics rows =
  mkMetrics (weighted_sum row_ctr rows / impressions_sum rows)
            (weighted_sum row_position rows / impressions_sum rows).
Proof.
  intros Hrows Hpos. unfold calculateWeightedMetrics.
  rewrite sums_of_finite_rows by done. simpl.
  change (fold_left PrimFloat.add (map (fun r => finite_or_zero (row_impressions r)) rows) 0)
    with (impressions_sum rows).
  by rewrite (eqb_of_ltb _ _ Hpos).
Qed.

(** X4: [calculateWeightedMetrics] and the aggregator agree.  For rows
    of one date whose impressions, ctr and position are finite, with a
    sum of impressions above zero and finite quotients, the record that
    [buildDailyAggregates] builds for the date carries the ctr and the
    position that [calculateWeightedMetrics] computes from the rows. *)
Theorem weighted_metrics_agree (d : string) (rows : list (CSVRow float))
    (aggs : list (DailyAggregate float)) (a : DailyAggregate float) :
  invalid_date d = false ->
  Forall (fun r => analytics_date r = d) rows ->
  Forall finite_row rows ->
  (0 <? impressions_sum rows) = true ->
  is_finite (metrics_ctr (calculateWeightedMetrics rows)) = true ->
  is_finite (metrics_position (calculateWeightedMetrics rows)) = true ->
  buildDailyAggregates (mkRowStream rows None) = Ok aggs ->
  a ∈ aggs ->
  date a = d /\
  ctr a = metrics_ctr (calculateWeightedMetrics rows) /\
  position a = metrics_position (calculateWeightedMetrics rows).
Proof.
  intros Hd Hdates Hrows Hpos Hctr Hposition Hbuild Hin.
  rewrite calculateWeightedMetrics_finite_rows in * by done. simpl in *.
  destruct (aggregate_of_rows rows aggs a Hbuild Hin) as (Hne & _ & Ha).
  assert (Hdate : date a = d).
  { destruct (rows_of (date a) rows) as [|r rs] eqn:Hrs; [done|].
    assert (Hr : r ∈ rows_of (date a) rows) by (rewrite Hrs; by left).
    apply list_elem_of_filter in Hr as [<- Hr].
    rewrite Forall_forall in Hdates. by apply Hdates. }
  assert (Hall : rows_of d rows = rows).
  { clear -Hdates. unfold rows_of. induction Hdates as [|r rows Hr _ IH]; [done|].
    rewrite filter_cons, decide_True by done. by rewrite IH. }
  rewrite Hdate, Hall in Ha. split; [done|].
  split; rewrite Ha at 1.
  - rewrite finalize_ctr. unfold weighted_mean, finite_or_zero.
    change (num_lt num_zero (impressions_sum rows)) with (0 <? impressions_sum rows).
    rewrite Hpos.
    change (isFinite (num_div (weighted_sum row_ctr rows) (impressions_sum rows)))
      with (is_finite (weighted_sum row_ctr rows / impressions_sum rows)).
    by rewrite Hctr.
  - rewrite finalize_position. unfold weighted_mean, finite_or_zero.
    change (num_lt num_zero (impressions_sum rows)) with (0 <? impressions_sum rows).
    rewrite Hpos.
    change (isFinite (num_div (weighted_sum row_position rows) (impressions_sum rows)))
      with (is_finite (weighted_sum row_position rows / impressions_sum rows)).
    by rewrite Hposition.
Qed.

(** The two rows of the first day of [sample_rows]. *)
Definition first_day_rows : list (CSVRow float) :=
  [ mkCSVRow "2024-03-01" "boots" "/boots" 20 1000 0.5 2 "web" "desktop";
    mkCSVRow "2024-03-01" "shoes" "/shoes" 30 3000 0.25 6 "web" "mobile" ].

Lemma weighted_metrics_agree_witness :
  let a := mkDailyAggregate "2024-03-01" 50 4000 0.3125 5 in
  ctr a = metrics_ctr (calculateWeightedMetrics first_day_rows) /\
  position a = metrics_position (calculateWeightedMetrics first_day_rows).
Proof.
  intros a.
  destruct (weighted_metrics_agree "2024-03-01" first_day_rows [a] a) as (_ & Hc & Hp).
  - reflexivity.
  - repeat constructor.
  - repeat constructor.
  - reflexivity.
  - reflexivity.
  - reflexivity.
  - reflexivity.
  - apply list_elem_of_here.
  - split; [exact Hc|exact Hp].
Defined.

End WeightedMetricsSpec.

(** ** The row ingestor: what is yielded and how it ends *)

Module CsvParserMore.
Import CsvParser CsvParserSpec AggregatorSpec.

Local Arguments Nat.leb : simpl never.
Local Arguments Nat.ltb : simpl never.
Local Arguments String.append : simpl never.

Section WithNumber.
Context {T : Type} `{Number T} (parseFloat : string -> T).

(** The row made from a record that is yielded. *)
Definition row_of (record : ParsedRecord) : CSVRow T :=
  mkCSVRow (or_empty (rec_analytics_date record))
    (or_empty (rec_keyword record))
    (or_empty (rec_page_url record))
    (parseNumericField parseFloat (rec_clicks record))
    (parseNumericField parseFloat (rec_impressions record))
    (parseNumericField parseFloat (rec_ctr record))
    (parseNumericField parseFloat (rec_position record))
    (or_empty (rec_analytics_type record))
    (or_empty (rec_device record)).

(** What a record contributes to the output. *)
Definition to_row (record : ParsedRecord) : option (CSVRow T) :=
  if skipped record then None else Some (row_of record).

Lemma process_record_cases (st : LoopState T) (record : ParsedRecord) :
  process_record parseFloat st record =
  if duplicate_header record then Ok (mkLoopState (S (rowCount st)) (errorCount st) (output st))
  else if date_error record then
    if (maxErrors <=? errorCount st)%nat
    then Throw ("Too many parsing errors (" +:+ pretty (S (S (errorCount st)))
                +:+ "). CSV file may be corrupted.")
    else Ok (mkLoopState (S (rowCount st)) (S (errorCount st)) (output st))
  else Ok (mkLoopState (S (rowCount st)) (errorCount st) (output st ++ [row_of record])).
Proof.
  unfold process_record, date_error, duplicate_header.
  destruct (bool_decide _); [reflexivity|]. cbn [negb andb].
  destruct (missing_date _); [|reflexivity].
  destruct (Nat.ltb_spec maxErrors (S (errorCount st))), (Nat.leb_spec maxErrors (errorCount st));
    try lia; [|reflexivity].
  destruct (Nat.ltb_spec maxErrors (S (S (errorCount st)))); [reflexivity|lia].
Qed.

Lemma date_errors_cons (record : ParsedRecord) (rs : list ParsedRecord) :
  date_errors (record :: rs) = ((if date_error record then 1 else 0) + date_errors rs)%nat.
Proof. unfold date_errors. simpl. by destruct (date_error record). Qed.

Lemma duplicate_header_no_error (record : ParsedRecord) :
  duplicate_header record = true -> date_error record = false.
Proof. unfold date_error. by intros ->. Qed.

Lemma to_row_cons (record : ParsedRecord) (rs : list ParsedRecord) :
  omap to_row (record :: rs) =
  if duplicate_header record then omap to_row rs
  else if date_error record then omap to_row rs
  else row_of record :: omap to_row rs.
Proof.
  unfold to_row at 1, skipped. csimpl.
  by destruct (duplicate_header record), (date_error record).
Qed.

Lemma process_within_budget (st : LoopState T) (rs : list ParsedRecord) :
  (errorCount st + date_errors rs <= maxErrors)%nat ->
  process_records parseFloat st rs =
  (mkLoopState (rowCount st + length rs) (errorCount st + date_errors rs)
     (output st ++ omap to_row rs), None).
Proof.
  revert st. induction rs as [|record rs IH]; intros st Hbudget.
  - unfold date_errors. simpl. rewrite !Nat.add_0_r, app_nil_r. by destruct st.
  - rewrite date_errors_cons in *. cbn [process_records]. rewrite process_record_cases.
    rewrite to_row_cons. cbn [length].
    destruct (duplicate_header record) eqn:Hdup.
    + rewrite (duplicate_header_no_error _ Hdup) in *.
      rewrite IH by (simpl; lia). simpl. f_equal. f_equal; lia.
    + destruct (date_error record) eqn:Herr.
      * destruct (Nat.leb_spec maxErrors (errorCount st)); [lia|].
        rewrite IH by (simpl; lia). simpl. f_equal. f_equal; lia.
      * rewrite IH by (simpl; lia). simpl. rewrite <- app_assoc. simpl.
        f_equal. f_equal; lia.
Qed.

(** X5: when the parser delivers its records and ends, and the
    records without a date key are within the error budget, the
    generator yields, in the order of the input, exactly the records
    that are neither repeated headers nor without a date key, each
    turned into a row; it ends with the "empty" error if no record was
    read at all, and normally otherwise. *)
Theorem streamParseCSV_within_budget (filePath : string) (run : ParserRun) :
  io_error run = None ->
  (date_errors (records run) <= maxErrors)%nat ->
  yielded (streamParseCSV parseFloat filePath run) = omap to_row (records run) /\
  failure (streamParseCSV parseFloat filePath run) =
    match records run with
    | [] => Some "CSV file is empty or contains no valid data rows"%string
    | _ => None
    end.
Proof.
  intros Hended Hbudget. unfold streamParseCSV.
  rewrite process_within_budget by done. simpl.
  rewrite Hended. by destruct (records run).
Qed.

Definition too_many_errors : string :=
  "Too many parsing errors (102). CSV file may be corrupted.".

Lemma process_over_budget (st : LoopState T) (rs : list ParsedRecord) :
  (errorCount st <= maxErrors)%nat ->
  (maxErrors < errorCount st + date_errors rs)%nat ->
  exists k record,
    rs !! k = Some record /\ date_error record = true /\
    (errorCount st + date_errors (take k rs) = maxErrors)%nat /\
    process_records parseFloat st rs =
    (mkLoopState (rowCount st + k) maxErrors (output st ++ omap to_row (take k rs)),
     Some too_many_errors).
Proof.
  revert st. induction rs as [|record rs IH]; intros st Hst Hover.
  - unfold date_errors in Hover. simpl in Hover. lia.
  - rewrite date_errors_cons in Hover. cbn [process_records]. rewrite process_record_cases.
    destruct (duplicate_header record) eqn:Hdup.
    + rewrite (duplicate_header_no_error _ Hdup) in Hover.
      destruct (IH (mkLoopState (S (rowCount st)) (errorCount st) (output st)))
        as (k & r & Hk & Hr & Hcount & Hrun); [done|done|].
      exists (S k), r. rewrite Hrun. cbn [take]. rewrite date_errors_cons, to_row_cons.
      rewrite (duplicate_header_no_error _ Hdup), Hdup. simpl in *.
      split_and!; try done. f_equal. f_equal; lia.
    + destruct (date_error record) eqn:Herr.
      * destruct (Nat.leb_spec maxErrors (errorCount st)) as [Hfull|Hroom].
        -- assert (Hexact : errorCount st = maxErrors) by lia.
           exists 0%nat, record. cbn [take]. unfold date_errors. simpl.
           rewrite Hexact, app_nil_r. split_and!; [done|done|lia|].
           f_equal. destruct st. simpl in *. subst. f_equal; lia.
        -- destruct (IH (mkLoopState (S (rowCount st)) (S (errorCount st)) (output st)))
             as (k & r & Hk & Hr & Hcount & Hrun); [simpl; lia|simpl; lia|].
           exists (S k), r. rewrite Hrun. cbn [take]. rewrite date_errors_cons, to_row_cons.
           rewrite Hdup, Herr. simpl in *.
           split_and!; [done|done|lia|]. f_equal. f_equal; lia.
      * destruct (IH (mkLoopState (S (rowCount st)) (errorCount st)
                        (output st ++ [row_of record])))
          as (k & r & Hk & Hr & Hcount & Hrun); [done|done|].
        exists (S k), r. rewrite Hrun. cbn [take]. rewrite date_errors_cons, to_row_cons.
        rewrite Hdup, Herr. simpl in *. rewrite <- app_assoc. simpl.
        split_and!; try done. f_equal. f_equal; lia.
Qed.

(** X6: beyond the error budget.  When more than 100 records have no
    date key, the generator stops at the 101st of them: what it has
    yielded are the rows of the records before that one, and it throws
    the "too many parsing errors" error, whose count reads 102 because
    the error thrown for the 101st record is caught and counted once
    more. *)
Theorem streamParseCSV_over_budget (filePath : string) (run : ParserRun) :
  (maxErrors < date_errors (records run))%nat ->
  failure (streamParseCSV parseFloat filePath run) = Some too_many_errors /\
  exists k record,
    records run !! k = Some record /\ date_error record = true /\
    date_errors (take k (records run)) = maxErrors /\
    yielded (streamParseCSV parseFloat filePath run) = omap to_row (take k (records run)).
Proof.
  intros Hover. unfold streamParseCSV.
  destruct (process_over_budget (mkLoopState 0 0 []) (records run))
    as (k & record & Hk & Hrecord & Hcount & Hrun); [simpl; unfold maxErrors; lia|done|].
  rewrite Hrun. simpl. split; [done|]. by exists k, record.
Qed.

(** What is true of every row that the generator yields. *)
Definition well_formed_row (row : CSVRow T) : Prop :=
  invalid_date (analytics_date row) = false /\
  analytics_date row <> "analytics_date"%string /\
  isNaN (row_clicks row) = false /\
  isNaN (row_impressions row) = false /\
  isNaN (row_ctr row) = false /\
  isNaN (row_position row) = false.

Hypothesis zero_is_a_number : isNaN (num_zero : T) = false.

Lemma parseNumericField_number (value : option string) :
  isNaN (parseNumericField parseFloat value) = false.
Proof.
  unfold parseNumericField. destruct value as [v|]; [|done].
  destruct (_ || _)%bool; [done|]. by destruct (isNaN (parseFloat v)) eqn:E.
Qed.

Lemma row_of_well_formed (record : ParsedRecord) :
  skipped record = false -> well_formed_row (row_of record).
Proof.
  unfold skipped, date_error, duplicate_header, well_formed_row.
  intros [Hdup Herr]%orb_false_iff. rewrite Hdup in Herr. simpl in *.
  apply bool_decide_eq_false in Hdup.
  destruct (rec_analytics_date record) as [d|]; [|done]. simpl in *.
  split_and!; try apply parseNumericField_number; [done|congruence].
Qed.

Lemma process_records_well_formed (st : LoopState T) (rs : list ParsedRecord) :
  Forall well_formed_row (output st) ->
  Forall well_formed_row (output (process_records parseFloat st rs).1).
Proof.
  revert st. induction rs as [|record rs IH]; intros st Hst; [done|].
  cbn [process_records]. rewrite process_record_cases.
  destruct (duplicate_header record) eqn:Hdup; [by apply IH|].
  destruct (date_error record) eqn:Herr.
  - destruct (_ <=? _)%nat; [done|]. by apply IH.
  - apply IH. simpl. apply Forall_app. split; [done|]. constructor; [|done].
    apply row_of_well_formed. unfold skipped. by rewrite Hdup, Herr.
Qed.

(** X7: whatever the parser delivers and however the generator ends,
    every row it yields has a date key that is not blank and is not
    the header label, and none of its four numbers is NaN; so the
    aggregator skips none of the rows that the generator yields. *)
Theorem yielded_rows_well_formed (filePath : string) (run : ParserRun) :
  let rows := yielded (streamParseCSV parseFloat filePath run) in
  Forall well_formed_row rows /\ valid_rows rows = rows.
Proof.
  intros rows.
  assert (Hrows : Forall well_formed_row rows).
  { unfold rows, streamParseCSV.
    pose proof (process_records_well_formed (mkLoopState 0 0 []) (records run)) as Hout.
    destruct (process_records parseFloat (mkLoopState 0 0 []) (records run)) as [st thrown].
    simpl in Hout. specialize (Hout ltac:(constructor)).
    destruct thrown; [done|]. destruct (io_error run); [done|]. by destruct (_ =? _)%nat. }
  split; [done|]. unfold valid_rows. clear -Hrows.
  induction Hrows as [|row rows (Hdate & _) _ IH]; [done|].
  rewrite filter_cons, decide_True by done. by rewrite IH.
Qed.

End WithNumber.

Definition dated : ParsedRecord :=
  mkParsedRecord (Some "2024-03-01") (Some "boots") None (Some "20")
    (Some "") (Some "n/a") None (Some "web") (Some "desktop").

(** A parser of numbers that knows two numerals. *)
Definition two_numerals (s : string) : float :=
  if String.eqb s "20" then 20%float
  else if String.eqb s "1000" then 1000%float
  else PrimFloat.nan.

Lemma streamParseCSV_within_budget_witness :
  yielded (streamParseCSV two_numerals "data.csv"
             (mkParserRun [header_again; dated; no_date] None)) =
  [mkCSVRow "2024-03-01" "boots" "" 20 0 0 0 "web" "desktop"]%float.
Proof.
  destruct (streamParseCSV_within_budget two_numerals "data.csv"
              (mkParserRun [header_again; dated; no_date] None)) as [Hyielded _].
  - reflexivity.
  - vm_compute. lia.
  - exact Hyielded.
Defined.

Lemma streamParseCSV_over_budget_witness :
  failure (streamParseCSV two_numerals "data.csv"
             (mkParserRun (dated :: replicate 101 no_date) None)) =
  Some "Too many parsing errors (102). CSV file may be corrupted."%string.
Proof.
  destruct (streamParseCSV_over_budget two_numerals "data.csv"
              (mkParserRun (dated :: replicate 101 no_date) None)) as [Hfailure _].
  - vm_compute. lia.
  - exact Hfailure.
Defined.

Lemma yielded_rows_well_formed_witness :
  let rows := yielded (streamParseCSV two_numerals "data.csv"
                         (mkParserRun [header_again; dated; no_date] None)) in
  valid_rows rows = rows.
Proof.
  apply (yielded_rows_well_formed two_numerals).
  reflexivity.
Defined.

End CsvParserMore.

(** ** Downsampling, trends and the date filter *)

Module InsightsMore.
Import InsightsBuilder InsightsSpec Routes.
Local Open Scope float_scope.

(** *** The size and the content of a downsampled series *)

Lemma omap_lookup_elem_of {A : Type} (l : list A) (idx : list nat) (a : A) :
  a ∈ omap (fun i => l !! i) idx -> a ∈ l.
Proof.
  intros (i & _ & Hi)%list_elem_of_omap. by eapply list_elem_of_lookup_2.
Qed.

(** X8: whatever the series and the bound, the result has at most
    [maxPoints] records when the series is longer than that, it is the
    series itself when it is not, and every record of the result is a
    record of the series. *)
Theorem downsample_bounded (series : list Agg) (maxPoints : nat) :
  ((maxPoints < length series)%nat ->
   (length (downsampleSeries series maxPoints) <= maxPoints)%nat) /\
  ((length series <= maxPoints)%nat -> downsampleSeries series maxPoints = series) /\
  (forall a, a ∈ downsampleSeries series maxPoints -> a ∈ series).
Proof.
  split_and!.
  - apply downsample_at_most.
  - intros Hshort. unfold downsampleSeries.
    by destruct (Nat.leb_spec (length series) maxPoints); [|lia].
  - intros a. unfold downsampleSeries.
    destruct (Nat.leb_spec (length series) maxPoints); [done|].
    intros Ha%omap_lookup_elem_of. by rewrite sort_by_elem_of in Ha.
Qed.

(** *** When nothing is cut *)









(** *** The trends *)

(** The scan keeps a record that no record seen so far beats. *)
Lemma scan_extremes_spec (l : list Agg) (start : Agg) :
  let '(peak, trough) := fold_left scan_extremes l (start, start) in
  (peak = start \/ peak ∈ l) /\ (trough = start \/ trough ∈ l) /\
  (clicks peak <? clicks start) = false /\ (clicks start <? clicks trough) = false /\
  (forall a, a ∈ l -> (clicks peak <? clicks a) = false) /\
  (forall a, a ∈ l -> (clicks a <? clicks trough) = false).
Proof.
  induction l as [|x l IH] using rev_ind.
  - simpl. split_and!; try (by left); try apply ltb_irrefl;
      intros a Ha; by apply elem_of_nil in Ha.
  - rewrite fold_left_app. simpl.
    destruct (fold_left scan_extremes l (start, start)) as [peak trough].
    destruct IH as (Hp & Ht & Hps & Hts & Hpl & Htl). simpl.
    assert (Hup : forall a, (clicks peak <? clicks x) = true ->
              (clicks peak <? clicks a) = false -> (clicks x <? clicks a) = false).
    { intros a Hpx Hpa. destruct (clicks x <? clicks a) eqn:Hxa; [|done].
      rewrite <- Hpa. symmetry. eapply ltb_trans; eassumption. }
    assert (Hdown : forall a, (clicks x <? clicks trough) = true ->
              (clicks a <? clicks trough) = false -> (clicks a <? clicks x) = false).
    { intros a Hxt Hat. destruct (clicks a <? clicks x) eqn:Hax; [|done].
      rewrite <- Hat. symmetry. eapply ltb_trans; eassumption. }
    split_and!.
    + destruct (clicks peak <? clicks x).
      * right. apply elem_of_app. right. by apply list_elem_of_singleton.
      * destruct Hp; [by left|]. right. apply elem_of_app. by left.
    + destruct (clicks x <? clicks trough).
      * right. apply elem_of_app. right. by apply list_elem_of_singleton.
      * destruct Ht; [by left|]. right. apply elem_of_app. by left.
    + destruct (clicks peak <? clicks x) eqn:E; [by apply Hup|done].
    + destruct (clicks x <? clicks trough) eqn:E; [by apply Hdown|done].
    + intros a [Ha| ->%list_elem_of_singleton]%elem_of_app.
      * destruct (clicks peak <? clicks x) eqn:E; [apply Hup; auto|auto].
      * destruct (clicks peak <? clicks x) eqn:E; [apply ltb_irrefl|done].
    + intros a [Ha| ->%list_elem_of_singleton]%elem_of_app.
      * destruct (clicks x <? clicks trough) eqn:E; [apply Hdown; auto|auto].
      * destruct (clicks x <? clicks trough) eqn:E; [apply ltb_irrefl|done].
Qed.

(** The biggest rise is never below zero, the biggest fall never above. *)
Lemma scan_changes_spec (pairs : list (Agg * Agg)) :
  let '(spike, drop) := fold_left scan_changes pairs (mkDayChange "" 0, mkDayChange "" 0) in
  (change spike <? 0) = false /\ (0 <? change drop) = false.
Proof.
  induction pairs as [|[prev curr] pairs IH] using rev_ind; [by vm_compute|].
  rewrite fold_left_app. simpl.
  destruct (fold_left scan_changes pairs _) as [spike drop]. destruct IH as [Hs Hd]. simpl.
  split.
  - destruct (change spike <? clicks curr - clicks prev) eqn:E; [|done]. simpl.
    destruct (clicks curr - clicks prev <? 0) eqn:E'; [|done].
    rewrite <- Hs. symmetry. eapply ltb_trans; eassumption.
  - destruct (clicks curr - clicks prev <? change drop) eqn:E; [|done]. simpl.
    destruct (0 <? clicks curr - clicks prev) eqn:E'; [|done].
    rewrite <- Hd. symmetry. eapply ltb_trans; eassumption.
Qed.

(** X10: for a series that is not empty, the peak day reported by
    [calculateTrends] is a day of the series that no day of the series
    beats in clicks, the trough day one that no day undercuts; the
    change of the biggest spike is never below zero and that of the
    biggest drop never above. *)
Theorem trends_extremes (series : list Agg) :
  series <> [] ->
  let found := calculateTrends series in
  (exists peak, peak ∈ series /\ has_most_clicks series peak /\
                peakDay found = mkDayClicks (date peak) (clicks peak)) /\
  (exists trough, trough ∈ series /\ has_fewest_clicks series trough /\
                  troughDay found = mkDayClicks (date trough) (clicks trough)) /\
  (change (biggestSpike found) <? 0) = false /\
  (0 <? change (biggestDrop found)) = false.
Proof.
  intros Hne found. unfold found, calculateTrends.
  destruct series as [|a0 series0] eqn:Hseries; [done|]. rewrite <- Hseries. clear Hne.
  assert (Hperm : forall a, a ∈ sort_by compare_date series <-> a ∈ series)
    by (intros a; apply sort_by_elem_of).
  destruct (sort_by compare_date series) as [|firstDay rest] eqn:Hsorted.
  { apply (f_equal length) in Hsorted. rewrite sort_by_length, Hseries in Hsorted. done. }
  destruct rest as [|second rest].
  - (* a single day *)
    assert (Hall : forall a, a ∈ series -> a = firstDay).
    { intros a Ha%Hperm. by apply list_elem_of_singleton in Ha. }
    assert (Hin : firstDay ∈ series) by (apply Hperm; by left).
    simpl. split_and!; try (by vm_compute).
    + exists firstDay. split_and!; [done| |done].
      intros a ->%Hall. apply ltb_irrefl.
    + exists firstDay. split_and!; [done| |done].
      intros a ->%Hall. apply ltb_irrefl.
  - pose proof (scan_extremes_spec (firstDay :: second :: rest) firstDay) as Hscan.
    pose proof (scan_changes_spec (consecutive (firstDay :: second :: rest))) as Hchanges.
    destruct (fold_left scan_extremes (firstDay :: second :: rest) (firstDay, firstDay))
      as [peak trough].
    destruct (fold_left scan_changes (consecutive (firstDay :: second :: rest)) _)
      as [spike drop].
    destruct Hscan as (Hp & Ht & _ & _ & Hpl & Htl). destruct Hchanges as [Hs Hd].
    cbn [peakDay troughDay biggestSpike biggestDrop].
    assert (Hfirst : firstDay ∈ firstDay :: second :: rest) by (by left).
    split_and!; [| |done|done].
    + exists peak. split_and!; [|intros a Ha; by apply Hpl, Hperm|done].
      apply Hperm. by destruct Hp as [->|?].
    + exists trough. split_and!; [|intros a Ha; by apply Htl, Hperm|done].
      apply Hperm. by destruct Ht as [->|?].
Qed.

Lemma trends_extremes_witness :
  let found := calculateTrends five_days in
  (change (biggestSpike found) <? 0) = false /\ (0 <? change (biggestDrop found)) = false.
Proof.
  destruct (trends_extremes five_days) as (_ & _ & Hs & Hd).
  - discriminate.
  - split; [exact Hs|exact Hd].
Defined.

(** *** Filtering by date *)

Lemma leb_not_above (a b : string) : String.leb a b = true <-> localeCompare a b <> Gt.
Proof.
  unfold String.leb, localeCompare. destruct (String.compare a b); split; done.
Qed.

(** X11: [filterByDateRange] keeps, in their order, exactly the records
    whose date key lies between [start] and [end] in the order of
    strings; filtering the result again with the same bounds changes
    nothing; and when [end] is before [start] nothing is kept. *)
Theorem filterByDateRange_spec (aggregates : list Agg) (start end_ : string) :
  let kept := filterByDateRange aggregates start end_ in
  (forall a, a ∈ kept <->
     a ∈ aggregates /\ String.leb start (date a) = true /\ String.leb (date a) end_ = true) /\
  kept `sublist_of` aggregates /\
  filterByDateRange kept start end_ = kept /\
  (String.ltb end_ start = true -> kept = []).
Proof.
  intros kept. unfold kept, filterByDateRange. split_and!.
  - intros a. rewrite list_elem_of_In, filter_In, <- list_elem_of_In.
    unfold in_range. by rewrite andb_true_iff.
  - induction aggregates as [|a l IH]; simpl; [done|].
    destruct (in_range start end_ a); by constructor.
  - induction aggregates as [|a l IH]; simpl; [done|].
    destruct (in_range start end_ a) eqn:E; simpl; [|done]. by rewrite E, IH.
  - intros Hinverted. induction aggregates as [|a l IH]; simpl; [done|].
    destruct (in_range start end_ a) eqn:E; [|done]. exfalso.
    unfold in_range in E. apply andb_true_iff in E as [Hs He].
    apply leb_not_above in Hs, He.
    pose proof (localeCompare_trans _ _ _ Hs He) as Hse.
    unfold String.ltb in Hinverted. unfold localeCompare in Hse.
    rewrite String.compare_antisym in Hse. by destruct (String.compare end_ start).
Qed.

End InsightsMore.

(** ** The sanitizers and the validator of responses *)

Module SanitizersSpec.
Import Sanitizers.

(** *** Strings *)

(** Every character of the string passes the test. *)
Fixpoint all_chars (ok : ascii -> bool) (s : string) : bool :=
  match s with
  | EmptyString => true
  | String c s' => ok c && all_chars ok s'
  end.

Definition printable (c : ascii) : bool := negb (is_control c).

Lemma all_chars_append (ok : ascii -> bool) (a b : string) :
  all_chars ok (a ++ b) = all_chars ok a && all_chars ok b.
Proof. induction a as [|c a IH]; simpl; [done|]. by rewrite IH, andb_assoc. Qed.

Lemma all_chars_remove_control (s : string) : all_chars printable (remove_control s) = true.
Proof.
  induction s as [|c s IH]; simpl; [done|].
  destruct (is_control c) eqn:E; [done|]. simpl. unfold printable at 1. by rewrite E.
Qed.

Lemma all_chars_trim_start (ok : ascii -> bool) (s : string) :
  all_chars ok s = true -> all_chars ok (trim_start s) = true.
Proof.
  induction s as [|c s IH]; simpl; [done|]. intros [Hc Hs]%andb_true_iff.
  destruct (is_white_space c); [by apply IH|]. simpl. by rewrite Hc, Hs.
Qed.

Lemma all_chars_trim_end (ok : ascii -> bool) (s : string) :
  all_chars ok s = true -> all_chars ok (trim_end s) = true.
Proof.
  induction s as [|c s IH]; simpl; [done|]. intros [Hc Hs]%andb_true_iff.
  specialize (IH Hs). destruct (trim_end s) as [|c' t].
  - destruct (is_white_space c); simpl; [done|]. by rewrite Hc.
  - simpl in *. by rewrite Hc, IH.
Qed.

Lemma all_chars_trim (ok : ascii -> bool) (s : string) :
  all_chars ok s = true -> all_chars ok (trim s) = true.
Proof. intros Hs. by apply all_chars_trim_end, all_chars_trim_start. Qed.

Lemma all_chars_substring (ok : ascii -> bool) (n : nat) (s : string) :
  all_chars ok s = true -> all_chars ok (substring_to n s) = true.
Proof.
  unfold substring_to. revert n. induction s as [|c s IH]; intros [|n]; simpl; try done.
  intros [Hc Hs]%andb_true_iff. rewrite Hc. by apply IH.
Qed.

Lemma length_substring_to (n : nat) (s : string) :
  String.length (substring_to n s) = Nat.min n (String.length s).
Proof.
  unfold substring_to. revert n. induction s as [|c s IH]; intros [|n]; simpl; try done.
  by rewrite IH.
Qed.

Lemma length_append (a b : string) :
  String.length (a ++ b) = (String.length a + String.length b)%nat.
Proof. induction a as [|c a IH]; simpl; [done|]. by rewrite IH. Qed.

Lemma length_trim_start (s : string) : (String.length (trim_start s) <= String.length s)%nat.
Proof. induction s as [|c s IH]; simpl; [done|]. destruct (is_white_space c); simpl; lia. Qed.

Lemma length_trim_end (s : string) : (String.length (trim_end s) <= String.length s)%nat.
Proof.
  induction s as [|c s IH]; simpl; [done|].
  destruct (trim_end s); [destruct (is_white_space c)|]; simpl in *; lia.
Qed.

Lemma length_remove_control (s : string) :
  (String.length (remove_control s) <= String.length s)%nat.
Proof. induction s as [|c s IH]; simpl; [done|]. destruct (is_control c); simpl; lia. Qed.

(** X12: a sanitized keyword has at most 115 characters (100 of the
    keyword and the 15 of the truncation mark), is at most 14
    characters longer than the keyword and no longer than it when the
    keyword has at most 100 characters, and holds no control
    character. *)
Theorem sanitizeKeyword_safe (keyword : string) :
  (String.length (sanitizeKeyword keyword) <= 115)%nat /\
  (String.length (sanitizeKeyword keyword) <= String.length keyword + 14)%nat /\
  ((String.length keyword <= 100)%nat ->
   (String.length (sanitizeKeyword keyword) <= String.length keyword)%nat) /\
  all_chars printable (sanitizeKeyword keyword) = true.
Proof.
  unfold sanitizeKeyword.
  assert (Hclean : all_chars printable (trim (remove_control keyword)) = true)
    by apply all_chars_trim, all_chars_remove_control.
  assert (Hlen : (String.length (trim (remove_control keyword)) <= String.length keyword)%nat).
  { unfold trim. etrans; [apply length_trim_end|]. etrans; [apply length_trim_start|].
    apply length_remove_control. }
  destruct (Nat.ltb_spec 100 (String.length (trim (remove_control keyword)))) as [Hlong|Hshort].
  - rewrite length_append, length_substring_to, all_chars_append, all_chars_substring by done.
    change (String.length "... [truncated]") with 15%nat.
    split_and!; [lia|lia|lia|by vm_compute].
  - split_and!; [lia|lia|done|done].
Qed.

(** X13: a sanitized field has at most [maxLength] characters, is never
    longer than the value it comes from, and holds no control
    character. *)
Theorem sanitizeStringField_safe (value : string) (maxLength : nat) :
  (String.length (sanitizeStringField value maxLength) <= maxLength)%nat /\
  (String.length (sanitizeStringField value maxLength) <= String.length value)%nat /\
  all_chars printable (sanitizeStringField value maxLength) = true.
Proof.
  unfold sanitizeStringField. destruct (String.eqb value ""); [simpl; split_and!; [lia|lia|done]|].
  rewrite length_substring_to.
  assert (Hlen : (String.length (trim (remove_control value)) <= String.length value)%nat).
  { unfold trim. etrans; [apply length_trim_end|]. etrans; [apply length_trim_start|].
    apply length_remove_control. }
  split_and!; [lia|lia|].
  apply all_chars_substring, all_chars_trim, all_chars_remove_control.
Qed.

(** *** The validator *)

(** A string of at most [limit] characters. *)
Definition short_string (limit : nat) (x : option Json) : Prop :=
  exists s, x = Some (JString s) /\ (String.length s <= limit)%nat.

Definition well_formed_anomaly (anomaly : Json) : Prop :=
  short_string 20 (field "date" anomaly) /\
  short_string 50 (field "metric" anomaly) /\
  short_string 200 (field "change" anomaly) /\
  short_string 500 (field "explanation" anomaly).

(** The shape that the response of the analysis service must have. *)
Definition conforms (response : Json) : Prop :=
  exists insights anomalies opportunities questions,
    field "insights" response = Some (JArray insights) /\
    field "anomalies" response = Some (JArray anomalies) /\
    field "opportunities" response = Some (JArray opportunities) /\
    field "questions" response = Some (JArray questions) /\
    (length insights <= 20)%nat /\ (length anomalies <= 50)%nat /\
    (length opportunities <= 20)%nat /\ (length questions <= 20)%nat /\
    Forall (fun x => short_string 500 (Some x)) insights /\
    Forall (fun x => short_string 500 (Some x)) opportunities /\
    Forall (fun x => short_string 500 (Some x)) questions /\
    Forall well_formed_anomaly anomalies.

Lemma not_short_string_false (limit : nat) (x : option Json) :
  not_short_string limit x = false <-> short_string limit x.
Proof.
  unfold not_short_string, short_string. split.
  - destruct x as [[| | |s| |]|]; try done. intros Hs%Nat.ltb_ge. by exists s.
  - intros (s & -> & Hs). by apply Nat.ltb_ge.
Qed.

Lemma reject_if_any_None (limit : nat) (message : string) (items : list Json) :
  reject_if_any (fun x => not_short_string limit (Some x)) message items = None <->
  Forall (fun x => short_string limit (Some x)) items.
Proof.
  unfold reject_if_any. induction items as [|x items IH]; cbn [existsb].
  - split; [constructor|done].
  - rewrite Forall_cons. destruct (not_short_string limit (Some x)) eqn:Hx; cbn [orb].
    + split; [done|]. intros [Hshort _]. apply not_short_string_false in Hshort. congruence.
    + apply not_short_string_false in Hx. rewrite IH. by split; [|intros []].
Qed.

Lemma check_anomalies_None (anomalies : list Json) :
  check_anomalies anomalies = None <-> Forall well_formed_anomaly anomalies.
Proof.
  induction anomalies as [|a anomalies IH]; cbn [check_anomalies].
  - split; [constructor|done].
  - rewrite Forall_cons. unfold well_formed_anomaly at 1.
    rewrite <- !not_short_string_false.
    destruct a as [| | | |items|fields]; cbn [field];
      try (split; [done|]; by intros [[? _] _]).
    destruct (not_short_string 20 _); [split; [done|]; by intros [[? _] _]|].
    destruct (not_short_string 50 _); [split; [done|]; by intros [(_ & ? & _) _]|].
    destruct (not_short_string 200 _); [split; [done|]; by intros [(_ & _ & ? & _) _]|].
    destruct (not_short_string 500 _); [split; [done|]; by intros [(_ & _ & _ & ?) _]|].
    rewrite IH. by split; [|intros [_ ?]].
Qed.

(** X14: [validateClaudeResponse] accepts a response exactly when it
    has the required shape: an object with the four arrays, of at most
    20, 50, 20 and 20 items, whose insights, opportunities and
    questions are strings of at most 500 characters, and whose
    anomalies carry a date, metric, change and explanation that are
    strings of at most 20, 50, 200 and 500 characters. *)
Theorem validateClaudeResponse_accepts (response : Json) :
  validateClaudeResponse response = None <-> conforms response.
Proof.
  unfold conforms. split.
  - unfold validateClaudeResponse.
    destruct response as [| | | |items|fields]; try done.
    destruct (field "insights" (JObject fields)) as [[| | | |insights|]|] eqn:Hi; try done.
    destruct (field "anomalies" (JObject fields)) as [[| | | |anomalies|]|] eqn:Ha; try done.
    destruct (field "opportunities" (JObject fields)) as [[| | | |opportunities|]|] eqn:Ho;
      try done.
    destruct (field "questions" (JObject fields)) as [[| | | |questions|]|] eqn:Hq; try done.
    destruct (Nat.ltb_spec 20 (length insights)); [done|].
    destruct (Nat.ltb_spec 50 (length anomalies)); [done|].
    destruct (Nat.ltb_spec 20 (length opportunities)); [done|].
    destruct (Nat.ltb_spec 20 (length questions)); [done|].
    destruct (reject_if_any _ _ insights) eqn:Ei; [done|].
    destruct (reject_if_any _ _ opportunities) eqn:Eo; [done|].
    destruct (reject_if_any _ _ questions) eqn:Eq; [done|].
    intros Hanomalies.
    apply reject_if_any_None in Ei, Eo, Eq. apply check_anomalies_None in Hanomalies.
    exists insights, anomalies, opportunities, questions. by split_and!.
  - intros (insights & anomalies & opportunities & questions & Hi & Ha & Ho & Hq
            & Hli & Hla & Hlo & Hlq & Hsi & Hso & Hsq & Hsa).
    unfold validateClaudeResponse.
    destruct response as [| | | |items|fields]; try done.
    rewrite Hi, Ha, Ho, Hq.
    destruct (Nat.ltb_spec 20 (length insights)); [lia|].
    destruct (Nat.ltb_spec 50 (length anomalies)); [lia|].
    destruct (Nat.ltb_spec 20 (length opportunities)); [lia|].
    destruct (Nat.ltb_spec 20 (length questions)); [lia|].
    rewrite (proj2 (reject_if_any_None 500 _ insights) Hsi).
    rewrite (proj2 (reject_if_any_None 500 _ opportunities) Hso).
    rewrite (proj2 (reject_if_any_None 500 _ questions) Hsq).
    by apply check_anomalies_None.
Qed.

End SanitizersSpec.

(** ** The rate limiter: bursts and several callers *)

Module SecurityMore.
Import Security SecuritySpec.
Local Open Scope float_scope.

(** The tokens left after a run of checks at one instant. *)
Fixpoint same_instant_left (count : nat) (k : float) : float :=
  match count with
  | O => k
  | S count' => same_instant_left count' (same_instant k).2
  end.

Lemma same_instant_run_app (a b : nat) (k : float) :
  same_instant_run (a + b) k =
  same_instant_run a k ++ same_instant_run b (same_instant_left a k).
Proof. revert k. induction a as [|a IH]; intros k; simpl; [done|]. by rewrite IH. Qed.

Lemma same_instant_run_empty (count : nat) : same_instant_run count 0 = replicate count false.
Proof.
  induction count as [|count IH]; [done|].
  change (same_instant_run (S count) 0) with (false :: same_instant_run count 0).
  by rewrite IH.
Qed.

Lemma same_instant_run_nine (count : nat) :
  same_instant_run count 9 =
  replicate (Nat.min count 9) true ++ replicate (count - 9) false.
Proof.
  destruct (le_lt_dec 9 count) as [Hle|Hlt].
  - replace count with (9 + (count - 9))%nat at 1 by lia.
    rewrite same_instant_run_app.
    change (same_instant_left 9 9) with 0.
    change (same_instant_run 9 9) with (replicate 9 true).
    rewrite same_instant_run_empty. by rewrite Nat.min_r by lia.
  - do 9 (destruct count as [|count]; [by vm_compute|]). lia.
Qed.

(** X15: a burst.  Of any number of checks that a new caller makes at
    one instant, the first ten are admitted and all the others are
    rejected. *)
Theorem burst_is_capped (count : nat) (now : float) (identifier : string) (rl : RateLimiter) :
  is_finite now = true ->
  configured rl ->
  buckets rl !! identifier = None ->
  (checks count now identifier rl).1 =
  replicate (Nat.min count 10) true ++ replicate (count - 10) false.
Proof.
  intros Hnow Hrl Hfresh. destruct count as [|count]; [done|].
  rewrite checks_S, checkLimit_eq, (refilled_fresh now identifier rl) by done.
  cbn [fst snd].
  rewrite (checks_same_instant count now 9 identifier).
  - rewrite same_instant_run_nine.
    replace (Nat.min (S count) 10) with (S (Nat.min count 9)) by lia.
    replace (S count - 10)%nat with (count - 9)%nat by lia. done.
  - done.
  - by destruct Hrl.
  - simpl. by rewrite lookup_insert_eq.
Qed.

Lemma burst_is_capped_witness :
  (checks 25 1700000000000 "203.0.113.7" insightsRateLimiter).1 =
  replicate 10 true ++ replicate 15 false.
Proof.
  apply (burst_is_capped 25 1700000000000 "203.0.113.7" insightsRateLimiter).
  - vm_compute. reflexivity.
  - split; reflexivity.
  - reflexivity.
Defined.

(** *** Several callers *)

(** The requests that reach the limiter, in order: each with the value
    of [Date.now()] at its check and the identifier of its caller. *)
Fixpoint serve (requests : list (float * string)) (rl : RateLimiter)
  : list bool * RateLimiter :=
  match requests with
  | [] => ([], rl)
  | (now, identifier) :: rest =>
      let '(allowed, rl') := checkLimit now identifier rl in
      let '(answers, rl'') := serve rest rl' in
      (allowed :: answers, rl'')
  end.

(** The requests of one caller. *)
Definition requests_of (caller : string) (requests : list (float * string))
  : list (float * string) :=
  List.filter (fun request => String.eqb request.2 caller) requests.

(** The answers given to one caller. *)
Fixpoint answers_to (caller : string) (requests : list (float * string)) (answers : list bool)
  : list bool :=
  match requests, answers with
  | (_, identifier) :: requests', allowed :: answers' =>
      if String.eqb identifier caller
      then allowed :: answers_to caller requests' answers'
      else answers_to caller requests' answers'
  | _, _ => []
  end.

(** Two limiters that are set up alike and hold the same bucket for a
    caller. *)
Definition agree_on (caller : string) (rl1 rl2 : RateLimiter) : Prop :=
  buckets rl1 !! caller = buckets rl2 !! caller /\
  maxTokens rl1 = maxTokens rl2 /\ refillRate rl1 = refillRate rl2.

Lemma checkLimit_agree (now : float) (caller : string) (rl1 rl2 : RateLimiter) :
  agree_on caller rl1 rl2 ->
  (checkLimit now caller rl1).1 = (checkLimit now caller rl2).1 /\
  agree_on caller (checkLimit now caller rl1).2 (checkLimit now caller rl2).2.
Proof.
  intros (Hb & Hm & Hr). rewrite !checkLimit_eq. unfold refilled, agree_on. simpl.
  rewrite Hb, Hm, Hr, !lookup_insert_eq. done.
Qed.

Lemma checkLimit_other (now : float) (identifier caller : string) (rl1 rl2 : RateLimiter) :
  identifier <> caller -> agree_on caller rl1 rl2 ->
  agree_on caller (checkLimit now identifier rl1).2 rl2.
Proof.
  intros Hne (Hb & Hm & Hr). rewrite checkLimit_eq. unfold agree_on. simpl.
  by rewrite lookup_insert_ne.
Qed.

Lemma serve_agree (caller : string) (requests : list (float * string))
    (rl1 rl2 : RateLimiter) :
  agree_on caller rl1 rl2 ->
  answers_to caller requests (serve requests rl1).1 =
  (serve (requests_of caller requests) rl2).1.
Proof.
  revert rl1 rl2. induction requests as [|[now identifier] requests IH]; intros rl1 rl2 Hagree;
    [done|].
  cbn [serve requests_of List.filter snd].
  destruct (checkLimit now identifier rl1) as [allowed rl1'] eqn:Hcheck.
  specialize (IH rl1'). destruct (serve requests rl1') as [answers rl1''].
  cbn [answers_to fst]. destruct (String.eqb_spec identifier caller) as [->|Hne].
  - cbn [serve]. destruct (checkLimit_agree now caller rl1 rl2 Hagree) as [Hsame Hnext].
    rewrite Hcheck in Hsame, Hnext. simpl in Hsame, Hnext.
    destruct (checkLimit now caller rl2) as [allowed2 rl2']. simpl in *. subst.
    specialize (IH rl2' Hnext). fold (requests_of caller requests) in *.
    destruct (serve (requests_of caller requests) rl2'). simpl in *. by f_equal.
  - apply IH. pose proof (checkLimit_other now identifier caller rl1 rl2 Hne Hagree) as Hnext.
    by rewrite Hcheck in Hnext.
Qed.

(** X16: callers do not interfere.  However the requests of several
    callers are interleaved, and whenever they are made, the answers
    that one caller gets are the answers it would get if its requests
    were the only ones. *)
Theorem callers_do_not_interfere (caller : string) (requests : list (float * string))
    (rl : RateLimiter) :
  answers_to caller requests (serve requests rl).1 =
  (serve (requests_of caller requests) rl).1.
Proof. by apply serve_agree. Qed.

End SecurityMore.

(** ** The rebuild coordinator, whatever the rebuild does *)

Module DataCacheMore.
Import DataCache DataCacheSpec.

Section AnyOutcome.
Context {Data : Type}.
Variable build : result Data.
Variable write_error : option string.
Variable reparse : Data -> Data.

(** [n] calls have just been made, and the cache file holds [snapshot]. *)
Definition initial_from (n : nat) (snapshot : option Data) : State Data :=
  mkState (replicate n ReadCache) false snapshot 0.

(** What a call that rebuilds ends with when the rebuild or the write
    of the cache fails. *)
Definition rebuild_failure : option (result Data) :=
  match build with
  | Throw msg => Some (rebuild_error msg)
  | Ok _ =>
      match write_error with
      | Some msg => Some (rebuild_error ("Failed to write cache: " +:+ msg))
      | None => None
      end
  end.

(** *** The lock, whatever the rebuild does *)

Record lock_invariant (s : State Data) : Prop := mkLockInvariant {
  lock_holders : total holds_lock (calls s) = if locked s then 1 else 0;
  lock_waiting : Forall (fun c => c = Waiting -> locked s = true) (calls s)
}.

Lemma lock_invariant_initial (n : nat) (snapshot : option Data) :
  lock_invariant (initial_from n snapshot).
Proof.
  split; simpl.
  - rewrite total_replicate. simpl. lia.
  - by apply Forall_replicate.
Qed.

Lemma wake_not_waiting (c : Call Data) : wake c <> Waiting.
Proof. by destruct c. Qed.

Lemma released_waiting (l : list (Call Data)) (i : nat) (r : result Data) :
  Forall (fun c => c = Waiting -> false = true) (<[i := Returned r]> (wake <$> l)).
Proof.
  apply Forall_insert; [|done]. apply Forall_fmap, Forall_forall.
  intros c _ Hc. by apply wake_not_waiting in Hc.
Qed.

Lemma lock_invariant_run (i : nat) (s s' : State Data) :
  lock_invariant s -> run_call build write_error reparse i s = Some s' -> lock_invariant s'.
Proof.
  intros [Hlock Hwait] Hrun. unfold run_call in Hrun.
  destruct (calls s !! i) as [c|] eqn:Hi; [|done].
  assert (Hset : forall c', holds_lock c' = holds_lock c -> c' <> Waiting ->
            lock_invariant (set_call i c' s)).
  { intros c' Hsame Hc'. split; simpl.
    - pose proof (total_insert holds_lock _ i _ c' Hi). lia.
    - by apply Forall_insert. }
  assert (Hacquire : holds_lock c = 0%nat -> lock_invariant (acquire i s)).
  { intros Hc. unfold acquire, set_call.
    destruct (locked s) eqn:Hlocked; split; simpl; rewrite ?Hlocked.
    - pose proof (total_insert holds_lock _ i _ Waiting Hi). simpl in *. lia.
    - by apply Forall_insert.
    - pose proof (total_insert holds_lock _ i _ LockedReadCache Hi). simpl in *. lia.
    - apply Forall_insert; [|done]. eapply Forall_impl; [exact Hwait|]. done. }
  assert (Hrelease : forall r file, holds_lock c = 1%nat ->
            lock_invariant (release i r (mkState (calls s) (locked s) file (ingestions s)))).
  { intros r file Hc. split; simpl; [|apply released_waiting].
    rewrite release_calls, total_fmap by apply wake_holds.
    pose proof (total_insert holds_lock _ i _ (Returned r) Hi). simpl in *.
    destruct (locked s); lia. }
  destruct c as [|[cached|]| | | |[cachedAfterLock|]| |aggregates|r]; simplify_eq/=;
    try (by apply Hset); try (by apply Hacquire).
  - by apply (Hrelease _ (cache s)).
  - split; simpl.
    + pose proof (total_insert holds_lock _ i _ Building Hi). simpl in *. lia.
    + by apply Forall_insert.
  - destruct build; simplify_eq; [by apply Hset|by apply (Hrelease _ (cache s))].
  - destruct write_error; simplify_eq; [by apply (Hrelease _ (cache s))|by apply Hrelease].
Qed.

Lemma run_call_enabled (i : nat) (s : State Data) (c : Call Data) :
  calls s !! i = Some c -> c <> Waiting -> pending c = 1%nat ->
  is_Some (run_call build write_error reparse i s).
Proof.
  intros Hi Hwait Hpending. unfold run_call. rewrite Hi.
  destruct c as [|[cached|]| | | |[cachedAfterLock|]| |aggregates|r]; simpl in *;
    try done; eauto.
  - destruct build; eauto.
  - destruct write_error; eauto.
Qed.

Lemma run_call_length (i : nat) (s s' : State Data) :
  run_call build write_error reparse i s = Some s' -> length (calls s') = length (calls s).
Proof.
  unfold run_call, acquire, release, set_call. intros Hrun.
  destruct (calls s !! i) as [[|[?|]| | | |[?|]| |?|?]|]; simplify_eq/=;
    try destruct (locked s); try destruct build; try destruct write_error; simplify_eq/=;
    by rewrite ?length_insert, ?length_fmap.
Qed.

Lemma run_call_measure (i : nat) (s s' : State Data) :
  run_call build write_error reparse i s = Some s' -> measure s' < measure s.
Proof.
  unfold run_call, acquire, set_call, release, measure. intros Hrun.
  destruct (calls s !! i) as [c|] eqn:Hi; [|done].
  destruct c as [|[cached|]| | | |[cachedAfterLock|]| |aggregates|r]; simplify_eq/=;
    try destruct (locked s); try destruct build; try destruct write_error;
    simplify_eq/=;
    first [ by eapply measure_release
          | eapply measure_move; [exact Hi|simpl; lia|simpl; lia] ].
Qed.

Lemma reachable_ind (P : State Data -> Prop) (s0 s : State Data) :
  P s0 ->
  (forall i s1 s2, P s1 -> run_call build write_error reparse i s1 = Some s2 -> P s2) ->
  rtc (step build write_error reparse) s0 s -> P s.
Proof.
  intros H0 Hstep Hreach.
  eapply (rtc_ind_r (R := step build write_error reparse) P); [exact H0| |exact Hreach].
  intros s1 s2 _ [i Hrun] H1. by eapply Hstep.
Qed.

(** X17: the lock.  Whatever the rebuild and the write of the cache do
    and whether or not a snapshot exists, in every state that the calls
    can reach at most one call is inside [withCacheLock], and one is
    exactly when the lock is taken; as long as a call is running some
    call can run, and every step lowers the measure, so every call
    ends; and when all calls have ended the lock is free. *)
Theorem lock_is_safe_and_live (n : nat) (snapshot : option Data) (s : State Data) :
  rtc (step build write_error reparse) (initial_from n snapshot) s ->
  total holds_lock (calls s) <= 1 /\
  (locked s = true <-> exists i c, calls s !! i = Some c /\ holds_lock c = 1) /\
  (finished s = false -> exists s', step build write_error reparse s s') /\
  (forall s', step build write_error reparse s s' -> measure s' < measure s) /\
  (finished s = true -> locked s = false).
Proof.
  intros Hreach.
  assert (Hinv : lock_invariant s).
  { eapply reachable_ind; [apply lock_invariant_initial| |exact Hreach].
    intros i s1 s2 H1 Hrun. by eapply lock_invariant_run. }
  destruct Hinv as [Hlock Hwait]. split_and!.
  - rewrite Hlock. destruct (locked s); lia.
  - split.
    + intros Hlocked. rewrite Hlocked in Hlock.
      destruct (total_pos holds_lock (calls s)) as (i & c & Hi & Hc); [lia|].
      exists i, c. split; [done|]. destruct c; simpl in *; lia.
    + intros (i & c & Hi & Hc). pose proof (total_lookup holds_lock _ i c Hi).
      destruct (locked s); [done|lia].
  - intros Hrunning.
    assert (Hpending : 0 < total pending (calls s)).
    { destruct (total pending (calls s)) eqn:E; [|lia].
      apply finished_total in E. congruence. }
    apply total_pos in Hpending as (i & c & Hi & Hc).
    assert (Hc1 : pending c = 1) by (destruct c; simpl in *; lia).
    assert (Hcases : c = Waiting \/ c <> Waiting) by (destruct c; (by left) || (by right)).
    destruct Hcases as [->|Hnot].
    + pose proof (proj1 (Forall_lookup _ _) Hwait i _ Hi eq_refl) as Hlocked.
      rewrite Hlocked in Hlock.
      destruct (total_pos holds_lock (calls s)) as (j & h & Hj & Hh); [lia|].
      destruct (run_call_enabled j s h Hj) as [s' Hs'].
      * intros ->. simpl in Hh. lia.
      * destruct h; simpl in *; lia.
      * exists s', j. exact Hs'.
    + destruct (run_call_enabled i s c Hi Hnot Hc1) as [s' Hs']. exists s', i. exact Hs'.
  - intros s' [i Hrun]. by eapply run_call_measure.
  - intros Hdone. apply finished_total in Hdone.
    destruct (locked s) eqn:Hlocked; [|done].
    destruct (total_pos holds_lock (calls s)) as (i & c & Hi & Hc); [lia|].
    pose proof (total_lookup pending _ i c Hi). destruct c; simpl in *; lia.
Qed.

(** *** A rebuild that fails *)

(** The call has started an ingestion pass. *)
Definition started (c : Call Data) : nat :=
  match c with
  | Building | Writing _ | Returned _ => 1
  | _ => 0
  end.

Definition failing_call (r0 : result Data) (c : Call Data) : Prop :=
  match c with
  | AfterRead cached => cached = None
  | LockedAfterRead cachedAfterLock => cachedAfterLock = None
  | Writing aggregates => build = Ok aggregates
  | Returned r => r = r0
  | _ => True
  end.

Record failing_invariant (r0 : result Data) (s : State Data) : Prop := mkFailing {
  failing_cache : cache s = None;
  failing_calls : Forall (failing_call r0) (calls s);
  failing_ingestions : ingestions s = total started (calls s)
}.

Lemma wake_started (c : Call Data) : started (wake c) = started c.
Proof. by destruct c. Qed.

Lemma failing_release (r0 : result Data) (l : list (Call Data)) (i : nat) :
  Forall (failing_call r0) l ->
  Forall (failing_call r0) (<[i := Returned r0]> (wake <$> l)).
Proof.
  intros Hl. apply Forall_insert; [|done]. apply Forall_fmap.
  eapply Forall_impl; [exact Hl|]. by intros [| | | | | | | |].
Qed.

Lemma failing_invariant_run (r0 : result Data) (i : nat) (s s' : State Data) :
  rebuild_failure = Some r0 ->
  failing_invariant r0 s -> run_call build write_error reparse i s = Some s' -> failing_invariant r0 s'.
Proof.
  unfold rebuild_failure. intros Hfail [Hcache Hcalls Hing] Hrun. unfold run_call in Hrun.
  destruct (calls s !! i) as [c|] eqn:Hi; [|done].
  pose proof (proj1 (Forall_lookup _ _) Hcalls i c Hi) as Hc.
  assert (Hset : forall c', started c' = started c -> failing_call r0 c' ->
            failing_invariant r0 (set_call i c' s)).
  { intros c' Hsame Hc'. split; simpl; [done|by apply Forall_insert|].
    pose proof (total_insert started _ i _ c' Hi). lia. }
  assert (Hacquire : started c = 0 -> failing_invariant r0 (acquire i s)).
  { intros Hc0. unfold acquire. destruct (locked s); [by apply Hset|].
    split; simpl; [done|by apply Forall_insert|].
    pose proof (total_insert started _ i _ LockedReadCache Hi). simpl in *. lia. }
  assert (Hrelease : started c = 1 -> failing_invariant r0 (release i r0 s)).
  { intros Hc1. split; simpl; [done|by apply failing_release|].
    rewrite release_calls, total_fmap by apply wake_started.
    pose proof (total_insert started _ i _ (Returned r0) Hi). simpl in *. lia. }
  destruct c as [|[cached|]| | | |[cachedAfterLock|]| |aggregates|r]; simplify_eq/=;
    try (by apply Hacquire).
  - apply Hset; [done|]. simpl. done.
  - apply Hset; [done|]. simpl. done.
  - split; simpl; [done|by apply Forall_insert|].
    pose proof (total_insert started _ i _ Building Hi). simpl in *. lia.
  - destruct build as [aggregates|msg] eqn:Hbuild; simplify_eq.
    + by apply Hset.
    + by apply Hrelease.
  - rewrite Hc in Hfail. destruct write_error as [msg|] eqn:Hwrite; simplify_eq.
    by apply Hrelease.
Qed.

(** X18: when the rebuild fails, or the cache cannot be written, and
    there was no snapshot: no snapshot ever appears, every call that
    ends ends with the same error, the calls that were waiting for the
    lock do not share the failure but each run an ingestion pass of
    their own, so that [n] passes have run when the [n] calls have
    ended. *)
Theorem failed_rebuild_is_repeated (r0 : result Data) (n : nat) (s : State Data) :
  rebuild_failure = Some r0 ->
  rtc (step build write_error reparse) (initial_from n None) s ->
  cache s = None /\
  (forall i r, calls s !! i = Some (Returned r) -> r = r0) /\
  ingestions s <= n /\
  (finished s = true -> ingestions s = n).
Proof.
  intros Hfail Hreach.
  assert (Hinv : failing_invariant r0 s).
  { eapply reachable_ind; [| |exact Hreach].
    - split; simpl; [done|by apply Forall_replicate|]. by rewrite total_replicate.
    - intros i s1 s2 H1 Hrun. by eapply failing_invariant_run. }
  assert (Hlen : length (calls s) = n).
  { eapply (reachable_ind (fun s => length (calls s) = n)); [| |exact Hreach].
    - apply length_replicate.
    - intros i s1 s2 H1 Hrun. apply run_call_length in Hrun. congruence. }
  destruct Hinv as [Hcache Hcalls Hing]. split_and!.
  - done.
  - intros i r Hi. apply (proj1 (Forall_lookup _ _) Hcalls i _ Hi).
  - rewrite Hing, <- Hlen. etrans; [apply (total_bound started _ 1)|lia].
    intros []; simpl; lia.
  - intros Hdone. rewrite Hing, <- Hlen. clear -Hdone.
    unfold finished, total in *. induction (calls s) as [|c l IH]; [done|].
    simpl in Hdone. apply andb_true_iff in Hdone as [Hc Hl].
    csimpl. rewrite (IH Hl). by destruct c.
Qed.

(** *** A snapshot that exists *)

Definition warm_call (d : Data) (c : Call Data) : Prop :=
  c = ReadCache \/ c = AfterRead (Some d) \/ c = Returned (Ok d).

(** X19: when a snapshot exists, no call takes the lock or starts an
    ingestion pass, whatever the rebuild would do: every call reads
    the snapshot and returns it. *)
Theorem snapshot_is_served (d : Data) (n : nat) (s : State Data) :
  rtc (step build write_error reparse) (initial_from n (Some d)) s ->
  locked s = false /\ ingestions s = 0 /\ cache s = Some d /\
  Forall (warm_call d) (calls s) /\
  (forall i r, calls s !! i = Some (Returned r) -> r = Ok d).
Proof.
  intros Hreach.
  assert (Hinv : locked s = false /\ ingestions s = 0 /\ cache s = Some d /\
                 Forall (warm_call d) (calls s)).
  { eapply (reachable_ind (fun s => locked s = false /\ ingestions s = 0 /\ cache s = Some d /\
                                    Forall (warm_call d) (calls s))); [| |exact Hreach].
    - split_and!; try done. apply Forall_replicate. by left.
    - intros i s1 s2 (Hlock & Hing & Hcache & Hcalls) Hrun. unfold run_call in Hrun.
      destruct (calls s1 !! i) as [c|] eqn:Hi; [|done].
      pose proof (proj1 (Forall_lookup _ _) Hcalls i c Hi) as [->|[->| ->]]; simplify_eq/=.
      + split_and!; try done. apply Forall_insert; [done|]. rewrite Hcache. right. by left.
      + split_and!; try done. apply Forall_insert; [done|]. right. by right. }
  destruct Hinv as (Hlock & Hing & Hcache & Hcalls). split_and!; try done.
  intros i r Hi. by destruct (proj1 (Forall_lookup _ _) Hcalls i _ Hi) as [?|[?|[= ->]]].
Qed.

End AnyOutcome.

(** Two calls, no snapshot, a CSV file with too many records without a
    date: each call runs its own ingestion pass and ends with the same
    error. *)
Definition corrupted : result SnapshotStore.Snapshot :=
  Throw "Failed to build aggregates: Too many parsing errors (102). CSV file may be corrupted.".

Definition two_failed_calls : State SnapshotStore.Snapshot :=
  run_schedule corrupted None SnapshotStore.reparse
    [0; 1; 0; 1; 0; 0; 0; 1; 1; 1; 1] (initial_from 2 None).

Lemma failed_rebuild_is_repeated_witness :
  finished two_failed_calls = true /\ ingestions two_failed_calls = 2.
Proof.
  destruct (failed_rebuild_is_repeated corrupted None SnapshotStore.reparse
              (rebuild_error
                 "Failed to build aggregates: Too many parsing errors (102). CSV file may be corrupted.")
              2 two_failed_calls)
    as (_ & _ & _ & Hall).
  - reflexivity.
  - apply run_schedule_steps.
  - split; [reflexivity|apply Hall; reflexivity].
Defined.

Lemma lock_is_safe_and_live_witness :
  finished two_failed_calls = true /\ locked two_failed_calls = false.
Proof.
  destruct (lock_is_safe_and_live corrupted None SnapshotStore.reparse
              2 None two_failed_calls) as (_ & _ & _ & _ & Hfree).
  - apply run_schedule_steps.
  - split; [reflexivity|apply Hfree; reflexivity].
Defined.

(** Two calls when a snapshot exists. *)
Definition two_served_calls : State SnapshotStore.Snapshot :=
  run_schedule corrupted None SnapshotStore.reparse [0; 1; 1; 0]
    (initial_from 2 (Some (SnapshotStore.in_memory AggregatorSpec.sample_aggregates))).

Lemma snapshot_is_served_witness :
  calls two_served_calls =
    replicate 2 (Returned (Ok (SnapshotStore.in_memory AggregatorSpec.sample_aggregates))) /\
  ingestions two_served_calls = 0.
Proof.
  destruct (snapshot_is_served corrupted None SnapshotStore.reparse
              (SnapshotStore.in_memory AggregatorSpec.sample_aggregates) 2 two_served_calls)
    as (_ & Hnone & _).
  - apply run_schedule_steps.
  - split; [reflexivity|exact Hnone].
Defined.

End DataCacheMore.
